(** * RK4 ODE solver (src/lib/ode-solver.ts): a shallow embedding

    JavaScript numbers are IEEE-754 binary64 values; they are modelled by
    Rocq's primitive floats, whose operations are the same binary64
    operations with round-to-nearest-even.  The vector helpers and the RK4
    stepper only use ring operations and a square root, so they are written
    once over a small interface [Number] and used at [float] (the program)
    and at [R] (the "real arithmetic" the specification talks about). *)

From Stdlib Require Import Floats ZArith Uint63 Reals Lia Lra.
From stdpp Require Import gmap strings list.

Set Default Proof Using "Type".
Close Scope R_scope.

(** ** Numbers *)

Class Number (A : Type) := {
  num0 : A;
  num2 : A;
  num6 : A;
  plus : A → A → A;
  minus : A → A → A;
  times : A → A → A;
  divide : A → A → A;
  root : A → A
}.

Declare Scope num_scope.
Delimit Scope num_scope with num.
Infix "+" := plus : num_scope.
Infix "-" := minus : num_scope.
Infix "*" := times : num_scope.
Infix "/" := divide : num_scope.

#[export] Instance float_Number : Number float := {|
  num0 := 0%float;
  num2 := 2%float;
  num6 := 6%float;
  plus := PrimFloat.add;
  minus := PrimFloat.sub;
  times := PrimFloat.mul;
  divide := PrimFloat.div;
  root := PrimFloat.sqrt
|}.

#[export] Instance R_Number : Number R := {|
  num0 := 0%R;
  num2 := 2%R;
  num6 := 6%R;
  plus := Rplus;
  minus := Rminus;
  times := Rmult;
  divide := Rdiv;
  root := sqrt
|}.

(** The global [isFinite] applied to a number: false on NaN and on the two
    infinities. *)
Definition isFinite (x : float) : bool := PrimFloat.is_finite x.

(** [Math.ceil] on a binary64 value, read off its sign, mantissa and
    exponent: NaN, the infinities, the zeros and every value whose exponent
    is not negative are integers already; otherwise the value is
    [± m * 2^e] with [e < 0] and [m < 2^53], its integer part [q] is below
    [2^53], and the result is [q] or [q + 1] (positive) or [- q]
    (negative, where a zero result keeps the sign). *)
Definition ceil (x : float) : float :=
  match Prim2SF x with
  | S754_finite s m e =>
      if (0 <=? e)%Z then x
      else
        let q := Z.shiftr (Z.pos m) (- e) in
        let exact := (Z.shiftl q (- e) =? Z.pos m)%Z in
        if s then PrimFloat.opp (PrimFloat.of_uint63 (Uint63.of_Z q))
        else PrimFloat.of_uint63 (Uint63.of_Z (if exact then q else q + 1))
  | _ => x
  end.

(** ** Error messages and thrown values

    Every [new Error(...)] of the solver has its own constructor; the
    arguments are the values its template literal interpolates. *)
Inductive Message : Type :=
  | DtNotFinite          (* 'Time step dt must be a finite number' *)
  | DtNotPositive        (* 'Time step dt must be positive' *)
  | DtExceedsTMax        (* 'Time step dt cannot be larger than maximum time tMax' *)
  | TMaxNotFinite        (* 'Maximum time tMax must be a finite number' *)
  | TMaxNotPositive      (* 'Maximum time tMax must be positive' *)
  | InitialLength (given expected : nat)
      (* `Initial conditions length (${given}) must match number of state variables (${expected})` *)
  | InitialNotFinite     (* 'All initial conditions must be finite numbers' *)
  | MissingParameters (names : list string)
      (* `Missing required parameters: ${names.join(', ')}` *)
  | ParameterNotFinite (name : string)
      (* `Parameter ${name} must be a finite number` *)
  | ParameterOutOfRange (name : string) (value lo hi : float)
      (* `Parameter ${name} (${value}) is outside valid range [${lo}, ${hi}]` *)
  | InitialInvalid       (* 'Initial conditions contain NaN or Infinity' *)
  | NumericalInstability (t : float)
      (* `Numerical instability detected at t=${t.toFixed(2)}. State contains NaN or Infinity. ...` *)
  | UnexpectedError (t : float) (thrown : string)
      (* `Unexpected error during integration at t=${t.toFixed(2)}: ${error}` *)
  | MaxStepsExceeded     (* 'Maximum number of integration steps exceeded' *)
  | VectorLengthMismatch (la lb : nat)
      (* `Vector length mismatch: ${a.length} !== ${b.length}` *)
  | ForeignMessage (text : string).
      (* the message of an Error object the derivative function threw *)

(** What a [throw] can carry: an [Error] object, with the string that is
    its message, or any other value.  Of a value that is not an [Error]
    the solver uses two conversions to a string and nothing else: the one
    of a template literal, [`${error}`], and [String(error)].  Each gives
    a text or throws in its turn.  For a number or a string the two give
    the same text; for a symbol the template throws a [TypeError] and
    [String] gives ['Symbol(...)']; for an object without a usable
    [toString] both throw a [TypeError]. *)
Inductive thrown : Type :=
  | ErrorObj (msg : Message)
  | NonError (inTemplate viaString : conversion)
with conversion : Type :=
  | Renders (text : string)
  | Raises (e : thrown).

(** A value whose two conversions give the same text. *)
Definition plainValue (text : string) : thrown :=
  NonError (Renders text) (Renders text).

(** A symbol: [`${symbol}`] throws, [String(symbol)] does not. *)
Definition symbolValue (description : string) : thrown :=
  NonError
    (Raises (ErrorObj (ForeignMessage "Cannot convert a Symbol value to a string")))
    (Renders ("Symbol(" +:+ description +:+ ")")).

(** An object that cannot be converted (no prototype, say). *)
Definition opaqueValue : thrown :=
  NonError
    (Raises (ErrorObj (ForeignMessage "Cannot convert object to primitive value")))
    (Raises (ErrorObj (ForeignMessage "Cannot convert object to primitive value"))).

(** A computation that returns or throws. *)
Inductive result (A : Type) : Type :=
  | Ok (a : A)
  | Throw (e : thrown).
Arguments Ok {A} a.
Arguments Throw {A} e.

#[export] Instance result_ret : MRet result := λ A, Ok.
#[export] Instance result_bind : MBind result := λ A B k m,
  match m with
  | Ok a => k a
  | Throw e => Throw e
  end.

(** ** Vector utility functions *)

Section Vectors.
Context {A : Type} `{Number A}.
Local Open Scope num_scope.

(** After the length guard, [a.map((val, i) => val + b[i])] pairs the
    elements of [a] and [b] position by position. *)
Definition add (a b : list A) : result (list A) :=
  if negb (length a =? length b)%nat
  then Throw (ErrorObj (VectorLengthMismatch (length a) (length b)))
  else Ok (zip_with (λ val bi, val + bi) a b).

Definition scale (v : list A) (scalar : A) : list A :=
  map (λ val, val * scalar) v.

Definition subtract (a b : list A) : result (list A) :=
  if negb (length a =? length b)%nat
  then Throw (ErrorObj (VectorLengthMismatch (length a) (length b)))
  else Ok (zip_with (λ val bi, val - bi) a b).

Definition dot (a b : list A) : result A :=
  if negb (length a =? length b)%nat
  then Throw (ErrorObj (VectorLengthMismatch (length a) (length b)))
  else Ok (foldl (λ sum '(val, bi), sum + val * bi) num0 (zip a b)).

Definition magnitude (v : list A) : A :=
  root (foldl (λ sum val, sum + val * val) num0 v).

(** ** One RK4 step *)

Definition rk4Step (f : list A → gmap string A → result (list A))
    (state : list A) (params : gmap string A) (dt : A) : result (list A) :=
  k1 ← f state params;
  s1 ← add state (scale k1 (dt / num2));
  k2 ← f s1 params;
  s2 ← add state (scale k2 (dt / num2));
  k3 ← f s2 params;
  s3 ← add state (scale k3 dt);
  k4 ← f s3 params;
  left ← add k1 (scale k2 num2);
  right ← add (scale k3 num2) k4;
  weightedSum ← add left right;
  add state (scale weightedSum (dt / num6)).
End Vectors.

(** ** Data model (src/types/simulation.ts) *)

Record TrajectoryPoint := { pt_t : float; pt_state : list float }.

Record Trajectory := { points : list TrajectoryPoint; variables : list string }.

Inductive SolverResult : Type :=
  | Success (trajectory : Trajectory)
  | Failure (error : Message).

(** The interface [Parameter]; its fields carry the prefix [p_], and those
    of [ODESystem] and [SolverConfig] that share a name the prefixes [sys_]
    and [cfg_]. *)
Record ParameterDef := {
  p_name : string;
  p_label : string;
  p_min : float;
  p_max : float;
  p_step : float;
  p_default : float
}.

Record SolverConfig := {
  dt : float;
  tMax : float;
  initialConditions : list float;
  cfg_parameters : gmap string float
}.

Record ODESystem := {
  sys_id : string;
  sys_name : string;
  description : string;
  stateVariables : list string;
  sys_parameters : list ParameterDef;
  defaultInitialConditions : list float;
  equations : list float → gmap string float → result (list float)
}.

(** ** Validation of a solver configuration *)

(** The parameter object is a plain object: a [gmap] of its own
    properties, with [Object.prototype] behind it. *)

(** The names every plain object inherits from [Object.prototype]. *)
Definition inheritedNames : list string :=
  ["constructor"; "hasOwnProperty"; "isPrototypeOf"; "propertyIsEnumerable";
   "toLocaleString"; "toString"; "valueOf"; "__proto__";
   "__defineGetter__"; "__defineSetter__"; "__lookupGetter__";
   "__lookupSetter__"]%string.

(** [key in parameters]: an own property or an inherited one. *)
Definition hasProperty (parameters : gmap string float) (key : string) : bool :=
  bool_decide (is_Some (parameters !! key)) || bool_decide (key ∈ inheritedNames).

(** [parameters[param.name]] as [isFinite] and the comparisons see it: the
    number of an own property; a missing property reads as [undefined]
    and an inherited one as a function or an object, which are NaN to
    them. *)
Definition readParameter (parameters : gmap string float) (key : string) : float :=
  default nan (parameters !! key).

(** The [for (const param of system.parameters)] loop. *)
Fixpoint validateParameterValues (params : list ParameterDef)
    (parameters : gmap string float) : option Message :=
  match params with
  | [] => None
  | param :: rest =>
      let value := readParameter parameters param.(p_name) in
      if negb (isFinite value) then Some (ParameterNotFinite param.(p_name))
      else if (value <? param.(p_min))%float || (param.(p_max) <? value)%float
      then Some (ParameterOutOfRange param.(p_name) value param.(p_min) param.(p_max))
      else validateParameterValues rest parameters
  end.

(** [system.parameters.map(p => p.name).filter(name => !(name in parameters))] *)
Definition missingParams (system : ODESystem) (parameters : gmap string float)
    : list string :=
  filter (λ key, hasProperty parameters key = false)
         (map p_name system.(sys_parameters)).

(** [validateSolverConfig]: the message of the first failing check, or
    [None] for the source's [null].  The two guards [Array.isArray] and
    [typeof parameters !== 'object'] hold for every value of the types
    [list float] and [gmap string float], so they have no branch here. *)
Definition validateSolverConfig (config : SolverConfig) (system : ODESystem)
    : option Message :=
  if negb (isFinite config.(dt)) then Some DtNotFinite
  else if (config.(dt) <=? 0)%float then Some DtNotPositive
  else if (config.(tMax) <? config.(dt))%float then Some DtExceedsTMax
  else if negb (isFinite config.(tMax)) then Some TMaxNotFinite
  else if (config.(tMax) <=? 0)%float then Some TMaxNotPositive
  else if negb (length config.(initialConditions) =? length system.(stateVariables))%nat
  then Some (InitialLength (length config.(initialConditions))
                           (length system.(stateVariables)))
  else if existsb (λ val, negb (isFinite val)) config.(initialConditions)
  then Some InitialNotFinite
  else
    let missing := missingParams system config.(cfg_parameters) in
    if (0 <? length missing)%nat then Some (MissingParameters missing)
    else validateParameterValues system.(sys_parameters) config.(cfg_parameters).

Definition hasInvalidValues (state : list float) : bool :=
  existsb (λ val, negb (isFinite val)) state.

(** ** Integration *)

(** The variables the [while] loop of [solveODE] updates; [pts] is what
    the array [points] holds. *)
Record Vars := {
  t : float;
  state : list float;
  stepCount : float;
  pts : list TrajectoryPoint
}.

Section Loop.
Variable system : ODESystem.
Variable config : SolverConfig.
Variable maxSteps : float.

(** [t < tMax && stepCount < maxSteps] *)
Definition loopCondition (v : Vars) : bool :=
  (v.(t) <? config.(tMax))%float && (v.(stepCount) <? maxSteps)%float.

(** What the [catch] block of the loop throws for what it caught at time
    [t]: an [Error] as it is; for any other value an [Error] whose message
    holds the value, or, when the template literal cannot convert the
    value, what the conversion throws. *)
Definition rethrown (time : float) (e : thrown) : thrown :=
  match e with
  | ErrorObj msg => ErrorObj msg
  | NonError (Renders text) _ => ErrorObj (UnexpectedError time text)
  | NonError (Raises e') _ => e'
  end.

(** The [try { ... } catch (error) { ... }] block: one RK4 step, the two
    updates, the instability check and the [push] (which is taken to
    succeed; see the section on the host for a [push] that fails).  When
    [rk4Step] throws, [t] has not been advanced yet. *)
Definition loopBody (v : Vars) : result Vars :=
  match rk4Step system.(equations) v.(state) config.(cfg_parameters) config.(dt) with
  | Ok state' =>
      let t' := (v.(t) + config.(dt))%float in
      let stepCount' := (v.(stepCount) + 1)%float in
      if hasInvalidValues state'
      then Throw (ErrorObj (NumericalInstability t'))
      else Ok {| t := t'; state := state'; stepCount := stepCount';
                 pts := v.(pts) ++ [{| pt_t := t'; pt_state := state' |}] |}
  | Throw e => Throw (rethrown v.(t) e)
  end.

(** The loop, with [fuel] bounding the number of iterations: [None] when
    the fuel runs out before the condition turns false. *)
Fixpoint while (fuel : nat) (v : Vars) : option (result Vars) :=
  if loopCondition v then
    match fuel with
    | O => None
    | S fuel' =>
        match loopBody v with
        | Ok v' => while fuel' v'
        | Throw e => Some (Throw e)
        end
    end
  else Some (Ok v).
End Loop.

(** [Math.ceil(tMax / dt) + 1] *)
Definition maxStepsOf (config : SolverConfig) : float :=
  (ceil (config.(tMax) / config.(dt)) + 1)%float.

Definition initialVars (config : SolverConfig) : Vars :=
  {| t := 0%float; state := config.(initialConditions); stepCount := 0%float;
     pts := [{| pt_t := 0%float; pt_state := config.(initialConditions) |}] |}.

(** What follows the loop: the step-budget check and the returned object. *)
Definition finish (system : ODESystem) (config : SolverConfig) (v : Vars)
    : result Trajectory :=
  if (maxStepsOf config <=? v.(stepCount))%float
  then Throw (ErrorObj MaxStepsExceeded)
  else Ok {| points := v.(pts); variables := system.(stateVariables) |}.

Definition solveODE (fuel : nat) (system : ODESystem) (config : SolverConfig)
    : option (result Trajectory) :=
  match validateSolverConfig config system with
  | Some validationError => Some (Throw (ErrorObj validationError))
  | None =>
      if hasInvalidValues config.(initialConditions)
      then Some (Throw (ErrorObj InitialInvalid))
      else
        match while system config (maxStepsOf config) fuel (initialVars config) with
        | None => None
        | Some (Throw e) => Some (Throw e)
        | Some (Ok v) => Some (finish system config v)
        end
  end.

(** The [try]/[catch] of [solveODESafe]: the message of an [Error], or
    [String(error)] of another value, which throws when that conversion
    does. *)
Definition caught (r : result Trajectory) : result SolverResult :=
  match r with
  | Ok trajectory => Ok (Success trajectory)
  | Throw (ErrorObj msg) => Ok (Failure msg)
  | Throw (NonError _ (Renders text)) => Ok (Failure (ForeignMessage text))
  | Throw (NonError _ (Raises e)) => Throw e
  end.

Definition solveODESafe (fuel : nat) (system : ODESystem) (config : SolverConfig)
    : option (result SolverResult) :=
  match solveODE fuel system config with
  | None => None
  | Some r => Some (caught r)
  end.

(** ** The host

    The loop above keeps the trajectory in a list, which has room for
    every point.  The [points] array of the program lives in the memory of
    the host that runs it, and [points.push] can fail in two ways: an
    array holds [2^32 - 1] elements at most, and a [push] beyond that
    throws a [RangeError]; and the memory of the host is finite, and a
    host that cannot allocate ends the process, which no [catch] block
    sees.  [solveODEOn] and [solveODESafeOn] are [solveODE] and
    [solveODESafe] with this [push]; on a host with room for every point
    of a run they are the functions above. *)

(** The largest length of an array. *)
Definition arrayLimit : Z := 4294967295.

(** The message of the [RangeError] of a [push] onto a full array. *)
Definition invalidArrayLength : Message := ForeignMessage "Invalid array length".

(** A host, by the number of trajectory points its memory has room
    for. *)
Record Host := { room : Z }.

(** How a computation ends on a host: it completes, with a value or a
    [throw], or the host runs out of memory and the process is ended. *)
Inductive ended (A : Type) : Type :=
  | Completed (r : result A)
  | OutOfMemory.
Arguments Completed {A} r.
Arguments OutOfMemory {A}.

(** [points.push(point)] *)
Definition push (host : Host) (points : list TrajectoryPoint)
    (point : TrajectoryPoint) : ended (list TrajectoryPoint) :=
  if (arrayLimit <=? Z.of_nat (length points))%Z
  then Completed (Throw (ErrorObj invalidArrayLength))
  else if (host.(room) <=? Z.of_nat (length points))%Z
  then OutOfMemory
  else Completed (Ok (points ++ [point])).

Section HostLoop.
Variable host : Host.
Variable system : ODESystem.
Variable config : SolverConfig.
Variable maxSteps : float.

(** The [try]/[catch] block of the loop, with the [push] of the host. *)
Definition loopBodyOn (v : Vars) : ended Vars :=
  match rk4Step system.(equations) v.(state) config.(cfg_parameters) config.(dt) with
  | Ok state' =>
      let t' := (v.(t) + config.(dt))%float in
      let stepCount' := (v.(stepCount) + 1)%float in
      if hasInvalidValues state'
      then Completed (Throw (ErrorObj (NumericalInstability t')))
      else
        match push host v.(pts) {| pt_t := t'; pt_state := state' |} with
        | Completed (Ok points) =>
            Completed (Ok {| t := t'; state := state'; stepCount := stepCount';
                             pts := points |})
        | Completed (Throw e) => Completed (Throw (rethrown t' e))
        | OutOfMemory => OutOfMemory
        end
  | Throw e => Completed (Throw (rethrown v.(t) e))
  end.

Fixpoint whileOn (fuel : nat) (v : Vars) : option (ended Vars) :=
  if loopCondition config maxSteps v then
    match fuel with
    | O => None
    | S fuel' =>
        match loopBodyOn v with
        | Completed (Ok v') => whileOn fuel' v'
        | Completed (Throw e) => Some (Completed (Throw e))
        | OutOfMemory => Some OutOfMemory
        end
    end
  else Some (Completed (Ok v)).
End HostLoop.

Definition solveODEOn (host : Host) (fuel : nat) (system : ODESystem)
    (config : SolverConfig) : option (ended Trajectory) :=
  match validateSolverConfig config system with
  | Some validationError => Some (Completed (Throw (ErrorObj validationError)))
  | None =>
      if hasInvalidValues config.(initialConditions)
      then Some (Completed (Throw (ErrorObj InitialInvalid)))
      else
        match push host [] {| pt_t := 0; pt_state := config.(initialConditions) |} with
        | Completed (Ok points) =>
            match whileOn host system config (maxStepsOf config) fuel
                    {| t := 0; state := config.(initialConditions);
                       stepCount := 0; pts := points |} with
            | None => None
            | Some (Completed (Ok v)) => Some (Completed (finish system config v))
            | Some (Completed (Throw e)) => Some (Completed (Throw e))
            | Some OutOfMemory => Some OutOfMemory
            end
        | Completed (Throw e) => Some (Completed (Throw e))
        | OutOfMemory => Some OutOfMemory
        end
  end.

Definition solveODESafeOn (host : Host) (fuel : nat) (system : ODESystem)
    (config : SolverConfig) : option (ended SolverResult) :=
  match solveODEOn host fuel system config with
  | None => None
  | Some (Completed r) => Some (Completed (caught r))
  | Some OutOfMemory => Some OutOfMemory
  end.

(** ** The two built-in systems (src/lib/systems) *)

(** Array destructuring [const [x, y, z] = state] and object destructuring
    [const { sigma, rho, beta } = params]: an absent element or property is
    [undefined], which arithmetic turns into NaN. *)
Definition element (xs : list float) (i : nat) : float := nth i xs nan.

Definition lorenzSystem : ODESystem := {|
  sys_id := "lorenz";
  sys_name := "Lorenz Attractor";
  description := "A chaotic system exhibiting the famous butterfly attractor";
  stateVariables := ["x"; "y"; "z"]%string;
  sys_parameters := [
    {| p_name := "sigma"; p_label := "σ (Sigma)"; p_min := 0; p_max := 20;
       p_step := 0x1.999999999999ap-4; p_default := 10 |};
    {| p_name := "rho"; p_label := "ρ (Rho)"; p_min := 0; p_max := 50;
       p_step := 0.5; p_default := 28 |};
    {| p_name := "beta"; p_label := "β (Beta)"; p_min := 0; p_max := 10;
       p_step := 0x1.999999999999ap-4; p_default := 8 / 3 |} ]%float;
  defaultInitialConditions := [1; 1; 1]%float;
  equations := λ state params,
    let x := element state 0 in
    let y := element state 1 in
    let z := element state 2 in
    let sigma := readParameter params "sigma" in
    let rho := readParameter params "rho" in
    let beta := readParameter params "beta" in
    let dx := (sigma * (y - x))%float in
    let dy := (x * (rho - z) - y)%float in
    let dz := (x * y - beta * z)%float in
    Ok [dx; dy; dz]
|}.

Definition lotkaVolterraSystem : ODESystem := {|
  sys_id := "lotka-volterra";
  sys_name := "Lotka-Volterra";
  description := "Predator-prey population dynamics model";
  stateVariables := ["Prey"; "Predator"]%string;
  sys_parameters := [
    {| p_name := "alpha"; p_label := "α (Prey Growth Rate)"; p_min := 0; p_max := 3;
       p_step := 0x1.999999999999ap-4; p_default := 1.5 |};
    {| p_name := "beta"; p_label := "β (Predation Rate)"; p_min := 0; p_max := 2;
       p_step := 0x1.999999999999ap-4; p_default := 1 |};
    {| p_name := "delta"; p_label := "δ (Predator Efficiency)"; p_min := 0; p_max := 2;
       p_step := 0x1.999999999999ap-4; p_default := 1 |};
    {| p_name := "gamma"; p_label := "γ (Predator Death Rate)"; p_min := 0; p_max := 5;
       p_step := 0x1.999999999999ap-4; p_default := 3 |} ]%float;
  defaultInitialConditions := [10; 5]%float;
  equations := λ state params,
    let prey := element state 0 in
    let predator := element state 1 in
    let alpha := readParameter params "alpha" in
    let beta := readParameter params "beta" in
    let delta := readParameter params "delta" in
    let gamma := readParameter params "gamma" in
    let dPrey := (alpha * prey - beta * prey * predator)%float in
    let dPredator := (delta * prey * predator - gamma * predator)%float in
    Ok [dPrey; dPredator]
|}.

(** The assignment [acc[name] = value] of a number to a property of a
    plain object: the property becomes an own property with that value,
    except for the name [__proto__] when it is not an own property yet;
    the assignment then goes to the setter of [Object.prototype], which
    ignores a number. *)
Definition assignProperty (acc : gmap string float) (name : string) (value : float)
    : gmap string float :=
  if String.eqb name "__proto__" && negb (bool_decide (is_Some (acc !! name)))
  then acc
  else <[name := value]> acc.

(** The parameter object the dashboard builds: every declared parameter at
    its default value. *)
Definition defaultParameters (system : ODESystem) : gmap string float :=
  foldl (λ acc param, assignProperty acc param.(p_name) param.(p_default)) ∅
        system.(sys_parameters).

(** * Properties *)

(** ** Vector arithmetic *)

Section VectorFacts.
Context {A : Type} `{Number A}.
Local Open Scope num_scope.

Lemma lengths_differ (a b : list A) :
  length a ≠ length b → negb (length a =? length b)%nat = true.
Proof. intros Hne. apply negb_true_iff, Nat.eqb_neq, Hne. Qed.

Lemma lengths_agree (a b : list A) :
  length a = length b → negb (length a =? length b)%nat = false.
Proof. intros Heq. apply negb_false_iff, Nat.eqb_eq, Heq. Qed.

Lemma add_ok (a b : list A) :
  length a = length b → add a b = Ok (zip_with plus a b).
Proof. intros Heq. unfold add. by rewrite lengths_agree. Qed.

Lemma length_scale (v : list A) (k : A) : length (scale v k) = length v.
Proof. unfold scale. by rewrite length_map. Qed.

Lemma length_sum (a b : list A) :
  length a = length b → length (zip_with plus a b) = length a.
Proof. intros Heq. rewrite length_zip_with. lia. Qed.

(** The accumulator of [dot v v] after any prefix is the accumulator of
    [magnitude v] after the same prefix. *)
Lemma dot_self_fold (v : list A) (acc : A) :
  foldl (λ sum '(val, bi), sum + val * bi) acc (zip v v)
  = foldl (λ sum val, sum + val * val) acc v.
Proof.
  revert acc. induction v as [|x v IH]; intros acc; simpl; [done|].
  apply IH.
Qed.
End VectorFacts.

(** Over the reals a sum of squares is not negative. *)
Lemma sum_of_squares_nonneg (v : list R) (acc : R) :
  (0 <= acc)%R → (0 <= foldl (λ sum val, sum + val * val)%num acc v)%R.
Proof.
  revert acc. induction v as [|x v IH]; intros acc Hacc; simpl; [done|].
  apply IH. pose proof (Rle_0_sqr x) as Hx. unfold Rsqr in Hx. lra.
Qed.

(** C7.  [add], [subtract] and [dot] throw the length-mismatch error, which
    carries both lengths, exactly when the two lengths differ, and otherwise
    return the element-wise sum, the element-wise difference and the
    accumulated dot product; [scale] and [magnitude] have no failing path:
    they return a vector of the same length, scaled element by element, and
    a number, for every vector (the empty one included). *)
Theorem vector_operations_dimension_contract :
  ∀ (A : Type) (N : Number A) (a b : list A) (k : A),
    (length a ≠ length b →
       add a b = Throw (ErrorObj (VectorLengthMismatch (length a) (length b)))
       ∧ subtract a b = Throw (ErrorObj (VectorLengthMismatch (length a) (length b)))
       ∧ dot a b = Throw (ErrorObj (VectorLengthMismatch (length a) (length b))))
    ∧ (length a = length b →
       (∃ r, add a b = Ok r ∧ length r = length a
             ∧ ∀ i x y, a !! i = Some x → b !! i = Some y → r !! i = Some (plus x y))
       ∧ (∃ r, subtract a b = Ok r ∧ length r = length a
             ∧ ∀ i x y, a !! i = Some x → b !! i = Some y → r !! i = Some (minus x y))
       ∧ dot a b = Ok (foldl (λ sum p, plus sum (times p.1 p.2)) num0 (zip a b)))
    ∧ length (scale a k) = length a
    ∧ (∀ i, scale a k !! i = (λ x, times x k) <$> a !! i)
    ∧ magnitude a = root (foldl (λ sum x, plus sum (times x x)) num0 a).
Proof.
  intros A N a b k. repeat split.
  - unfold add. by rewrite lengths_differ.
  - unfold subtract. by rewrite lengths_differ.
  - unfold dot. by rewrite lengths_differ.
  - exists (zip_with plus a b). split; [by apply add_ok|].
    split; [by apply length_sum|].
    intros i x y Ha Hb. rewrite lookup_zip_with, Ha, Hb. done.
  - exists (zip_with minus a b). split.
    { unfold subtract. by rewrite lengths_agree. }
    split; [rewrite length_zip_with; lia|].
    intros i x y Ha Hb. rewrite lookup_zip_with, Ha, Hb. done.
  - unfold dot. rewrite lengths_agree by done. f_equal.
    generalize (@num0 A N). generalize (zip a b) as l.
    induction l as [|[x y] l IH]; intros acc; simpl; [done|]. apply IH.
  - apply length_scale.
  - intros i. unfold scale. apply list_lookup_fmap.
Qed.

(** The contract of C7 at two vectors of different lengths and at a third
    of the same length as the first. *)
Lemma vector_operations_dimension_contract_witness :
  add [1; 2; 3]%float [4; 5]%float = Throw (ErrorObj (VectorLengthMismatch 3 2))
  ∧ dot [1; 2; 3]%float [4; 5; 6]%float = Ok 32%float.
Proof.
  pose proof (vector_operations_dimension_contract float float_Number
                [1; 2; 3]%float [4; 5]%float 0%float) as (Hne & _).
  pose proof (vector_operations_dimension_contract float float_Number
                [1; 2; 3]%float [4; 5; 6]%float 0%float) as (_ & Heq & _).
  split.
  - apply Hne. simpl. lia.
  - destruct (Heq eq_refl) as (_ & _ & Hdot). rewrite Hdot. reflexivity.
Defined.

(** C10.  [magnitude v] is the square root of [dot v v]: the two reductions
    run over the same sum of squares, and agree after every prefix of [v];
    over the reals the square of [magnitude v] is [dot v v] exactly. *)
Theorem magnitude_is_root_of_dot_self :
  (∀ (A : Type) (N : Number A) (v : list A),
     (∃ s, dot v v = Ok s ∧ magnitude v = root s)
     ∧ ∀ n, dot (take n v) (take n v)
            = Ok (foldl (λ sum val, plus sum (times val val)) num0 (take n v)))
  ∧ ∀ v : list R, dot v v = Ok (magnitude v * magnitude v)%R.
Proof.
  assert (Hdot : ∀ (A : Type) (N : Number A) (v : list A),
            dot v v = Ok (foldl (λ sum val, plus sum (times val val)) num0 v)).
  { intros A N v. unfold dot. rewrite lengths_agree by done.
    f_equal. apply dot_self_fold. }
  split.
  - intros A N v. split.
    + eexists. split; [apply Hdot|done].
    + intros n. apply Hdot.
  - intros v. rewrite Hdot. f_equal. unfold magnitude. simpl.
    symmetry. apply sqrt_sqrt. apply (sum_of_squares_nonneg v 0%R). lra.
Qed.

(** ** The RK4 stepper *)

Section StepperFacts.
Context {A : Type} `{Number A}.

(** Element-wise sum of two vectors, the value [add] returns. *)
Definition vplus (a b : list A) : list A := zip_with plus a b.

Lemma length_vplus (a b : list A) :
  length a = length b → length (vplus a b) = length a.
Proof. apply length_sum. Qed.

Lemma add_vplus (a b : list A) : length a = length b → add a b = Ok (vplus a b).
Proof. apply add_ok. Qed.

Lemma lookup_vplus (a b : list A) (i : nat) (x y : A) :
  a !! i = Some x → b !! i = Some y → vplus a b !! i = Some (plus x y).
Proof. intros Ha Hb. unfold vplus. by rewrite lookup_zip_with, Ha, Hb. Qed.

Lemma lookup_scale (v : list A) (k : A) (i : nat) (x : A) :
  v !! i = Some x → scale v k !! i = Some (times x k).
Proof. intros Hv. unfold scale. by rewrite list_lookup_fmap, Hv. Qed.

(** The stepper on a derivative function whose four values are as long as
    the state: the seven calls of [add] all pass their guard. *)
Lemma rk4Step_stages (f : list A → gmap string A → result (list A))
    (state : list A) (params : gmap string A) (dt : A) (k1 k2 k3 k4 : list A) :
  f state params = Ok k1 →
  f (vplus state (scale k1 (divide dt num2))) params = Ok k2 →
  f (vplus state (scale k2 (divide dt num2))) params = Ok k3 →
  f (vplus state (scale k3 dt)) params = Ok k4 →
  length k1 = length state → length k2 = length state →
  length k3 = length state → length k4 = length state →
  rk4Step f state params dt
  = Ok (vplus state
          (scale (vplus (vplus k1 (scale k2 num2)) (vplus (scale k3 num2) k4))
                 (divide dt num6))).
Proof.
  intros H1 H2 H3 H4 L1 L2 L3 L4. unfold rk4Step.
  assert (length (vplus k1 (scale k2 num2)) = length state) as Lleft
    by (rewrite length_vplus; rewrite ?length_scale; congruence).
  assert (length (vplus (scale k3 num2) k4) = length state) as Lright
    by (rewrite length_vplus; rewrite ?length_scale; congruence).
  assert (length (vplus (vplus k1 (scale k2 num2)) (vplus (scale k3 num2) k4))
          = length state) as Lsum
    by (rewrite length_vplus; congruence).
  rewrite H1. cbn [mbind result_bind].
  rewrite (add_vplus state (scale k1 _)) by (rewrite length_scale; congruence).
  cbn [mbind result_bind]. rewrite H2. cbn [mbind result_bind].
  rewrite (add_vplus state (scale k2 _)) by (rewrite length_scale; congruence).
  cbn [mbind result_bind]. rewrite H3. cbn [mbind result_bind].
  rewrite (add_vplus state (scale k3 _)) by (rewrite length_scale; congruence).
  cbn [mbind result_bind]. rewrite H4. cbn [mbind result_bind].
  rewrite (add_vplus k1 (scale k2 _)) by (rewrite length_scale; congruence).
  cbn [mbind result_bind].
  rewrite (add_vplus (scale k3 _) k4) by (rewrite length_scale; congruence).
  cbn [mbind result_bind].
  rewrite (add_vplus (vplus _ _) (vplus _ _)) by congruence.
  cbn [mbind result_bind].
  rewrite add_vplus; [done|]. rewrite length_scale. congruence.
Qed.
End StepperFacts.

(** C4.  Whatever the derivative function [f], the state, the parameters
    and [dt]: when the four values [k1 = f state], [k2 = f (state + (dt/2) k1)],
    [k3 = f (state + (dt/2) k2)] and [k4 = f (state + dt k3)] are vectors
    as long as the state, one call of [rk4Step] returns, without any
    check of the result, the vector [state + (dt/6) (k1 + 2 k2 + 2 k3 + k4)],
    as long as the state.  In the arithmetic of the program every
    operation rounds, and element [i] is computed as
    [x + ((a + b*2) + (c*2 + d)) * (dt/6)]; over the reals this is the
    formula as written. *)
Theorem rk4Step_formula :
  (∀ (A : Type) (N : Number A) (f : list A → gmap string A → result (list A))
     (state : list A) (params : gmap string A) (dt : A) (k1 k2 k3 k4 : list A),
     f state params = Ok k1 →
     f (vplus state (scale k1 (divide dt num2))) params = Ok k2 →
     f (vplus state (scale k2 (divide dt num2))) params = Ok k3 →
     f (vplus state (scale k3 dt)) params = Ok k4 →
     length k1 = length state → length k2 = length state →
     length k3 = length state → length k4 = length state →
     ∃ next,
       rk4Step f state params dt = Ok next
       ∧ next = vplus state
                  (scale (vplus (vplus k1 (scale k2 num2)) (vplus (scale k3 num2) k4))
                         (divide dt num6))
       ∧ length next = length state
       ∧ ∀ i x a b c d,
           state !! i = Some x → k1 !! i = Some a → k2 !! i = Some b →
           k3 !! i = Some c → k4 !! i = Some d →
           next !! i
           = Some (plus x (times (plus (plus a (times b num2))
                                       (plus (times c num2) d))
                                 (divide dt num6))))
  ∧ (∀ (f : list R → gmap string R → result (list R))
       (state : list R) (params : gmap string R) (dt : R) (k1 k2 k3 k4 : list R),
       f state params = Ok k1 →
       f (vplus state (scale k1 (dt / 2)%R)) params = Ok k2 →
       f (vplus state (scale k2 (dt / 2)%R)) params = Ok k3 →
       f (vplus state (scale k3 dt)) params = Ok k4 →
       length k1 = length state → length k2 = length state →
       length k3 = length state → length k4 = length state →
       ∃ next,
         rk4Step f state params dt = Ok next
         ∧ ∀ i x a b c d,
             state !! i = Some x → k1 !! i = Some a → k2 !! i = Some b →
             k3 !! i = Some c → k4 !! i = Some d →
             next !! i = Some (x + dt / 6 * (a + 2 * b + 2 * c + d))%R).
Proof.
  assert (Hgen : ∀ (A : Type) (N : Number A)
     (f : list A → gmap string A → result (list A))
     (state : list A) (params : gmap string A) (dt : A) (k1 k2 k3 k4 : list A),
     f state params = Ok k1 →
     f (vplus state (scale k1 (divide dt num2))) params = Ok k2 →
     f (vplus state (scale k2 (divide dt num2))) params = Ok k3 →
     f (vplus state (scale k3 dt)) params = Ok k4 →
     length k1 = length state → length k2 = length state →
     length k3 = length state → length k4 = length state →
     ∃ next,
       rk4Step f state params dt = Ok next
       ∧ next = vplus state
                  (scale (vplus (vplus k1 (scale k2 num2)) (vplus (scale k3 num2) k4))
                         (divide dt num6))
       ∧ length next = length state
       ∧ ∀ i x a b c d,
           state !! i = Some x → k1 !! i = Some a → k2 !! i = Some b →
           k3 !! i = Some c → k4 !! i = Some d →
           next !! i
           = Some (plus x (times (plus (plus a (times b num2))
                                       (plus (times c num2) d))
                                 (divide dt num6)))).
  { intros A N f state params dt k1 k2 k3 k4 H1 H2 H3 H4 L1 L2 L3 L4.
    eexists. split; [by apply rk4Step_stages|]. split; [done|]. split.
    - assert (length (vplus k1 (scale k2 num2)) = length state) as Lleft
        by (rewrite length_vplus; rewrite ?length_scale; congruence).
      assert (length (vplus (scale k3 num2) k4) = length state) as Lright
        by (rewrite length_vplus; rewrite ?length_scale; congruence).
      rewrite length_vplus; [done|].
      rewrite length_scale, length_vplus; congruence.
    - intros i x a b c d Hx Ha Hb Hc Hd.
      apply lookup_vplus; [done|]. apply lookup_scale.
      apply lookup_vplus; apply lookup_vplus; try done; by apply lookup_scale. }
  split; [exact Hgen|].
  intros f state params dt k1 k2 k3 k4 H1 H2 H3 H4 L1 L2 L3 L4.
  destruct (Hgen R R_Number f state params dt k1 k2 k3 k4 H1 H2 H3 H4 L1 L2 L3 L4)
    as (next & Hstep & _ & _ & Hnext).
  exists next. split; [exact Hstep|].
  intros i x a b c d Hx Ha Hb Hc Hd.
  rewrite (Hnext i x a b c d Hx Ha Hb Hc Hd). f_equal. simpl. lra.
Qed.

(** C4 on the Lorenz equations at a state whose derivatives overflow: the
    stepper returns the vector of the formula as it is, with its elements
    that are not finite. *)
Lemma rk4Step_formula_witness :
  ∃ next,
    rk4Step lorenzSystem.(equations) [0x1p1000; 0x1p1000; 0x1p1000]%float
      (defaultParameters lorenzSystem) 1%float = Ok next
    ∧ length next = 3%nat
    ∧ hasInvalidValues next = true.
Proof.
  edestruct (proj1 rk4Step_formula float float_Number lorenzSystem.(equations)
               [0x1p1000; 0x1p1000; 0x1p1000]%float
               (defaultParameters lorenzSystem) 1%float)
    as (next & Hstep & Hnext & Hlen & _);
    [vm_compute; reflexivity..|].
  exists next. split; [exact Hstep|]. split; [exact Hlen|].
  rewrite Hnext. vm_compute. reflexivity.
Defined.

(** ** The integration loop *)

Section LoopFacts.
Variable system : ODESystem.
Variable config : SolverConfig.
Variable maxSteps : float.

(** [steps n v v']: from the loop variables [v], [n] iterations run to the
    end of their body (condition true, nothing thrown) and leave [v']. *)
Inductive steps : nat → Vars → Vars → Prop :=
  | steps_O v : steps 0 v v
  | steps_S n v v' v'' :
      loopCondition config maxSteps v = true →
      loopBody system config v = Ok v' →
      steps n v' v'' →
      steps (S n) v v''.

Lemma steps_snoc n v v' v'' :
  steps n v v' →
  loopCondition config maxSteps v' = true →
  loopBody system config v' = Ok v'' →
  steps (S n) v v''.
Proof.
  induction 1 as [v|n v w v' Hc Hb _ IH]; intros Hc' Hb'.
  - eapply steps_S; [done..|constructor].
  - eapply steps_S; [done..|]. by apply IH.
Qed.

Lemma steps_functional n v v1 v2 : steps n v v1 → steps n v v2 → v1 = v2.
Proof.
  induction 1 as [v|n v w v1 Hc Hb _ IH]; inversion 1; subst; [done|].
  apply IH. congruence.
Qed.

(** Running the loop through [n] completed iterations. *)
Lemma while_steps n v v' fuel :
  steps n v v' →
  while system config maxSteps (n + fuel) v = while system config maxSteps fuel v'.
Proof.
  induction 1 as [v|n v w v' Hc Hb _ IH]; [done|].
  simpl. rewrite Hc, Hb. apply IH.
Qed.

(** More fuel does not change a finished run. *)
Lemma while_more_fuel fuel v r :
  while system config maxSteps fuel v = Some r →
  ∀ fuel', fuel ≤ fuel' → while system config maxSteps fuel' v = Some r.
Proof.
  revert v. induction fuel as [|fuel IH]; intros v Hrun fuel' Hle.
  - simpl in Hrun. destruct fuel'; simpl;
      destruct (loopCondition config maxSteps v); done.
  - destruct fuel' as [|fuel']; [lia|].
    simpl in *. destruct (loopCondition config maxSteps v); [|done].
    destruct (loopBody system config v) as [v'|e]; [|done].
    apply IH; [done|lia].
Qed.

(** A run that leaves the loop normally completed some number of
    iterations and stopped on a false condition. *)
Lemma while_returns fuel v v' :
  while system config maxSteps fuel v = Some (Ok v') →
  ∃ n, n ≤ fuel ∧ steps n v v' ∧ loopCondition config maxSteps v' = false.
Proof.
  revert v. induction fuel as [|fuel IH]; intros v Hrun; simpl in Hrun.
  - destruct (loopCondition config maxSteps v) eqn:Hc; [done|].
    injection Hrun as <-. exists 0%nat. split; [lia|]. split; [constructor|done].
  - destruct (loopCondition config maxSteps v) eqn:Hc.
    + destruct (loopBody system config v) as [w|e] eqn:Hb; [|done].
      destruct (IH w Hrun) as (n & Hn & Hsteps & Hexit).
      exists (S n). split; [lia|]. split; [|done]. by eapply steps_S.
    + injection Hrun as <-. exists 0%nat. split; [lia|]. split; [constructor|done].
Qed.

(** A run that ends in a [throw] completed some iterations and threw in the
    body of the next one. *)
Lemma while_throws fuel v e :
  while system config maxSteps fuel v = Some (Throw e) →
  ∃ n w, n < fuel ∧ steps n v w
         ∧ loopCondition config maxSteps w = true
         ∧ loopBody system config w = Throw e.
Proof.
  revert v. induction fuel as [|fuel IH]; intros v Hrun; simpl in Hrun.
  - destruct (loopCondition config maxSteps v); done.
  - destruct (loopCondition config maxSteps v) eqn:Hc; [|done].
    destruct (loopBody system config v) as [w|e'] eqn:Hb.
    + destruct (IH w Hrun) as (n & u & Hn & Hsteps & Hcu & Hbu).
      exists (S n), u. split; [lia|]. split; [by eapply steps_S|done].
    + injection Hrun as <-. exists 0%nat, v. split; [lia|].
      split; [constructor|done].
Qed.

(** What one completed iteration does to the loop variables. *)
Lemma loopBody_ok v v' :
  loopBody system config v = Ok v' →
  rk4Step system.(equations) v.(state) config.(cfg_parameters) config.(dt)
    = Ok v'.(state)
  ∧ hasInvalidValues v'.(state) = false
  ∧ v'.(t) = (v.(t) + config.(dt))%float
  ∧ v'.(stepCount) = (v.(stepCount) + 1)%float
  ∧ v'.(pts) = v.(pts) ++ [{| pt_t := v'.(t); pt_state := v'.(state) |}].
Proof.
  unfold loopBody.
  destruct (rk4Step _ _ _ _) as [s|[m|x]]; [|done..].
  destruct (hasInvalidValues s) eqn:Hs; [done|].
  intros [= <-]. simpl. done.
Qed.

(** The times, the counter and the stored points after [n] iterations. *)
Lemma steps_vars n v v' :
  steps n v v' →
  v'.(t) = Nat.iter n (λ x, (x + config.(dt))%float) v.(t)
  ∧ v'.(stepCount) = Nat.iter n (λ c, (c + 1)%float) v.(stepCount)
  ∧ length v'.(pts) = (length v.(pts) + n)%nat
  ∧ ∀ i, (i < length v.(pts))%nat → v'.(pts) !! i = v.(pts) !! i.
Proof.
  induction 1 as [v|n v w v' Hc Hb _ IH]; [done|].
  destruct (loopBody_ok _ _ Hb) as (_ & _ & Ht & Hcnt & Hpts).
  destruct IH as (IHt & IHc & IHl & IHp).
  rewrite IHt, IHc, IHl, Ht, Hcnt.
  split; [symmetry; apply (Nat.iter_succ_r n (λ x, (x + config.(dt))%float))|].
  split; [symmetry; apply (Nat.iter_succ_r n (λ c, (c + 1)%float))|].
  split; [rewrite Hpts, length_app; simpl; lia|].
  intros i Hi. rewrite IHp by (rewrite Hpts, length_app; lia).
  rewrite Hpts. by apply lookup_app_l.
Qed.
End LoopFacts.

(** * Binary64 arithmetic

    Facts about the comparisons and the addition of primitive floats, read
    off their specification ([FloatAxioms] over [SpecFloat]). *)

Section Binary64.
Local Open Scope Z_scope.

(** ** Comparisons *)

Lemma SFcompare_antisym x y :
  SFcompare y x = option_map CompOpp (SFcompare x y).
Proof.
  destruct x as [[]| []| |[] mx ex], y as [[]| []| |[] my ey]; simpl; try reflexivity.
  all: rewrite (Z.compare_antisym ey ex); destruct (ey ?= ex)%Z; simpl; try reflexivity.
  all: change (Pos.compare_cont Eq) with Pos.compare.
  all: rewrite (Pos.compare_antisym my mx); by rewrite ?CompOpp_involutive.
Qed.

Lemma SFcompare_refl x : x ≠ S754_nan → SFcompare x x = Some Eq.
Proof.
  destruct x as [[]| []| |[] mx ex]; simpl; try done; intros _.
  all: rewrite Z.compare_refl; change (Pos.compare_cont Eq) with Pos.compare;
    by rewrite Pos.compare_refl.
Qed.

Lemma is_nan_spec x : is_nan x = true ↔ Prim2SF x = S754_nan.
Proof.
  unfold is_nan. rewrite FloatAxioms.eqb_spec. unfold SFeqb.
  destruct (Prim2SF x) eqn:E. 
  all: try (rewrite SFcompare_refl by done; simpl; split; done).
  simpl. done.
Qed.

Lemma is_nan_false x : is_nan x = false ↔ Prim2SF x ≠ S754_nan.
Proof. rewrite <- is_nan_spec. destruct (is_nan x); split; congruence. Qed.

Lemma SFcompare_defined x y :
  x ≠ S754_nan → y ≠ S754_nan → ∃ c, SFcompare x y = Some c.
Proof.
  destruct x as [[]| []| |[] mx ex], y as [[]| []| |[] my ey]; simpl; try done; eauto.
Qed.

Lemma leb_negb_ltb x y :
  is_nan x = false → is_nan y = false → (x <=? y)%float = negb (y <? x)%float.
Proof.
  rewrite !is_nan_false, FloatAxioms.leb_spec, FloatAxioms.ltb_spec. intros Hx Hy.
  unfold SFleb, SFltb. rewrite (SFcompare_antisym (Prim2SF x) (Prim2SF y)).
  destruct (SFcompare_defined _ _ Hx Hy) as [c ->]. by destruct c.
Qed.

Lemma ltb_not_nan x y : (x <? y)%float = true → is_nan x = false ∧ is_nan y = false.
Proof.
  rewrite !is_nan_false, FloatAxioms.ltb_spec. unfold SFltb.
  destruct (Prim2SF x) as [[]| []| |[] mx ex], (Prim2SF y) as [[]| []| |[] my ey]; simpl; done.
Qed.

Lemma is_finite_spec x :
  is_finite x = true ↔ ∃ s, Prim2SF x = S754_zero s ∨ ∃ m e, Prim2SF x = S754_finite s m e.
Proof.
  unfold is_finite, is_infinity. 
  destruct (is_nan x) eqn:Hn.
  - apply is_nan_spec in Hn. rewrite Hn. simpl. split; [done|]. intros (s & [?|(?&?&?)]); done.
  - apply is_nan_false in Hn. rewrite FloatAxioms.eqb_spec, FloatAxioms.abs_spec. simpl. 
    destruct (Prim2SF x) as [[]| []| |[] mx ex]; simpl; try done; split; try done; eauto.
    all: intros (s & [?|(?&?&?)]); done.
Qed.

(** ** Digits, shifts and rounding *)

Lemma digits2_pos_log2 p : Z.pos (digits2_pos p) = Z.log2 (Z.pos p) + 1.
Proof.
  induction p as [p IH|p IH|]; simpl; [| |done].
  - rewrite Pos2Z.inj_succ, IH. destruct p; simpl; lia.
  - rewrite Pos2Z.inj_succ, IH. destruct p; simpl; lia.
Qed.

(** [2^(d-1) ≤ m < 2^d] for [d] the number of binary digits of [m]. *)
Lemma digits2_pos_bounds p :
  2 ^ (Z.pos (digits2_pos p) - 1) <= Z.pos p < 2 ^ Z.pos (digits2_pos p).
Proof.
  rewrite digits2_pos_log2.
  replace (Z.log2 (Z.pos p) + 1 - 1) with (Z.log2 (Z.pos p)) by lia.
  replace (Z.log2 (Z.pos p) + 1) with (Z.succ (Z.log2 (Z.pos p))) by lia.
  apply Z.log2_spec. lia.
Qed.

Lemma digits2_pos_mono p q :
  Z.pos p <= Z.pos q → Z.pos (digits2_pos p) <= Z.pos (digits2_pos q).
Proof.
  intros Hle. rewrite !digits2_pos_log2.
  pose proof (Z.log2_le_mono _ _ Hle). lia.
Qed.

Lemma digits2_pos_mul_pow2 p k :
  0 <= k → Z.pos (digits2_pos p) + k <= Z.log2 (Z.pos p * 2 ^ k) + 1.
Proof.
  intros Hk. rewrite digits2_pos_log2, Z.log2_mul_pow2 by lia. lia.
Qed.

Lemma shr_1_m mrs : 0 <= shr_m mrs → shr_m (shr_1 mrs) = shr_m mrs / 2.
Proof.
  destruct mrs as [m r s]. intros Hm.
  destruct m as [|[p|p|]|p]; cbn [shr_1 shr_m] in *; try lia.
  - reflexivity.
  - apply (Z.div_unique _ _ _ 1); lia.
  - apply (Z.div_unique _ _ _ 0); lia.
  - reflexivity.
Qed.

Lemma iter_pos_shr_m p mrs :
  0 <= shr_m mrs →
  shr_m (SpecFloat.iter_pos shr_1 p mrs) = shr_m mrs / 2 ^ Z.pos p.
Proof.
  revert mrs. induction p as [p IH|p IH|]; intros mrs Hm.
  - change (SpecFloat.iter_pos shr_1 p~1 mrs)
      with (SpecFloat.iter_pos shr_1 p (SpecFloat.iter_pos shr_1 p (shr_1 mrs))).
    assert (Hpow : 2 ^ Z.pos p~1 = 2 * 2 ^ Z.pos p * 2 ^ Z.pos p).
    { rewrite <- Z.mul_assoc, <- Z.pow_add_r, <- Z.pow_succ_r by lia. f_equal. lia. }
    assert (Hp : 0 < 2 ^ Z.pos p) by (apply Z.pow_pos_nonneg; lia).
    assert (H1 : 0 <= shr_m (shr_1 mrs)).
    { rewrite shr_1_m by done. apply Z.div_pos; lia. }
    assert (H2 : 0 <= shr_m (SpecFloat.iter_pos shr_1 p (shr_1 mrs))).
    { rewrite IH by done. apply Z.div_pos; lia. }
    rewrite IH by done. rewrite IH by done. rewrite shr_1_m by done. rewrite Hpow.
    rewrite !Z.div_div by lia. f_equal; lia.
  - change (SpecFloat.iter_pos shr_1 p~0 mrs)
      with (SpecFloat.iter_pos shr_1 p (SpecFloat.iter_pos shr_1 p mrs)).
    assert (Hpow : 2 ^ Z.pos p~0 = 2 ^ Z.pos p * 2 ^ Z.pos p).
    { rewrite <- Z.pow_add_r by lia. f_equal. lia. }
    assert (Hp : 0 < 2 ^ Z.pos p) by (apply Z.pow_pos_nonneg; lia).
    assert (H2 : 0 <= shr_m (SpecFloat.iter_pos shr_1 p mrs)).
    { rewrite IH by done. apply Z.div_pos; lia. }
    rewrite IH by done. rewrite IH by done. rewrite Hpow.
    rewrite !Z.div_div by lia. f_equal; lia.
  - by apply shr_1_m.
Qed.

Lemma iter_xO_value m d : Z.pos (Pos.iter xO m d) = Z.pos m * 2 ^ Z.pos d.
Proof.
  induction d as [|d IH] using Pos.peano_ind.
  - simpl. lia.
  - rewrite Pos.iter_succ, Pos2Z.inj_xO, IH, Pos2Z.inj_succ, Z.pow_succ_r by lia. lia.
Qed.

(** The mantissa [shl_align] produces when aligning to a smaller exponent. *)
Lemma shl_align_value m e e' :
  e' <= e → Z.pos (fst (shl_align m e e')) = Z.pos m * 2 ^ (e - e').
Proof.
  intros Hle. unfold shl_align.
  destruct (e' - e) as [|d|d] eqn:Hd; cbn [fst].
  - replace (e - e') with 0 by lia. lia.
  - pose proof (Pos2Z.is_pos d). lia.
  - rewrite iter_xO_value. f_equal. f_equal. lia.
Qed.

Lemma round_nearest_even_bounds m l :
  m <= round_nearest_even m l <= m + 1.
Proof. destruct l as [|[]]; simpl; try lia. destruct (Z.even m); lia. Qed.

Lemma fexp64 e : fexp prec emax e = Z.max (e - 53) (-1074).
Proof. reflexivity. Qed.

Lemma shr_m_of_loc m l : shr_m (shr_record_of_loc m l) = m.
Proof. by destruct l as [|[]]. Qed.

Lemma divide_split a b m :
  0 < a → 0 < b → (a * b | m) → (a | m) ∧ (b | m / a).
Proof.
  intros Ha Hb [c Hc]. split.
  - exists (c * b). lia.
  - exists c. subst m. replace (c * (a * b)) with (c * b * a) by lia.
    rewrite Z.div_mul by lia. done.
Qed.

Lemma shr_1_exact m :
  0 <= m → (2 | m) →
  shr_1 {| shr_m := m; shr_r := false; shr_s := false |}
  = {| shr_m := m / 2; shr_r := false; shr_s := false |}.
Proof.
  intros Hm [c Hc]. destruct m as [|[p|p|]|p]; cbn [shr_1 orb]; try lia; f_equal.
  - apply (Z.div_unique _ _ _ 0); lia.
Qed.

(** Shifting out [p] zero bits loses nothing: the round and sticky bits
    stay clear. *)
Lemma iter_pos_shr_exact p m :
  0 <= m → (2 ^ Z.pos p | m) →
  SpecFloat.iter_pos shr_1 p {| shr_m := m; shr_r := false; shr_s := false |}
  = {| shr_m := m / 2 ^ Z.pos p; shr_r := false; shr_s := false |}.
Proof.
  revert m. induction p as [p IH|p IH|]; intros m Hm Hdiv.
  - change (SpecFloat.iter_pos shr_1 p~1 ?x)
      with (SpecFloat.iter_pos shr_1 p (SpecFloat.iter_pos shr_1 p (shr_1 x))).
    assert (Hp : 0 < 2 ^ Z.pos p) by (apply Z.pow_pos_nonneg; lia).
    assert (Hpow : 2 ^ Z.pos p~1 = 2 * (2 ^ Z.pos p * 2 ^ Z.pos p)).
    { rewrite <- Z.pow_add_r, <- Z.pow_succ_r by lia. f_equal. lia. }
    rewrite Hpow in *.
    assert (Hpp : 0 < 2 ^ Z.pos p * 2 ^ Z.pos p) by (by apply Z.mul_pos_pos).
    destruct (divide_split 2 _ _ ltac:(lia) Hpp Hdiv) as [H2 Hrest].
    destruct (divide_split _ _ _ Hp Hp Hrest) as [H3 H4].
    assert (H5 : 0 <= m / 2) by (apply Z.div_pos; lia).
    assert (H6 : 0 <= m / 2 / 2 ^ Z.pos p) by (apply Z.div_pos; lia).
    rewrite shr_1_exact by done.
    rewrite (IH _ H5 H3), (IH _ H6 H4).
    f_equal. rewrite !Z.div_div by lia. done.
  - change (SpecFloat.iter_pos shr_1 p~0 ?x)
      with (SpecFloat.iter_pos shr_1 p (SpecFloat.iter_pos shr_1 p x)).
    assert (Hp : 0 < 2 ^ Z.pos p) by (apply Z.pow_pos_nonneg; lia).
    assert (Hpow : 2 ^ Z.pos p~0 = 2 ^ Z.pos p * 2 ^ Z.pos p).
    { rewrite <- Z.pow_add_r by lia. f_equal. lia. }
    rewrite Hpow in *.
    destruct (divide_split _ _ _ Hp Hp Hdiv) as [H3 H4].
    assert (H6 : 0 <= m / 2 ^ Z.pos p) by (apply Z.div_pos; lia).
    rewrite (IH _ Hm H3), (IH _ H6 H4).
    f_equal. rewrite !Z.div_div by lia. done.
  - by apply shr_1_exact.
Qed.

(** [shr_fexp] on a mantissa that is not negative: the exponent moves up by
    [n] to the target exponent (when that is larger), the mantissa is
    divided by [2^n], and an exact division leaves an exact location. *)
Lemma shr_fexp_spec m e :
  0 <= m →
  let n := Z.max (fexp prec emax (Zdigits2 m + e) - e) 0 in
  ∃ mrs, shr_fexp prec emax m e loc_Exact = (mrs, e + n)
         ∧ shr_m mrs = m / 2 ^ n
         ∧ ((2 ^ n | m) → loc_of_shr_record mrs = loc_Exact).
Proof.
  intros Hm n. unfold shr_fexp, shr. subst n. cbn [shr_record_of_loc].
  destruct (fexp prec emax (Zdigits2 m + e) - e) as [|p|p] eqn:Hn.
  - eexists. split; [by rewrite Z.add_0_r|]. cbn [shr_m]. split; [|done].
    by rewrite Z.div_1_r.
  - eexists. split; [reflexivity|]. split.
    + by rewrite iter_pos_shr_m.
    + intros Hdiv. change (Z.max (Z.pos p) 0) with (Z.pos p) in Hdiv.
      by rewrite iter_pos_shr_exact.
  - eexists. split; [by rewrite Z.add_0_r|]. cbn [shr_m]. split; [|done].
    by rewrite Z.div_1_r.
Qed.

Lemma div_pow2_ge_1 q k :
  0 <= k → k <= Z.pos (digits2_pos q) - 1 → 1 <= Z.pos q / 2 ^ k.
Proof.
  intros Hk Hkd. pose proof (digits2_pos_bounds q) as [Hlo _].
  assert (2 ^ k <= 2 ^ (Z.pos (digits2_pos q) - 1)) by (apply Z.pow_le_mono_r; lia).
  apply Z.div_le_lower_bound; [apply Z.pow_pos_nonneg; lia|lia].
Qed.

(** Rounding a positive mantissa [M] at exponent [ez] to binary64: the
    mantissa is first cut to [m1 = M / 2^n1], then rounded to [m2], which is
    [m1] or its successor (and [m1] when the cut was exact), then cut once
    more when the rounding carried into a 54th digit. *)
Lemma binary_round_aux_positive (M : positive) (ez : Z) :
  let n1 := Z.max (fexp prec emax (Z.pos (digits2_pos M) + ez) - ez) 0 in
  let m1 := Z.pos M / 2 ^ n1 in
  1 <= m1 →
  ∃ m2 : positive,
    m1 <= Z.pos m2 <= m1 + 1
    ∧ ((2 ^ n1 | Z.pos M) → Z.pos m2 = m1)
    ∧ let n2 := Z.max (fexp prec emax (Z.pos (digits2_pos m2) + (ez + n1))
                       - (ez + n1)) 0 in
      ∃ m3 : positive,
        Z.pos m3 = Z.pos m2 / 2 ^ n2
        ∧ binary_round_aux prec emax false (Z.pos M) ez loc_Exact
          = if ez + n1 + n2 <=? emax - prec
            then S754_finite false m3 (ez + n1 + n2)
            else S754_infinity false.
Proof.
  intros n1 m1 Hm1. unfold binary_round_aux.
  assert (Hn1 : -1074 <= ez + n1) by (subst n1; rewrite fexp64; lia).
  pose proof (shr_fexp_spec (Z.pos M) ez ltac:(lia)) as (mrs1 & -> & Hs1 & Hexact).
  cbv zeta in Hs1, Hexact.
  change (Zdigits2 (Z.pos M)) with (Z.pos (digits2_pos M)) in *.
  fold n1 in Hs1, Hexact |- *. fold m1 in Hs1.
  pose proof (round_nearest_even_bounds (shr_m mrs1) (loc_of_shr_record mrs1)) as Hr.
  remember (round_nearest_even (shr_m mrs1) (loc_of_shr_record mrs1)) as r eqn:Hm2.
  rewrite Hs1 in Hr. symmetry in Hm2.
  destruct r as [|m2|m2]; [lia| |lia].
  exists m2. split; [done|]. split.
  { intros Hdiv. rewrite <- Hm2, Hexact by done. simpl. done. }
  set (n2 := Z.max (fexp prec emax (Z.pos (digits2_pos m2) + (ez + n1))
                    - (ez + n1)) 0).
  pose proof (shr_fexp_spec (Z.pos m2) (ez + n1) ltac:(lia)) as (mrs2 & -> & Hs2 & _).
  cbv zeta in Hs2.
  change (Zdigits2 (Z.pos m2)) with (Z.pos (digits2_pos m2)) in *.
  fold n2 in Hs2 |- *.
  assert (1 <= shr_m mrs2).
  { rewrite Hs2. subst n2. rewrite fexp64. apply div_pow2_ge_1; lia. }
  destruct (shr_m mrs2) as [|m3|m3] eqn:Hm3; [lia| |lia].
  exists m3. done.
Qed.

Lemma shl_align_noop p e e' : e <= e' → shl_align p e e' = (p, e).
Proof.
  intros Hle. unfold shl_align.
  destruct (e' - e) as [|d|d] eqn:Hd; try done.
  pose proof (Pos2Z.neg_is_neg d). lia.
Qed.

Lemma fexp_lower (M : positive) (ez : Z) (mx : positive) (ex : Z) :
  ez <= ex →
  Z.pos mx * 2 ^ (ex - ez) <= Z.pos M →
  fexp prec emax (Z.pos (digits2_pos mx) + ex) = ex →
  ex <= fexp prec emax (Z.pos (digits2_pos M) + ez).
Proof.
  intros Hez HM Hcanon. rewrite fexp64 in *.
  rewrite (digits2_pos_log2 M).
  pose proof (digits2_pos_mul_pow2 mx (ex - ez) ltac:(lia)).
  pose proof (Z.log2_le_mono _ _ HM). lia.
Qed.

(** Rounding a value that is at least the canonical float [(mx, ex)]
    gives the infinity or a float that is at least [(mx, ex)]. *)
Lemma binary_round_aux_lower (M : positive) (ez : Z) (mx : positive) (ex : Z) :
  ez <= ex →
  Z.pos mx * 2 ^ (ex - ez) <= Z.pos M →
  fexp prec emax (Z.pos (digits2_pos mx) + ex) = ex →
  binary_round_aux prec emax false (Z.pos M) ez loc_Exact = S754_infinity false
  ∨ ∃ m e, binary_round_aux prec emax false (Z.pos M) ez loc_Exact
           = S754_finite false m e
           ∧ (ex < e ∨ (e = ex ∧ Z.pos mx <= Z.pos m)).
Proof.
  intros Hez HM Hcanon.
  pose proof (fexp_lower _ _ _ _ Hez HM Hcanon) as HE.
  pose proof (binary_round_aux_positive M ez) as Hround. cbv zeta in Hround.
  set (n1 := Z.max (fexp prec emax (Z.pos (digits2_pos M) + ez) - ez) 0) in *.
  assert (Hn1 : 0 <= n1 ∧ ex <= ez + n1) by (unfold n1; lia).
  assert (Hmx : ez + n1 = ex → Z.pos mx <= Z.pos M / 2 ^ n1).
  { intros Heq. replace n1 with (ex - ez) by lia.
    etrans; [|apply Z.div_le_mono; [apply Z.pow_pos_nonneg; lia|exact HM]].
    rewrite Z.div_mul; [lia|]. apply Z.pow_nonzero; lia. }
  assert (Hm1 : 1 <= Z.pos M / 2 ^ n1).
  { destruct (Z.eq_dec (ez + n1) ex) as [Heq|Hne]; [specialize (Hmx Heq); lia|].
    apply div_pow2_ge_1; [lia|]. unfold n1 in *. rewrite fexp64 in *. lia. }
  destruct (Hround Hm1) as (m2 & Hm2 & _ & m3 & Hm3 & ->).
  set (n2 := Z.max (fexp prec emax (Z.pos (digits2_pos m2) + (ez + n1))
                    - (ez + n1)) 0) in *.
  destruct (ez + n1 + n2 <=? emax - prec); [|by left].
  right. exists m3, (ez + n1 + n2). split; [done|].
  destruct (Z_lt_dec ex (ez + n1 + n2)) as [|Hnlt]; [by left|right].
  assert (n2 = 0) as Hn2 by lia. split; [lia|].
  rewrite Hn2, Z.pow_0_r, Z.div_1_r in Hm3. specialize (Hmx ltac:(lia)). lia.
Qed.

(** ** Counting in binary64 *)

(** [int_sf k x]: the float [x] is the integer [k] (at least 1), in the
    form binary64 stores it. *)
Definition int_sf (k : Z) (x : spec_float) : Prop :=
  ∃ m e, x = S754_finite false m e
         ∧ -52 <= e ∧ Z.pos m * 2 ^ (e + 52) = k * 2 ^ 52
         ∧ Z.pos (digits2_pos m) = 53.

Definition SF64one : spec_float := S754_finite false 4503599627370496 (-52).

Lemma pow2_le_mono a b : 0 <= a <= b → 2 ^ a <= 2 ^ b.
Proof. intros. apply Z.pow_le_mono_r; lia. Qed.

Lemma pow2_pos a : 0 <= a → 0 < 2 ^ a.
Proof. intros. apply Z.pow_pos_nonneg; lia. Qed.

(** Adding one to the float of an integer below [2^53] is exact. *)
Lemma SFadd_one_exact k x :
  int_sf k x → 1 <= k < 2 ^ 53 → int_sf (k + 1) (SF64add x SF64one).
Proof.
  intros (m & e & -> & He & Hval & Hdig) Hk.
  unfold SF64add, SF64one, SFadd. cbn [cond_Zopp].
  replace (Z.min e (-52)) with (-52) by lia.
  pose proof (shl_align_value m e (-52) ltac:(lia)) as Hmx.
  replace (e - -52) with (e + 52) in Hmx by lia. rewrite Hval in Hmx.
  set (Mx := fst (shl_align m e (-52))) in *.
  change (fst (shl_align 4503599627370496 (-52) (-52))) with 4503599627370496%positive.
  change (Z.pos Mx + Z.pos 4503599627370496) with (Z.pos (Mx + 4503599627370496)).
  set (M := (Mx + 4503599627370496)%positive).
  assert (HM : Z.pos M = (k + 1) * 2 ^ 52) by (unfold M; lia).
  (* the number of digits of [k + 1] *)
  destruct (Z.log2_spec (k + 1) ltac:(lia)) as [Hlo Hhi].
  set (j := Z.log2 (k + 1)) in *.
  assert (Hj : 1 <= j <= 53).
  { split.
    - apply Z.log2_le_pow2; lia.
    - destruct (Z_le_gt_dec j 53) as [|Hgt]; [done|].
      pose proof (pow2_le_mono 54 j ltac:(lia)). lia. }
  assert (Hd : Z.pos (digits2_pos M) = j + 53).
  { rewrite digits2_pos_log2, HM, Z.log2_mul_pow2 by lia. fold j. lia. }
  unfold binary_normalize, binary_round.
  rewrite shl_align_noop by (rewrite fexp64, Hd; lia).
  pose proof (binary_round_aux_positive M (-52)) as Hround. cbv zeta in Hround.
  rewrite fexp64, Hd in Hround.
  replace (Z.max (Z.max (j + 53 + -52 - 53) (-1074) - -52) 0) with j in Hround by lia.
  assert (Hdiv : (2 ^ j | Z.pos M)).
  { rewrite HM. destruct (Z_le_gt_dec j 52) as [Hle|Hgt].
    - exists ((k + 1) * 2 ^ (52 - j)). rewrite <- Z.mul_assoc, <- Z.pow_add_r by lia.
      f_equal. f_equal. lia.
    - assert (j = 53) as -> by lia. assert (k + 1 = 2 ^ 53) as -> by lia.
      exists (2 ^ 52). lia. }
  assert (Hq : Z.pos M / 2 ^ j * 2 ^ j = Z.pos M).
  { destruct Hdiv as [c Hc]. rewrite Hc, Z.div_mul; [done|].
    pose proof (pow2_pos j). lia. }
  assert (Hm1 : 2 ^ 52 <= Z.pos M / 2 ^ j < 2 ^ 53).
  { pose proof (pow2_pos j ltac:(lia)) as Hjp. split.
    - apply Z.div_le_lower_bound; [done|]. rewrite HM.
      apply Z.mul_le_mono_nonneg_r; lia.
    - apply Z.div_lt_upper_bound; [done|]. rewrite HM.
      replace (2 ^ j * 2 ^ 53) with (2 ^ Z.succ j * 2 ^ 52).
      + apply Z.mul_lt_mono_pos_r; lia.
      + rewrite Z.pow_succ_r by lia. lia. }
  destruct (Hround ltac:(lia)) as (m2 & _ & Hexact & m3 & Hm3 & ->).
  specialize (Hexact Hdiv).
  assert (Hd2 : Z.pos (digits2_pos m2) = 53).
  { rewrite digits2_pos_log2, Hexact.
    assert (Z.log2 (Z.pos M / 2 ^ j) = 52); [|lia].
    apply Z.log2_unique; lia. }
  rewrite fexp64, Hd2 in Hm3 |- *.
  replace (Z.max (Z.max (53 + (-52 + j) - 53) (-1074) - (-52 + j)) 0) with 0
    in Hm3 |- * by lia.
  rewrite Z.pow_0_r, Z.div_1_r in Hm3.
  replace (-52 + j + 0 <=? emax - prec) with true
    by (symmetry; apply Z.leb_le; unfold emax, prec; lia).
  exists m3, (-52 + j + 0). split; [done|]. split; [lia|]. split.
  - rewrite Hm3, Hexact. replace (-52 + j + 0 + 52) with j by lia. lia.
  - assert (m3 = m2) as -> by lia. done.
Qed.

(** ** Sums of numbers that are not negative *)

(** The sign class of a sum's operands and result. *)
Definition nonneg_sf (x : spec_float) : Prop :=
  match x with
  | S754_zero _ | S754_finite false _ _ | S754_infinity false => True
  | _ => False
  end.

Lemma valid_canonical s m e :
  valid_binary (S754_finite s m e) = true →
  fexp prec emax (Z.pos (digits2_pos m) + e) = e.
Proof.
  unfold SpecFloat.valid_binary, bounded, canonical_mantissa.
  intros [H _]%andb_prop. by apply Z.eqb_eq.
Qed.

Lemma SFadd_positive_grows x my ey :
  valid_binary x = true →
  nonneg_sf x →
  let r := SF64add x (S754_finite false my ey) in
  nonneg_sf r ∧ (SFcompare x r = Some Lt ∨ r = x).
Proof.
  intros Hvalid Hx r. subst r.
  destruct x as [s|[]| |[] mx ex]; try done.
  - split; [done|]. left. done.
  - split; [done|]. right. done.
  - apply valid_canonical in Hvalid.
    unfold SF64add, SFadd. cbn [cond_Zopp].
    set (ez := Z.min ex ey).
    assert (Hez : ez <= ex) by lia.
    pose proof (shl_align_value mx ex ez Hez) as Hmx.
    set (Mx := fst (shl_align mx ex ez)) in *.
    set (My := fst (shl_align my ey ez)).
    change (Z.pos Mx + Z.pos My) with (Z.pos (Mx + My)).
    assert (HM : Z.pos mx * 2 ^ (ex - ez) <= Z.pos (Mx + My)) by lia.
    unfold binary_normalize, binary_round.
    pose proof (fexp_lower _ _ _ _ Hez HM Hvalid) as HE.
    rewrite shl_align_noop by lia.
    destruct (binary_round_aux_lower _ _ _ _ Hez HM Hvalid)
      as [->|(m & e & -> & Hme)]; [split; [exact I|left; reflexivity]|].
    split; [exact I|]; simpl.
    destruct Hme as [Hlt|[-> Hle]].
    { apply Z.compare_lt_iff in Hlt. rewrite Hlt. by left. }
    rewrite Z.compare_refl; change (Pos.compare_cont Eq) with Pos.compare.
    destruct (Pos.compare_spec mx m) as [->| |]; [by right|by left|lia].
Qed.

Lemma prim_zero : Prim2SF 0 = S754_zero false.
Proof. reflexivity. Qed.

(** A finite number that is not [<= 0] is a positive finite float. *)
Lemma positive_finite_spec x :
  is_finite x = true → (x <=? 0)%float = false →
  ∃ m e, Prim2SF x = S754_finite false m e.
Proof.
  rewrite is_finite_spec, FloatAxioms.leb_spec, prim_zero.
  intros (s & [Hx|(m & e & Hx)]); rewrite Hx; [done|].
  destruct s; [done|]. eauto.
Qed.

(** Adding a positive finite number to a number that is not negative: the
    sum is not negative, and it is either strictly larger or the very same
    number (the addend was absorbed, or the number is the infinity). *)
Lemma add_positive_grows (x d : float) :
  nonneg_sf (Prim2SF x) →
  (∃ m e, Prim2SF d = S754_finite false m e) →
  nonneg_sf (Prim2SF (x + d)%float)
  ∧ ((x <? x + d)%float = true ∨ (x + d)%float = x).
Proof.
  intros Hx (m & e & Hd).
  rewrite FloatAxioms.ltb_spec, FloatAxioms.add_spec, Hd.
  destruct (SFadd_positive_grows (Prim2SF x) m e (Prim2SF_valid x) Hx) as [Hr Hcmp].
  split; [done|]. destruct Hcmp as [Hlt|Heq].
  - left. unfold SFltb. by rewrite Hlt.
  - right. apply Prim2SF_inj. by rewrite FloatAxioms.add_spec, Hd.
Qed.
End Binary64.

(** ** A counter that is incremented by one *)

Section Counting.
Local Open Scope Z_scope.

Lemma int_sf_mantissa k m e :
  int_sf k (S754_finite false m e) →
  -52 <= e ∧ Z.pos m * 2 ^ (e + 52) = k * 2 ^ 52 ∧ 2 ^ 52 <= Z.pos m < 2 ^ 53.
Proof.
  intros (m' & e' & [= <- <-] & He & Hval & Hdig).
  pose proof (digits2_pos_bounds m) as Hb. rewrite Hdig in Hb.
  change (53 - 1) with 52 in Hb. done.
Qed.

(** An integer has one binary64 form. *)
Lemma int_sf_unique k x y : int_sf k x → int_sf k y → x = y.
Proof.
  assert (Hle : ∀ m e m' e',
            e <= e' → -52 <= e →
            Z.pos m * 2 ^ (e + 52) = Z.pos m' * 2 ^ (e' + 52) →
            2 ^ 52 <= Z.pos m' → Z.pos m < 2 ^ 53 →
            e = e' ∧ m = m').
  { intros m e m' e' He He52 Hval Hm' Hm.
    destruct (Z.eq_dec e e') as [<-|Hne].
    - split; [done|]. pose proof (pow2_pos (e + 52) ltac:(lia)).
      apply Z.mul_cancel_r in Hval; lia.
    - exfalso. replace (e' + 52) with (e' - e + (e + 52)) in Hval by lia.
      rewrite (Z.pow_add_r 2 (e' - e) (e + 52)), Z.mul_assoc in Hval by lia.
      pose proof (pow2_pos (e + 52) ltac:(lia)).
      apply Z.mul_cancel_r in Hval; [|lia].
      pose proof (pow2_le_mono 1 (e' - e) ltac:(lia)).
      change (2 ^ 1) with 2 in *. nia. }
  intros Hx Hy.
  destruct Hx as (m & e & -> & Hx), Hy as (m' & e' & -> & Hy).
  destruct (int_sf_mantissa k m e) as (He & Hval & Hm); [by exists m, e|].
  destruct (int_sf_mantissa k m' e') as (He' & Hval' & Hm'); [by exists m', e'|].
  destruct (Z_le_gt_dec e e').
  - destruct (Hle m e m' e') as [-> ->]; try lia; done.
  - destruct (Hle m' e' m e) as [-> ->]; try lia; done.
Qed.

(** [is_count n x]: the float [x] is the counter after [n] increments. *)
Definition is_count (n : Z) (x : float) : Prop :=
  (n = 0 ∧ x = 0%float) ∨ (1 <= n ∧ int_sf n (Prim2SF x)).

Lemma is_count_succ n x :
  is_count n x → 0 <= n < 2 ^ 53 → is_count (n + 1) (x + 1)%float.
Proof.
  intros [[-> ->]|[Hn Hx]] Hlt; right.
  - split; [lia|]. exists 4503599627370496%positive, (-52).
    split; [reflexivity|]. split; [lia|]. split; reflexivity.
  - split; [lia|]. rewrite FloatAxioms.add_spec.
    apply (SFadd_one_exact n); [done|lia].
Qed.

Lemma is_count_top x : is_count (2 ^ 53) x → x = 0x1p53%float.
Proof.
  intros [[Hn _]|[_ Hx]]; [lia|]. apply Prim2SF_inj.
  apply (int_sf_unique (2 ^ 53)); [done|].
  exists 4503599627370496%positive, 1.
  split; [reflexivity|]. split; [lia|]. split; reflexivity.
Qed.

(** Every value of the counter up to [2^53] is below [2^60]. *)
Lemma is_count_below n x :
  is_count n x → 0 <= n <= 2 ^ 53 → (x <? 0x1p60)%float = true.
Proof.
  intros [[-> ->]|[Hn (m & e & Hx & He & Hval & Hdig)]] Hle; [reflexivity|].
  rewrite FloatAxioms.ltb_spec, Hx.
  change (Prim2SF 0x1p60) with (S754_finite false 4503599627370496 8).
  unfold SFltb. cbn [SFcompare].
  pose proof (digits2_pos_bounds m) as Hb. rewrite Hdig in Hb.
  change (53 - 1) with 52 in Hb.
  assert (e < 8) as Hlt.
  { destruct (Z_lt_ge_dec e 8) as [|Hge]; [done|exfalso].
    pose proof (pow2_le_mono 60 (e + 52) ltac:(lia)).
    pose proof (pow2_pos (e + 52) ltac:(lia)).
    assert (2 ^ 52 * 2 ^ 60 <= Z.pos m * 2 ^ (e + 52)) by nia.
    lia. }
  apply Z.compare_lt_iff in Hlt. by rewrite Hlt.
Qed.

(** At [2^53] the increment is absorbed. *)
Lemma increment_absorbed : (0x1p53 + 1 = 0x1p53)%float.
Proof. reflexivity. Qed.
End Counting.

(** * The configuration validator *)

(** The rules of the validator's contract. *)
Inductive Rule : Type :=
  | RuleTimeStep            (* dt finite and dt > 0 *)
  | RuleHorizon             (* tMax finite and tMax > 0 *)
  | RuleStepWithinHorizon   (* dt does not exceed tMax *)
  | RuleInitialLength       (* one initial value per state variable *)
  | RuleInitialFinite       (* every initial value finite *)
  | RuleParametersPresent   (* every declared parameter has a value *)
  | RuleParameterValues.    (* every value finite and within its bounds *)

(** The rule a validation message reports. *)
Definition ruleOf (msg : Message) : option Rule :=
  match msg with
  | DtNotFinite | DtNotPositive => Some RuleTimeStep
  | DtExceedsTMax => Some RuleStepWithinHorizon
  | TMaxNotFinite | TMaxNotPositive => Some RuleHorizon
  | InitialLength _ _ => Some RuleInitialLength
  | InitialNotFinite => Some RuleInitialFinite
  | MissingParameters _ => Some RuleParametersPresent
  | ParameterNotFinite _ | ParameterOutOfRange _ _ _ _ => Some RuleParameterValues
  | _ => None
  end.

(** A value is within [lo, hi] when it is neither below [lo] nor above
    [hi]. *)
Definition withinBounds (value lo hi : float) : bool :=
  negb (value <? lo)%float && negb (hi <? value)%float.

(** The parameter object has a property of its own under [key]. *)
Definition ownProperty (parameters : gmap string float) (key : string) : bool :=
  bool_decide (is_Some (parameters !! key)).

(** Whether a configuration satisfies a rule, where [present] is the test
    for "the parameter values contain the name". *)
Definition satisfies (present : gmap string float → string → bool)
    (system : ODESystem) (config : SolverConfig) (r : Rule) : bool :=
  match r with
  | RuleTimeStep => isFinite config.(dt) && (0 <? config.(dt))%float
  | RuleHorizon => isFinite config.(tMax) && (0 <? config.(tMax))%float
  | RuleStepWithinHorizon => negb (config.(tMax) <? config.(dt))%float
  | RuleInitialLength =>
      (length config.(initialConditions) =? length system.(stateVariables))%nat
  | RuleInitialFinite => forallb isFinite config.(initialConditions)
  | RuleParametersPresent =>
      forallb (λ param, present config.(cfg_parameters) param.(p_name))
              system.(sys_parameters)
  | RuleParameterValues =>
      forallb (λ param,
                 let value := readParameter config.(cfg_parameters) param.(p_name) in
                 isFinite value && withinBounds value param.(p_min) param.(p_max))
              system.(sys_parameters)
  end.

(** The rules of the contract: the parameter values are a mapping, which
    contains the names it gives a value to. *)
Definition holds : ODESystem → SolverConfig → Rule → bool := satisfies ownProperty.

(** The rules as the validator tests them: presence is the [in]
    operator. *)
Definition checks : ODESystem → SolverConfig → Rule → bool := satisfies hasProperty.

(** The first rule of [order] that the configuration violates. *)
Definition firstViolated (order : list Rule) (system : ODESystem)
    (config : SolverConfig) : option Rule :=
  List.find (λ r, negb (holds system config r)) order.

(** The priority order of the contract. *)
Definition specOrder : list Rule :=
  [RuleTimeStep; RuleHorizon; RuleStepWithinHorizon; RuleInitialLength;
   RuleInitialFinite; RuleParametersPresent; RuleParameterValues].

(** The order in which [validateSolverConfig] runs its checks: the three
    checks on [dt] come before the checks on [tMax]. *)
Definition codeOrder : list Rule :=
  [RuleTimeStep; RuleStepWithinHorizon; RuleHorizon; RuleInitialLength;
   RuleInitialFinite; RuleParametersPresent; RuleParameterValues].

Lemma isFinite_not_nan x : isFinite x = true → is_nan x = false.
Proof.
  unfold isFinite, is_finite. destruct (is_nan x); [done|done].
Qed.

Lemma not_positive_iff x :
  isFinite x = true → (x <=? 0)%float = negb (0 <? x)%float.
Proof. intros Hx. apply leb_negb_ltb; [by apply isFinite_not_nan|reflexivity]. Qed.

Lemma existsb_not_forallb {X} (p : X → bool) (l : list X) :
  existsb (λ x, negb (p x)) l = negb (forallb p l).
Proof. induction l as [|x l IH]; simpl; [done|]. rewrite IH. by destruct (p x). Qed.

Lemma missingParams_nil system parameters :
  missingParams system parameters = []
  ↔ forallb (λ param, hasProperty parameters param.(p_name))
            system.(sys_parameters) = true.
Proof.
  unfold missingParams. induction (sys_parameters system) as [|param ps IH]; [done|].
  simpl. rewrite filter_cons.
  destruct (hasProperty parameters (p_name param)) eqn:Hv.
  - by rewrite decide_False by done.
  - by rewrite decide_True by done.
Qed.

Lemma missingParams_none system parameters :
  (0 <? length (missingParams system parameters))%nat
  = negb (forallb (λ param, hasProperty parameters param.(p_name))
                  system.(sys_parameters)).
Proof.
  destruct (forallb _ _) eqn:Hall.
  - apply missingParams_nil in Hall. by rewrite Hall.
  - destruct (missingParams system parameters) eqn:Hmiss; [|done].
    apply missingParams_nil in Hmiss. congruence.
Qed.

Lemma validateParameterValues_rule params parameters :
  validateParameterValues params parameters ≫= ruleOf
  = if forallb (λ param,
                  let value := readParameter parameters param.(p_name) in
                  isFinite value && withinBounds value param.(p_min) param.(p_max))
               params
    then None else Some RuleParameterValues.
Proof.
  induction params as [|param ps IH]; [done|]. simpl. unfold withinBounds.
  destruct (isFinite _); [|done]. simpl.
  destruct (_ <? p_min param)%float; [done|]. simpl.
  destruct (p_max param <? _)%float; [done|]. simpl. apply IH.
Qed.

(** The validator reports the first of its checks that fails, in the
    order in which it runs them. *)
Lemma validateSolverConfig_rule system config :
  validateSolverConfig config system ≫= ruleOf
  = List.find (λ r, negb (checks system config r)) codeOrder.
Proof.
  unfold validateSolverConfig, codeOrder, checks. cbn [List.find satisfies].
  destruct (isFinite (dt config)) eqn:Hdt; [|done]. cbn [negb andb].
  rewrite not_positive_iff by done.
  destruct (0 <? dt config)%float; [|done]. cbn [negb].
  destruct (tMax config <? dt config)%float; [done|]. cbn [negb].
  destruct (isFinite (tMax config)) eqn:HtMax; [|done]. cbn [negb andb].
  rewrite not_positive_iff by done.
  destruct (0 <? tMax config)%float; [|done]. cbn [negb].
  destruct (_ =? _)%nat; [|done]. cbn [negb].
  rewrite existsb_not_forallb.
  destruct (forallb isFinite _); [|done]. cbn [negb]. cbv zeta.
  rewrite missingParams_none.
  destruct (forallb _ (sys_parameters system)); [|done]. cbn [negb].
  rewrite validateParameterValues_rule. cbv zeta.
  by match goal with |- (if ?b then _ else _) = _ => destruct b end.
Qed.

Lemma validateParameterValues_message params parameters msg :
  validateParameterValues params parameters = Some msg →
  ruleOf msg = Some RuleParameterValues.
Proof.
  induction params as [|param ps IH]; [done|]. simpl.
  repeat (match goal with
          | |- context [if ?b then _ else _] => destruct b
          end; [by intros [= <-]|]).
  exact IH.
Qed.

Lemma validateSolverConfig_rule_defined system config msg :
  validateSolverConfig config system = Some msg → is_Some (ruleOf msg).
Proof.
  unfold validateSolverConfig. cbv zeta.
  repeat (match goal with
          | |- context [if ?b then _ else _] => destruct b
          end; [by intros [= <-]|]).
  intros Hmsg%validateParameterValues_message. by rewrite Hmsg.
Qed.

(** The message about missing parameters names each of them, in the
    order of their declaration. *)
Lemma missing_parameters_named system config names :
  validateSolverConfig config system = Some (MissingParameters names) →
  names = missingParams system config.(cfg_parameters) ∧ names ≠ [].
Proof.
  unfold validateSolverConfig. cbv zeta.
  repeat (match goal with
          | |- context [if negb ?b then _ else _] => destruct b
          | |- context [if (_ <=? _)%float then _ else _] => destruct (_ <=? _)%float
          | |- context [if (_ <? _)%float then _ else _] => destruct (_ <? _)%float
          | |- context [if existsb ?p ?l then _ else _] => destruct (existsb p l)
          end; cbn [negb]; try done).
  destruct (0 <? length _)%nat eqn:Hsome.
  - intros [= <-]. split; [done|]. intros Hnil. by rewrite Hnil in Hsome.
  - intros Hmsg%validateParameterValues_message. discriminate Hmsg.
Qed.

Lemma missing_beta_named :
  validateSolverConfig
    {| dt := 0.25; tMax := 1; initialConditions := [1; 1; 1]%float;
       cfg_parameters := <["sigma"%string := 10%float]> (<["rho"%string := 28%float]> ∅) |}
    lorenzSystem
  = Some (MissingParameters ["beta"%string]).
Proof. vm_compute. reflexivity. Qed.

(** A parameter the validator can read a finite value of is a property
    of the object's own. *)
Lemma finite_parameter_own parameters key :
  isFinite (readParameter parameters key) = true → ownProperty parameters key = true.
Proof.
  unfold readParameter, ownProperty.
  destruct (parameters !! key) as [value|]; [|done].
  intros _. apply bool_decide_eq_true_2. by eexists.
Qed.

Lemma ownProperty_hasProperty parameters key :
  ownProperty parameters key = true → hasProperty parameters key = true.
Proof. unfold ownProperty, hasProperty. by intros ->. Qed.

(** The two readings of "contains every declared name" accept the same
    configurations: a name that is only inherited fails the check of its
    value. *)
Lemma checks_all_iff_holds_all system config :
  (∀ r, checks system config r = true) ↔ (∀ r, holds system config r = true).
Proof.
  split; intros Hall r; destruct r;
    lazymatch goal with
    | |- _ _ _ RuleParametersPresent = true => idtac
    | |- _ _ _ ?r = true => exact (Hall r)
    end.
  - pose proof (Hall RuleParameterValues) as Hvalues.
    unfold holds, checks in *. cbn [satisfies] in *.
    apply forallb_forall. intros param Hp.
    apply finite_parameter_own.
    eapply forallb_forall in Hvalues; [|exact Hp]. cbv zeta in Hvalues.
    by apply andb_true_iff in Hvalues as [? _].
  - pose proof (Hall RuleParametersPresent) as Hpresent.
    unfold holds, checks in *. cbn [satisfies] in *.
    apply forallb_forall. intros param Hp.
    apply ownProperty_hasProperty.
    by eapply forallb_forall in Hpresent.
Qed.

(** A configuration is accepted exactly when it satisfies every rule of
    the contract. *)
Lemma validateSolverConfig_accepts system config :
  validateSolverConfig config system = None ↔ ∀ r, holds system config r = true.
Proof.
  rewrite <- checks_all_iff_holds_all.
  pose proof (validateSolverConfig_rule system config) as Hrule. split.
  - intros Hnone. rewrite Hnone in Hrule.
    change (None ≫= ruleOf) with (@None Rule) in Hrule.
    symmetry in Hrule.
    intros r. apply negb_false_iff, (find_none _ _ Hrule r).
    destruct r; simpl; tauto.
  - intros Hall.
    destruct (validateSolverConfig config system) as [msg|] eqn:Hmsg; [|done].
    destruct (validateSolverConfig_rule_defined _ _ _ Hmsg) as [r Hr].
    change (Some msg ≫= ruleOf) with (ruleOf msg) in Hrule.
    rewrite Hr in Hrule. symmetry in Hrule.
    apply find_some in Hrule as [_ Hviol]. by rewrite Hall in Hviol.
Qed.

(** Past the three checks on [dt], a finite [tMax] is positive: the check
    [tMax <= 0] that follows them cannot succeed. *)
Lemma horizon_check_unreachable (step horizon : float) :
  isFinite step = true → (step <=? 0)%float = false →
  (horizon <? step)%float = false → isFinite horizon = true →
  (horizon <=? 0)%float = false.
Proof.
  intros Hstep Hpos Hle Hhorizon. revert Hpos Hle.
  rewrite !FloatAxioms.ltb_spec, !FloatAxioms.leb_spec, prim_zero.
  unfold SFltb, SFleb.
  apply is_finite_spec in Hstep as (sd & [Hd|(md & ed & Hd)]);
    apply is_finite_spec in Hhorizon as (st & [Ht|(mt & et & Ht)]);
    rewrite Hd, Ht; destruct sd, st; simpl; done.
Qed.

(** Only -∞ is below a finite number without being finite. *)
Lemma below_finite_not_finite (x y : float) :
  (x <? y)%float = true → isFinite y = true → isFinite x = false →
  (x <=? 0)%float = true.
Proof.
  intros Hlt Hy Hx.
  assert (Prim2SF x = S754_infinity true) as Hinf.
  { destruct (Prim2SF x) as [s|s| |s m e] eqn:Hsf.
    - exfalso. assert (isFinite x = true) by (apply is_finite_spec; eauto).
      congruence.
    - destruct s; [done|]. exfalso. revert Hlt.
      rewrite FloatAxioms.ltb_spec, Hsf. unfold SFltb.
      apply is_finite_spec in Hy as (sy & [Hy|(my & ey & Hy)]);
        rewrite Hy; by destruct sy.
    - exfalso. revert Hlt. by rewrite FloatAxioms.ltb_spec, Hsf.
    - exfalso. assert (isFinite x = true) by (apply is_finite_spec; eauto).
      congruence. }
  by rewrite FloatAxioms.leb_spec, Hinf, prim_zero.
Qed.

(** With a valid [dt], a [tMax] that is zero or negative is reported as
    [dt] exceeding [tMax], where the contract's order asks for the rule
    on [tMax]. *)
Lemma nonpositive_horizon_reported_as_large_step system config :
  isFinite config.(dt) = true → (0 <? config.(dt))%float = true →
  (config.(tMax) <=? 0)%float = true →
  validateSolverConfig config system = Some DtExceedsTMax
  ∧ firstViolated specOrder system config = Some RuleHorizon.
Proof.
  intros Hfin Hpos HtMax.
  assert ((tMax config <? dt config)%float = true
          ∧ (0 <? tMax config)%float = false) as [Hlt Hnot].
  { revert Hpos HtMax.
    rewrite !FloatAxioms.ltb_spec, FloatAxioms.leb_spec, prim_zero.
    unfold SFltb, SFleb.
    destruct (Prim2SF (dt config)) as [[]|[]| |[] md ed];
      destruct (Prim2SF (tMax config)) as [[]|[]| |[] mt et]; simpl; done. }
  split.
  - unfold validateSolverConfig.
    rewrite Hfin, not_positive_iff, Hpos by done. cbn [negb]. by rewrite Hlt.
  - unfold firstViolated, specOrder, holds. cbn [List.find satisfies].
    rewrite Hfin, Hpos, Hnot. cbn [andb negb]. by rewrite andb_false_r.
Qed.

(** Where no declared parameter bears a name that plain objects inherit,
    and [tMax] is not zero or negative beside a valid [dt], the validator
    reports the first violated rule in the contract's order. *)
Lemma validator_follows_contract_elsewhere system config :
  (∀ param, param ∈ system.(sys_parameters) → param.(p_name) ∉ inheritedNames) →
  (isFinite config.(dt) = true → (0 <? config.(dt))%float = true →
   (config.(tMax) <=? 0)%float = false) →
  validateSolverConfig config system ≫= ruleOf
  = firstViolated specOrder system config.
Proof.
  intros Hnames Hhorizon. rewrite validateSolverConfig_rule.
  unfold firstViolated, specOrder, codeOrder, holds, checks.
  assert (forallb (λ param, hasProperty (cfg_parameters config) (p_name param))
                  (sys_parameters system)
          = forallb (λ param, ownProperty (cfg_parameters config) (p_name param))
                    (sys_parameters system)) as Hsame.
  { induction (sys_parameters system) as [|param ps IH]; [done|]. simpl.
    rewrite IH by (intros q Hq; apply Hnames; by right).
    f_equal. unfold hasProperty, ownProperty.
    rewrite (bool_decide_eq_false_2 (p_name param ∈ inheritedNames)).
    - by rewrite orb_false_r.
    - apply Hnames. by left. }
  cbn [List.find satisfies]. rewrite Hsame.
  destruct (isFinite (dt config)) eqn:Hdt; [|done]. cbn [negb andb].
  destruct (0 <? dt config)%float eqn:Hpos; [|done]. cbn [negb].
  specialize (Hhorizon eq_refl eq_refl).
  destruct (tMax config <? dt config)%float eqn:Hlt.
  - cbn [negb].
    destruct (isFinite (tMax config)) eqn:HtMax; [|exfalso]; cbn [negb andb].
    + rewrite not_positive_iff in Hhorizon by done.
      apply negb_false_iff in Hhorizon. by rewrite Hhorizon.
    + pose proof (below_finite_not_finite _ _ Hlt Hdt HtMax). congruence.
  - cbn [negb].
    destruct (isFinite (tMax config) && (0 <? tMax config)%float); cbn [negb]; done.
Qed.

(** A system that declares a parameter under a name every plain object
    inherits from [Object.prototype]. *)
Definition shadowingSystem : ODESystem := {|
  sys_id := "shadowing";
  sys_name := "Shadowing";
  description := "A decay whose rate is declared under an inherited name";
  stateVariables := ["x"]%string;
  sys_parameters := [
    {| p_name := "toString"; p_label := "rate"; p_min := 0; p_max := 1;
       p_step := 0.5; p_default := 0.5 |} ]%float;
  defaultInitialConditions := [1]%float;
  equations := λ state params,
    Ok [(PrimFloat.opp (readParameter params "toString") * element state 0)%float]
|}.

(** Against an empty parameter object the contract's first violated rule
    is the one on presence; the validator's [in] finds the inherited
    [toString] and reports the rule on values. *)
Lemma inherited_name_passes_presence_check :
  let config := {| dt := 1; tMax := 1; initialConditions := [1]%float;
                   cfg_parameters := ∅ |} in
  validateSolverConfig config shadowingSystem = Some (ParameterNotFinite "toString")
  ∧ firstViolated specOrder shadowingSystem config = Some RuleParametersPresent.
Proof. split; vm_compute; reflexivity. Qed.

(** C1.  The validator does not report the first violated rule in the
    contract's order (dt, tMax, dt against tMax, ...): it compares [dt]
    with [tMax] before it looks at [tMax] alone, so that for [dt = 1] and
    [tMax = 0], where the first violated rule is the one on [tMax], it
    answers that [dt] is larger than [tMax]; and its own check
    [tMax <= 0], with the message 'Maximum time tMax must be positive',
    is never the one that answers, whatever the input. *)
Theorem validator_misses_nonpositive_horizon :
  let config := {| dt := 1; tMax := 0; initialConditions := [1; 1; 1]%float;
                   cfg_parameters := defaultParameters lorenzSystem |} in
  firstViolated specOrder lorenzSystem config = Some RuleHorizon
  ∧ validateSolverConfig config lorenzSystem = Some DtExceedsTMax
  ∧ (∀ system config, validateSolverConfig config system ≠ Some TMaxNotPositive).
Proof.
  split; [vm_compute; reflexivity|]. split; [vm_compute; reflexivity|].
  intros system config. unfold validateSolverConfig. cbv zeta.
  destruct (isFinite (dt config)) eqn:Hdt; [|done]. cbn [negb].
  destruct (dt config <=? 0)%float eqn:Hpos; [done|].
  destruct (tMax config <? dt config)%float eqn:Hlt; [done|].
  destruct (isFinite (tMax config)) eqn:HtMax; [|done]. cbn [negb].
  rewrite (horizon_check_unreachable _ _ Hdt Hpos Hlt HtMax).
  repeat (match goal with
          | |- context [if ?b then _ else _] => destruct b
          end; [done|]).
  intros Hmsg%validateParameterValues_message. discriminate Hmsg.
Qed.

(** * Runs of the solver *)

(** A finished run does not depend on the fuel it was given. *)
Lemma solveODE_more_fuel fuel system config r :
  solveODE fuel system config = Some r →
  ∀ fuel', fuel ≤ fuel' → solveODE fuel' system config = Some r.
Proof.
  unfold solveODE. intros Hrun fuel' Hle.
  destruct (validateSolverConfig config system); [done|].
  destruct (hasInvalidValues _); [done|].
  destruct (while system config (maxStepsOf config) fuel (initialVars config))
    as [w|] eqn:Hw; [|done].
  by rewrite (while_more_fuel _ _ _ _ _ _ Hw fuel' Hle).
Qed.

(** [solveODESafe] reports a success exactly when [solveODE] returns. *)
Lemma solveODESafe_success fuel system config trajectory :
  solveODESafe fuel system config = Some (Ok (Success trajectory))
  ↔ solveODE fuel system config = Some (Ok trajectory).
Proof.
  unfold solveODESafe. split.
  - destruct (solveODE fuel system config) as [[tr|[msg|c [text|e]]]|];
      simpl; congruence.
  - by intros ->.
Qed.

(** A quarter-step run of the Lorenz system over one time unit. *)
Definition lorenzQuarterSteps : SolverConfig :=
  {| dt := 0.25; tMax := 1; initialConditions := [1; 1; 1]%float;
     cfg_parameters := defaultParameters lorenzSystem |}.

(** ** The step budget *)

(** The binary64 value of the literal [0.01]. *)
Definition oneHundredth : float := 0x1.47ae147ae147bp-7.

(** The run the dashboard starts with: the Lorenz system at its default
    parameters and initial conditions, [dt = 0.01], [tMax = 50]. *)
Definition dashboardLorenzConfig : SolverConfig :=
  {| dt := oneHundredth; tMax := 50;
     initialConditions := lorenzSystem.(defaultInitialConditions);
     cfg_parameters := defaultParameters lorenzSystem |}.

(** C2 (the code at a failing input).  On the dashboard's own Lorenz run
    the configuration is valid and the budget is 5001 steps; 5000 additions
    of [0.01] leave [t] just below 50, so the loop takes a 5001st step and
    ends because [t] has passed [tMax]; the counter then equals the budget
    and the run fails with the step-budget error. *)
Theorem dashboard_lorenz_run_exceeds_step_budget :
  validateSolverConfig dashboardLorenzConfig lorenzSystem = None
  ∧ maxStepsOf dashboardLorenzConfig = 5001%float
  ∧ Nat.iter 5000 (λ x, x + oneHundredth)%float 0%float = 0x1.8ffffffffff3ep+5%float
  ∧ match while lorenzSystem dashboardLorenzConfig
             (maxStepsOf dashboardLorenzConfig) 5001
             (initialVars dashboardLorenzConfig) with
    | Some (Ok v) =>
        (v.(t) <? dashboardLorenzConfig.(tMax))%float = false
        ∧ v.(stepCount) = 5001%float
        ∧ length v.(pts) = 5002%nat
        ∧ hasInvalidValues v.(state) = false
    | _ => False
    end
  ∧ solveODESafe 5001 lorenzSystem dashboardLorenzConfig
    = Some (Ok (Failure MaxStepsExceeded)).
Proof. vm_compute. repeat split; reflexivity. Qed.

(** The predator-prey system at its default parameters and initial
    conditions, with [dt = 0.1] and [tMax = 1]. *)
Definition tenthStepsConfig : SolverConfig :=
  {| dt := 0x1.999999999999ap-4; tMax := 1;
     initialConditions := lotkaVolterraSystem.(defaultInitialConditions);
     cfg_parameters := defaultParameters lotkaVolterraSystem |}.

(** The same on the smallest textbook case: ten additions of [0.1] stay
    below 1. *)
Lemma tenth_steps_run_exceeds_step_budget :
  solveODESafe 11 lotkaVolterraSystem tenthStepsConfig
  = Some (Ok (Failure MaxStepsExceeded)).
Proof. vm_compute. reflexivity. Qed.

(** ** Numerical instability *)

(** The check of the initial state that follows a successful validation
    repeats one of the validator's own checks. *)
Lemma validated_initial_finite system config :
  validateSolverConfig config system = None →
  hasInvalidValues config.(initialConditions) = false.
Proof.
  unfold validateSolverConfig, hasInvalidValues.
  repeat (match goal with
          | |- context [if ?b then _ else _] => destruct b eqn:?
          end; [done|]).
  done.
Qed.

(** A run whose loop completes [n] iterations and then meets a state with
    a non-finite element. *)
Lemma solveODE_instability system config n v bad fuel :
  validateSolverConfig config system = None →
  steps system config (maxStepsOf config) n (initialVars config) v →
  loopCondition config (maxStepsOf config) v = true →
  rk4Step system.(equations) v.(state) config.(cfg_parameters) config.(dt) = Ok bad →
  hasInvalidValues bad = true →
  n < fuel →
  solveODE fuel system config
  = Some (Throw (ErrorObj (NumericalInstability (v.(t) + config.(dt))%float))).
Proof.
  intros Hvalid Hsteps Hcond Hstep Hbad Hfuel. unfold solveODE.
  rewrite Hvalid, (validated_initial_finite _ _ Hvalid).
  replace fuel with (n + S (fuel - S n))%nat by lia.
  rewrite (while_steps _ _ _ _ _ _ _ Hsteps). simpl.
  rewrite Hcond. unfold loopBody. by rewrite Hstep, Hbad.
Qed.

(** A constant derivative of one. *)
Definition unitGrowth : ODESystem :=
  {| sys_id := "unit-growth"; sys_name := "Unit growth"; description := "";
     stateVariables := ["x"]%string; sys_parameters := [];
     defaultInitialConditions := [0%float];
     equations := λ _ _, Ok [1%float] |}.

(** A valid configuration with the largest horizon and a step of [2^1023]. *)
Definition hugeStepConfig : SolverConfig :=
  {| dt := 0x1p1023; tMax := 0x1.fffffffffffffp1023;
     initialConditions := [0%float]; cfg_parameters := ∅ |}.

(** C5 (counterexample).  The reported time need not be below [tMax], nor
    finite: on [unitGrowth] with a step of [2^1023] the second step
    overflows both the state and the time, and the failure reports the
    time [infinity]; on the predator-prey system started at [2^600] with
    [dt = tMax = 1] the first step overflows and the reported time is
    [tMax] itself. *)
Lemma instability_time_not_below_tMax :
  ¬ (∀ system config fuel atTime,
       solveODESafe fuel system config
       = Some (Ok (Failure (NumericalInstability atTime))) →
       isFinite atTime = true ∧ (atTime <? config.(tMax))%float = true).
Proof.
  intros Hclaim.
  destruct (Hclaim unitGrowth hugeStepConfig 5%nat infinity) as [Hfin _].
  - vm_compute. reflexivity.
  - vm_compute in Hfin. discriminate.
Qed.

Lemma instability_time_can_equal_tMax :
  solveODESafe 5 lotkaVolterraSystem
    {| dt := 1; tMax := 1; initialConditions := [0x1p600; 0x1p600]%float;
       cfg_parameters := defaultParameters lotkaVolterraSystem |}
  = Some (Ok (Failure (NumericalInstability 1))).
Proof. vm_compute. reflexivity. Qed.

(** C5 (amended).  When, after [n] completed steps, the RK4 step from the
    last stored state [v] produces a state with a non-finite element, the
    run ends with [Failure (NumericalInstability atTime)], where
    [atTime = t + dt] is the simulation time of that state: [dt] added
    [n + 1] times to zero (a time, not the step count), with [t], the time
    of the last stored point, below [tMax].  The failure carries the
    message and nothing else: it is not a [Success] and has no trajectory. *)
Theorem instability_reports_time_of_first_bad_state :
  ∀ system config n v bad fuel,
    validateSolverConfig config system = None →
    steps system config (maxStepsOf config) n (initialVars config) v →
    loopCondition config (maxStepsOf config) v = true →
    rk4Step system.(equations) v.(state) config.(cfg_parameters) config.(dt)
      = Ok bad →
    hasInvalidValues bad = true →
    n < fuel →
    let atTime := (v.(t) + config.(dt))%float in
    solveODESafe fuel system config = Some (Ok (Failure (NumericalInstability atTime)))
    ∧ atTime = Nat.iter (S n) (λ x, (x + config.(dt))%float) 0%float
    ∧ (v.(t) <? config.(tMax))%float = true
    ∧ ∀ trajectory, solveODESafe fuel system config ≠ Some (Ok (Success trajectory)).
Proof.
  intros system config n v bad fuel Hvalid Hsteps Hcond Hstep Hbad Hfuel atTime.
  assert (Hrun : solveODESafe fuel system config
                 = Some (Ok (Failure (NumericalInstability atTime)))).
  { unfold solveODESafe.
    by rewrite (solveODE_instability _ _ _ _ _ _ Hvalid Hsteps Hcond Hstep Hbad Hfuel). }
  split; [exact Hrun|]. split; [|split].
  - destruct (steps_vars _ _ _ _ _ _ Hsteps) as (Ht & _). unfold atTime.
    rewrite Ht. reflexivity.
  - unfold loopCondition in Hcond. by apply andb_prop in Hcond as [? _].
  - intros trajectory. rewrite Hrun. discriminate.
Qed.

(** C5 (amended) on the overflowing run of [unitGrowth]: one step is
    completed, the second produces [infinity]. *)
Lemma instability_reports_time_of_first_bad_state_witness :
  solveODESafe 5 unitGrowth hugeStepConfig
  = Some (Ok (Failure (NumericalInstability (0x1p1023 + 0x1p1023)%float))).
Proof.
  pose (v1 := {| t := 0x1p1023%float; state := [0x1p1023%float];
                 stepCount := 1%float;
                 pts := [{| pt_t := 0%float; pt_state := [0%float] |};
                         {| pt_t := 0x1p1023%float; pt_state := [0x1p1023%float] |}] |}).
  refine (proj1 (instability_reports_time_of_first_bad_state
                   unitGrowth hugeStepConfig 1 v1 [infinity] 5 _ _ _ _ _ _)).
  - vm_compute. reflexivity.
  - eapply steps_S; [vm_compute; reflexivity..|apply steps_O].
  - vm_compute. reflexivity.
  - vm_compute. reflexivity.
  - vm_compute. reflexivity.
  - lia.
Defined.

(** ** The shape of a trajectory *)

(** What a successful validation says about the time step. *)
Lemma validated_time_step system config :
  validateSolverConfig config system = None →
  ∃ m e, Prim2SF config.(dt) = S754_finite false m e.
Proof.
  unfold validateSolverConfig.
  destruct (isFinite (dt config)) eqn:Hfin; [|done]. cbn [negb].
  destruct (dt config <=? 0)%float eqn:Hpos; [done|]. intros _.
  by apply positive_finite_spec.
Qed.

Lemma nonneg_sf_not_nan x : nonneg_sf (Prim2SF x) → is_nan x = false.
Proof. intros Hx. apply is_nan_false. by destruct (Prim2SF x). Qed.

(** Repeated addition of a positive finite number, started from zero,
    stays among the numbers that are not negative. *)
Lemma iter_add_nonneg (d : float) (n : nat) :
  (∃ m e, Prim2SF d = S754_finite false m e) →
  nonneg_sf (Prim2SF (Nat.iter n (λ x, (x + d)%float) 0%float)).
Proof.
  intros Hd. induction n as [|n IH]; [exact I|].
  simpl. by apply add_positive_grows.
Qed.

(** Once an addition is absorbed, every later one is. *)
Lemma iter_add_stuck (d x : float) (n : nat) :
  (x + d)%float = x → Nat.iter n (λ y, (y + d)%float) x = x.
Proof. intros Hx. induction n as [|n IH]; [done|]. simpl. by rewrite IH. Qed.

Lemma iter_add_split (d x : float) (i k : nat) :
  Nat.iter (i + k) (λ y, (y + d)%float) x
  = Nat.iter k (λ y, (y + d)%float) (Nat.iter i (λ y, (y + d)%float) x).
Proof. rewrite Nat.add_comm. apply Nat.iter_add. Qed.

Section TrajectoryFacts.
Variable system : ODESystem.
Variable config : SolverConfig.
Variable maxSteps : float.

(** The state before each of the [n] iterations satisfied the loop
    condition. *)
Lemma steps_prefix n v v' i :
  steps system config maxSteps n v v' → i < n →
  ∃ w, steps system config maxSteps i v w
       ∧ loopCondition config maxSteps w = true.
Proof.
  intros Hsteps. revert i.
  induction Hsteps as [v|n v w v' Hc Hb _ IH]; intros i Hi; [lia|].
  destruct i as [|i].
  - exists v. split; [constructor|done].
  - destruct (IH i ltac:(lia)) as (u & Hu & Hcu). exists u.
    split; [by eapply steps_S|done].
Qed.

(** The time stored with the point appended by iteration [i + 1]. *)
Lemma steps_point_times n v v' :
  steps system config maxSteps n v v' →
  ∀ i p, v'.(pts) !! (length v.(pts) + i)%nat = Some p →
         p.(pt_t) = Nat.iter (S i) (λ x, (x + config.(dt))%float) v.(t).
Proof.
  induction 1 as [v|n v w v' Hc Hb Hsteps IH]; intros i p Hp.
  - apply lookup_lt_Some in Hp. lia.
  - destruct (loopBody_ok _ _ _ _ Hb) as (_ & _ & Ht & _ & Hpts).
    destruct (steps_vars _ _ _ _ _ _ Hsteps) as (_ & _ & _ & Hkeep).
    destruct i as [|i].
    + rewrite Nat.add_0_r, Hkeep, Hpts in Hp by (rewrite Hpts, length_app; simpl; lia).
      rewrite lookup_app_r, Nat.sub_diag in Hp by lia.
      injection Hp as <-. simpl. by rewrite Ht.
    + rewrite (Nat.iter_succ_r (S i)), <- Ht. apply IH.
      rewrite Hpts, length_app. simpl.
      by replace (length (pts v) + 1 + i)%nat with (length (pts v) + S i)%nat by lia.
Qed.
End TrajectoryFacts.

(** X24.  A trajectory returned by the solver starts with the point
    [(0, initialConditions)], has one point more than the number [n] of
    RK4 steps the loop took (the counter being [1] added [n] times to
    zero), and each point's time is the previous point's time plus [dt]
    and strictly larger than it, up to the final point. *)
Theorem trajectory_shape :
  ∀ system config fuel trajectory,
    solveODESafe fuel system config = Some (Ok (Success trajectory)) →
    ∃ n v,
      steps system config (maxStepsOf config) n (initialVars config) v
      ∧ v.(stepCount) = Nat.iter n (λ c, (c + 1)%float) 0%float
      ∧ trajectory.(points) !! 0%nat
        = Some {| pt_t := 0; pt_state := config.(initialConditions) |}
      ∧ length trajectory.(points) = S n
      ∧ ∀ i p q,
          trajectory.(points) !! i = Some p →
          trajectory.(points) !! S i = Some q →
          q.(pt_t) = (p.(pt_t) + config.(dt))%float
          ∧ (p.(pt_t) <? q.(pt_t))%float = true.
Proof.
  intros system config fuel trajectory Hsolve%solveODESafe_success.
  unfold solveODE in Hsolve.
  destruct (validateSolverConfig config system) eqn:Hvalid; [done|].
  destruct (hasInvalidValues _); [done|].
  destruct (while _ _ _ _ _) as [[v|e]|] eqn:Hw; try done.
  unfold finish in Hsolve.
  destruct (maxStepsOf config <=? stepCount v)%float eqn:Hbudget; [done|].
  injection Hsolve as <-. cbn [points].
  destruct (while_returns _ _ _ _ _ _ Hw) as (n & _ & Hsteps & Hexit).
  destruct (steps_vars _ _ _ _ _ _ Hsteps) as (Ht & Hcount & Hlen & Hkeep).
  cbn [initialVars pts t stepCount length] in Ht, Hcount, Hlen, Hkeep.
  pose proof (validated_time_step _ _ Hvalid) as Hdt.
  set (τ := λ i, Nat.iter i (λ x, (x + config.(dt))%float) 0%float).
  assert (Htimes : ∀ i p, pts v !! i = Some p → pt_t p = τ i).
  { intros [|i] p Hp.
    - rewrite Hkeep in Hp by lia. by injection Hp as <-.
    - apply (steps_point_times _ _ _ _ _ _ Hsteps i p Hp). }
  exists n, v. split; [done|]. split; [done|]. split.
  { rewrite Hkeep by lia. done. }
  split; [lia|].
  intros i p q Hp Hq.
  rewrite (Htimes _ _ Hp), (Htimes _ _ Hq). split; [done|].
  assert (i < n) as Hi by (apply lookup_lt_Some in Hq; lia).
  destruct (add_positive_grows (τ i) config.(dt)) as [_ [Hlt|Hstuck]];
    [by apply iter_add_nonneg|done|exact Hlt|exfalso].
  (* the addition was absorbed: the time can no longer reach tMax *)
  destruct (steps_prefix _ _ _ _ _ _ i Hsteps Hi) as (w & Hw_steps & Hw_cond).
  destruct (steps_vars _ _ _ _ _ _ Hw_steps) as (Hwt & _).
  cbn [initialVars t] in Hwt. fold (τ i) in Hwt.
  apply andb_prop in Hw_cond as [Hw_time Hw_count].
  assert (Hvt : t v = τ i).
  { rewrite Ht. replace n with (i + (n - i))%nat by lia.
    rewrite iter_add_split. by apply iter_add_stuck. }
  unfold loopCondition in Hexit. rewrite Hvt, <- Hwt, Hw_time in Hexit.
  cbn [andb] in Hexit.
  rewrite leb_negb_ltb, Hexit in Hbudget; [done| |].
  - by apply ltb_not_nan in Hw_count as [_ ?].
  - rewrite Hcount. apply nonneg_sf_not_nan, iter_add_nonneg.
    by exists 4503599627370496%positive, (-52)%Z.
Qed.

(** The quarter-step Lorenz run: four steps, five points. *)
Lemma trajectory_shape_witness :
  ∃ trajectory n v,
    solveODESafe 10 lorenzSystem lorenzQuarterSteps = Some (Ok (Success trajectory))
    ∧ steps lorenzSystem lorenzQuarterSteps (maxStepsOf lorenzQuarterSteps) n
            (initialVars lorenzQuarterSteps) v
    ∧ length trajectory.(points) = S n
    ∧ length trajectory.(points) = 5%nat.
Proof.
  assert (Hrun : ∃ trajectory,
            solveODESafe 10 lorenzSystem lorenzQuarterSteps = Some (Ok (Success trajectory))
            ∧ length trajectory.(points) = 5%nat)
    by (vm_compute; eexists; split; reflexivity).
  destruct Hrun as (trajectory & Hrun & Hfive).
  destruct (trajectory_shape lorenzSystem lorenzQuarterSteps 10 trajectory Hrun)
    as (n & v & Hsteps & _ & _ & Hlen & _).
  exists trajectory, n, v.
  split; [exact Hrun|]. split; [exact Hsteps|]. split; [exact Hlen|exact Hfive].
Defined.

(** C3.  A valid configuration whose dynamics stay finite need not get a
    trajectory.  On the predator-prey system at its defaults with
    [dt = 0.1] and [tMax = 1] the configuration is valid; the loop takes
    eleven steps and leaves with [t] past [tMax], every state it met
    finite, and twelve points in the array, the first of them
    [(0, initialConditions)]; but the counter has reached the step budget
    of eleven, [solveODE] throws instead of returning the array, and no
    run returns a trajectory. *)
Theorem finite_run_returns_no_trajectory :
  validateSolverConfig tenthStepsConfig lotkaVolterraSystem = None
  ∧ maxStepsOf tenthStepsConfig = 11%float
  ∧ match while lotkaVolterraSystem tenthStepsConfig (maxStepsOf tenthStepsConfig)
            11 (initialVars tenthStepsConfig) with
    | Some (Ok v) =>
        (v.(t) <? tenthStepsConfig.(tMax))%float = false
        ∧ v.(stepCount) = 11%float
        ∧ length v.(pts) = 12%nat
        ∧ v.(pts) !! 0%nat
          = Some {| pt_t := 0; pt_state := tenthStepsConfig.(initialConditions) |}
        ∧ forallb (λ p, negb (hasInvalidValues p.(pt_state))) v.(pts) = true
    | _ => False
    end
  ∧ ∀ fuel trajectory,
      solveODESafe fuel lotkaVolterraSystem tenthStepsConfig
      ≠ Some (Ok (Success trajectory)).
Proof.
  split; [vm_compute; reflexivity|]. split; [vm_compute; reflexivity|].
  split; [vm_compute; repeat split; reflexivity|].
  intros fuel trajectory Hrun%solveODESafe_success.
  assert (Hthrown : solveODE 11 lotkaVolterraSystem tenthStepsConfig
                    = Some (Throw (ErrorObj MaxStepsExceeded)))
    by (vm_compute; reflexivity).
  pose proof (solveODE_more_fuel _ _ _ _ Hrun (fuel + 11) ltac:(lia)) as H1.
  pose proof (solveODE_more_fuel _ _ _ _ Hthrown (fuel + 11) ltac:(lia)) as H2.
  congruence.
Qed.

(** * Outcomes *)

(** The error kinds of the specification. *)
Inductive ErrorKind : Type :=
  | InvalidConfig
  | NonFiniteInitialState
  | NumericalInstabilityKind
  | StepBudgetExceeded
  | DimensionMismatch.

(** The kind a message of the solver stands for; the message of an error
    thrown by the derivative function has none. *)
Definition kindOf (msg : Message) : option ErrorKind :=
  match msg with
  | InitialInvalid => Some NonFiniteInitialState
  | NumericalInstability _ => Some NumericalInstabilityKind
  | MaxStepsExceeded => Some StepBudgetExceeded
  | VectorLengthMismatch _ _ => Some DimensionMismatch
  | UnexpectedError _ _ | ForeignMessage _ => None
  | _ => Some InvalidConfig
  end.

Lemma kindOf_validation msg : is_Some (ruleOf msg) → kindOf msg = Some InvalidConfig.
Proof. destruct msg; simpl; intros [r Hr]; done. Qed.

(** A derivative function that never throws. *)
Definition neverThrows (f : list float → gmap string float → result (list float))
    : Prop :=
  ∀ s p, ∃ k, f s p = Ok k.

Lemma add_throws (a b : list float) e :
  add a b = Throw e → ∃ la lb, e = ErrorObj (VectorLengthMismatch la lb).
Proof. unfold add. destruct (negb _); [|done]. intros [= <-]. eauto. Qed.

(** What the stepper throws comes from [add] or from the derivative
    function. *)
Lemma rk4Step_throws_from f (s : list float) params h e :
  rk4Step f s params h = Throw e →
  (∃ la lb, e = ErrorObj (VectorLengthMismatch la lb))
  ∨ (∃ s', f s' params = Throw e).
Proof.
  unfold rk4Step.
  repeat (first
    [ match goal with
      | |- context [f ?x ?p ≫= _] =>
          let Hk := fresh "Hk" in
          destruct (f x p) eqn:Hk; simpl;
          [clear Hk|intros [= <-]; right; by eexists]
      end
    | match goal with
      | |- context [add ?x ?y ≫= _] =>
          let Ha := fresh "Ha" in
          destruct (add x y) eqn:Ha; simpl;
          [clear Ha|intros [= <-]; left; by eapply add_throws]
      end ]).
  intros Ha. left. by eapply add_throws.
Qed.

(** With a function that never throws the stepper can only throw from
    [add]. *)
Lemma rk4Step_throws f (s : list float) params h e :
  neverThrows f →
  rk4Step f s params h = Throw e →
  ∃ la lb, e = ErrorObj (VectorLengthMismatch la lb).
Proof.
  intros Hf [Hadd|[s' Hs']]%rk4Step_throws_from; [done|].
  destruct (Hf s' params) as [k Hk]. congruence.
Qed.

(** What the loop body throws: the instability error, or what the [catch]
    block makes of what the stepper threw. *)
Lemma loopBody_throws system config v e :
  loopBody system config v = Throw e →
  (∃ time, e = ErrorObj (NumericalInstability time))
  ∨ (∃ x, rk4Step system.(equations) v.(state) config.(cfg_parameters) config.(dt)
          = Throw x
          ∧ e = rethrown v.(t) x).
Proof.
  unfold loopBody.
  destruct (rk4Step _ _ _ _) as [s'|x] eqn:Hstep.
  - destruct (hasInvalidValues s'); [|done]. intros [= <-]. left. by eexists.
  - intros [= <-]. right. by eexists.
Qed.

(** When the derivative function does not throw, the loop body throws
    [Error] objects of the solver's own. *)
Lemma loopBody_throws_error system config v e :
  neverThrows system.(equations) →
  loopBody system config v = Throw e →
  ∃ msg, e = ErrorObj msg ∧ is_Some (kindOf msg).
Proof.
  intros Hf [[time ->]|(x & Hstep & ->)]%loopBody_throws.
  - eexists. split; [done|]. by eexists.
  - destruct (rk4Step_throws _ _ _ _ _ Hf Hstep) as (la & lb & ->).
    eexists. split; [done|]. by eexists.
Qed.

(** Before the loop and after it [solveODE] throws [Error] objects of its
    own; so it does out of the loop when the derivative function does not
    throw, and [solveODESafe] passes the message on as it is. *)
Lemma solveODE_throws fuel system config e :
  neverThrows system.(equations) →
  solveODE fuel system config = Some (Throw e) →
  ∃ msg, e = ErrorObj msg ∧ is_Some (kindOf msg).
Proof.
  intros Hf. unfold solveODE.
  destruct (validateSolverConfig config system) as [msg|] eqn:Hvalid.
  { intros [= <-]. exists msg. split; [done|].
    rewrite kindOf_validation; [by eexists|].
    by eapply validateSolverConfig_rule_defined. }
  destruct (hasInvalidValues _).
  { intros [= <-]. eexists. split; [done|]. by eexists. }
  destruct (while _ _ _ _ _) as [[v|e']|] eqn:Hw; [| |done].
  - unfold finish. destruct (_ <=? _)%float; [|done]. intros [= <-].
    eexists. split; [done|]. by eexists.
  - intros [= <-].
    destruct (while_throws _ _ _ _ _ _ Hw) as (n & w & _ & _ & _ & Hbody).
    by eapply loopBody_throws_error.
Qed.

(** ** Termination of the loop *)

Lemma leb_not_nan x y : (x <=? y)%float = true → is_nan x = false ∧ is_nan y = false.
Proof.
  rewrite !is_nan_false, FloatAxioms.leb_spec. unfold SFleb.
  destruct (Prim2SF x) as [[]| []| |[] mx ex], (Prim2SF y) as [[]| []| |[] my ey];
    simpl; done.
Qed.

(** While the counter counts exactly, a budget of at most [2^53] ends the
    loop: [remaining] more iterations at most, when the counter has been
    incremented [2^53 - remaining] times. *)
Lemma while_within_budget system config maxSteps (remaining : nat) (n : Z) v :
  (maxSteps <=? 0x1p53)%float = true →
  is_count n v.(stepCount) →
  (0 <= n)%Z → (n + Z.of_nat remaining = 2 ^ 53)%Z →
  ∃ r, while system config maxSteps remaining v = Some r.
Proof.
  intros Hbudget. revert n v.
  induction remaining as [|remaining IH]; intros n v Hcount Hn Hsum.
  - replace n with (2 ^ 53)%Z in Hcount by lia.
    apply is_count_top in Hcount. simpl. unfold loopCondition.
    destruct (leb_not_nan _ _ Hbudget) as [Hm _].
    rewrite leb_negb_ltb in Hbudget by done.
    apply negb_true_iff in Hbudget. rewrite Hcount, Hbudget, andb_false_r.
    by eexists.
  - simpl. destruct (loopCondition config maxSteps v); [|by eexists].
    destruct (loopBody system config v) as [v'|e] eqn:Hbody; [|by eexists].
    destruct (loopBody_ok _ _ _ _ Hbody) as (_ & _ & _ & Hcnt & _).
    apply (IH (n + 1)%Z); [|lia|lia].
    rewrite Hcnt. apply is_count_succ; [done|lia].
Qed.

(** A valid configuration within the budget: with memory for every point,
    the run finishes. *)
Lemma solveODE_terminates system config :
  (validateSolverConfig config system = None →
   (maxStepsOf config <=? 0x1p53)%float = true) →
  ∃ fuel r, solveODE fuel system config = Some r.
Proof.
  intros Hbudget. exists (Z.to_nat (2 ^ 53)). unfold solveODE.
  destruct (validateSolverConfig config system); [by eexists|].
  destruct (hasInvalidValues _); [by eexists|].
  destruct (while_within_budget system config (maxStepsOf config)
              (Z.to_nat (2 ^ 53)) 0 (initialVars config)) as [r ->].
  - by apply Hbudget.
  - by left.
  - lia.
  - lia.
  - destruct r; by eexists.
Qed.

(** * Runs on a host *)

Section HostFacts.
Variable host : Host.
Variable system : ODESystem.
Variable config : SolverConfig.
Variable maxSteps : float.
Local Open Scope Z_scope.

Lemma arrayLimit_positive : 0 < arrayLimit.
Proof. reflexivity. Qed.

(** The first [push], onto the empty array. *)
Lemma push_first point :
  push host [] point
  = if host.(room) <=? 0 then OutOfMemory else Completed (Ok [point]).
Proof. reflexivity. Qed.

(** The body on the host is the body above, followed by the verdict of
    the host on the [push]. *)
Lemma loopBodyOn_loopBody v :
  loopBodyOn host system config v
  = match loopBody system config v with
    | Ok v' =>
        if arrayLimit <=? Z.of_nat (length v.(pts))
        then Completed (Throw (ErrorObj invalidArrayLength))
        else if host.(room) <=? Z.of_nat (length v.(pts))
        then OutOfMemory
        else Completed (Ok v')
    | Throw e => Completed (Throw e)
    end.
Proof.
  unfold loopBodyOn, loopBody, push.
  destruct (rk4Step _ _ _ _) as [s'|x]; [|done].
  destruct (hasInvalidValues s'); [done|].
  destruct (arrayLimit <=? _); [done|]. by destruct (room host <=? _).
Qed.

Lemma loopBodyOn_ok v v' :
  loopBodyOn host system config v = Completed (Ok v') →
  loopBody system config v = Ok v'
  ∧ Z.of_nat (length v.(pts)) < arrayLimit
  ∧ Z.of_nat (length v.(pts)) < host.(room).
Proof.
  rewrite loopBodyOn_loopBody.
  destruct (loopBody system config v) as [w|e]; [|done].
  destruct (arrayLimit <=? _) eqn:Hlimit; [done|].
  destruct (room host <=? _) eqn:Hroom; [done|].
  intros [= <-]. split; [done|]. lia.
Qed.

Lemma loopBodyOn_out_of_memory v :
  loopBodyOn host system config v = OutOfMemory →
  (∃ v', loopBody system config v = Ok v')
  ∧ host.(room) <= Z.of_nat (length v.(pts)) < arrayLimit.
Proof.
  rewrite loopBodyOn_loopBody.
  destruct (loopBody system config v) as [w|e]; [|done].
  destruct (arrayLimit <=? _) eqn:Hlimit; [done|].
  destruct (room host <=? _) eqn:Hroom; [|done].
  intros _. split; [by eexists|]. lia.
Qed.

Lemma loopBodyOn_throws v e :
  loopBodyOn host system config v = Completed (Throw e) →
  loopBody system config v = Throw e
  ∨ ((∃ v', loopBody system config v = Ok v')
     ∧ e = ErrorObj invalidArrayLength
     ∧ arrayLimit <= Z.of_nat (length v.(pts))).
Proof.
  rewrite loopBodyOn_loopBody.
  destruct (loopBody system config v) as [w|e']; [|intros [= <-]; by left].
  destruct (arrayLimit <=? _) eqn:Hlimit.
  - intros [= <-]. right. split; [by eexists|]. split; [done|]. lia.
  - by destruct (room host <=? _).
Qed.

(** More fuel does not change a run that has ended. *)
Lemma whileOn_more_fuel fuel v r :
  whileOn host system config maxSteps fuel v = Some r →
  ∀ fuel', (fuel ≤ fuel')%nat → whileOn host system config maxSteps fuel' v = Some r.
Proof.
  revert v. induction fuel as [|fuel IH]; intros v Hrun fuel' Hle.
  - simpl in Hrun. destruct fuel'; simpl;
      destruct (loopCondition config maxSteps v); done.
  - destruct fuel' as [|fuel']; [lia|].
    simpl in *. destruct (loopCondition config maxSteps v); [|done].
    destruct (loopBodyOn host system config v) as [[v'|e]|]; [|done..].
    apply IH; [done|lia].
Qed.

(** The loop on a host ends: every iteration that goes on has added a
    point to an array that is not full. *)
Lemma whileOn_ends (fuel : nat) v :
  Z.of_nat (length v.(pts)) <= arrayLimit →
  arrayLimit < Z.of_nat (length v.(pts)) + Z.of_nat fuel →
  ∃ r, whileOn host system config maxSteps fuel v = Some r.
Proof.
  revert v. induction fuel as [|fuel IH]; intros v Hlen Hfuel; [lia|].
  simpl. destruct (loopCondition config maxSteps v); [|by eexists].
  destruct (loopBodyOn host system config v) as [[v'|e]|] eqn:Hbody;
    [|by eexists..].
  destruct (loopBodyOn_ok _ _ Hbody) as (Hbase & Hlimit & _).
  destruct (loopBody_ok _ _ _ _ Hbase) as (_ & _ & _ & _ & Hpts).
  apply IH; rewrite Hpts, length_app; simpl; lia.
Qed.

(** A run of the loop that completes went through some iterations of the
    loop above, each with room for its point. *)
Lemma whileOn_returns fuel v v' :
  whileOn host system config maxSteps fuel v = Some (Completed (Ok v')) →
  ∃ n, (n ≤ fuel)%nat
       ∧ steps system config maxSteps n v v'
       ∧ loopCondition config maxSteps v' = false.
Proof.
  revert v. induction fuel as [|fuel IH]; intros v Hrun; simpl in Hrun.
  - destruct (loopCondition config maxSteps v) eqn:Hc; [done|].
    injection Hrun as <-. exists 0%nat. split; [done|]. split; [constructor|done].
  - destruct (loopCondition config maxSteps v) eqn:Hc.
    + destruct (loopBodyOn host system config v) as [[w|e]|] eqn:Hb; [|done..].
      destruct (loopBodyOn_ok _ _ Hb) as (Hbase & _).
      destruct (IH w Hrun) as (n & Hn & Hsteps & Hexit).
      exists (S n). split; [lia|]. split; [|done]. by eapply steps_S.
    + injection Hrun as <-. exists 0%nat. split; [lia|]. split; [constructor|done].
Qed.

(** A loop that completes on a host completes in the same way with room
    for every point. *)
Lemma whileOn_returns_while fuel v v' :
  whileOn host system config maxSteps fuel v = Some (Completed (Ok v')) →
  while system config maxSteps fuel v = Some (Ok v').
Proof.
  intros (n & Hn & Hsteps & Hexit)%whileOn_returns.
  replace fuel with (n + (fuel - n))%nat by lia.
  rewrite (while_steps _ _ _ _ _ _ _ Hsteps).
  destruct (fuel - n)%nat; simpl; by rewrite Hexit.
Qed.

(** A run of the loop that ends otherwise went through some iterations
    and ended in the body of the next. *)
Lemma whileOn_breaks fuel v (r : ended Vars) :
  whileOn host system config maxSteps fuel v = Some r →
  (∀ v', r ≠ Completed (Ok v')) →
  Z.of_nat (length v.(pts)) <= arrayLimit →
  ∃ n w, (n < fuel)%nat
         ∧ steps system config maxSteps n v w
         ∧ loopCondition config maxSteps w = true
         ∧ loopBodyOn host system config w = r
         ∧ Z.of_nat (length w.(pts)) <= arrayLimit.
Proof.
  revert v. induction fuel as [|fuel IH]; intros v Hrun Hr Hlen; simpl in Hrun.
  - destruct (loopCondition config maxSteps v); [done|].
    injection Hrun as <-. by destruct (Hr v).
  - destruct (loopCondition config maxSteps v) eqn:Hc.
    + destruct (loopBodyOn host system config v) as [[w|e]|] eqn:Hb.
      * destruct (loopBodyOn_ok _ _ Hb) as (Hbase & Hlimit & _).
        destruct (loopBody_ok _ _ _ _ Hbase) as (_ & _ & _ & _ & Hpts).
        destruct (IH w Hrun Hr) as (n & u & Hn & Hsteps & Hcu & Hbu & Hlu).
        { rewrite Hpts, length_app. simpl. lia. }
        exists (S n), u. split; [lia|]. split; [by eapply steps_S|done].
      * injection Hrun as <-. exists 0%nat, v. split; [lia|].
        split; [constructor|done].
      * injection Hrun as <-. exists 0%nat, v. split; [lia|].
        split; [constructor|done].
    + injection Hrun as <-. by destruct (Hr v).
Qed.

(** With room for as many points as there is fuel for iterations, the
    loop on the host is the loop above. *)
Lemma whileOn_enough_room (fuel : nat) v :
  Z.of_nat (length v.(pts)) + Z.of_nat fuel <= host.(room) →
  Z.of_nat (length v.(pts)) + Z.of_nat fuel <= arrayLimit →
  whileOn host system config maxSteps fuel v
  = Completed <$> while system config maxSteps fuel v.
Proof.
  revert v. induction fuel as [|fuel IH]; intros v Hroom Hlimit; simpl.
  - by destruct (loopCondition config maxSteps v).
  - destruct (loopCondition config maxSteps v); [|done].
    rewrite loopBodyOn_loopBody.
    destruct (loopBody system config v) as [v'|e] eqn:Hbody; [|done].
    destruct (Z.leb_spec arrayLimit (Z.of_nat (length (pts v)))); [lia|].
    destruct (Z.leb_spec (room host) (Z.of_nat (length (pts v)))); [lia|].
    destruct (loopBody_ok _ _ _ _ Hbody) as (_ & _ & _ & _ & Hpts).
    apply IH; rewrite Hpts, length_app; simpl; lia.
Qed.
End HostFacts.

(** On a host with room for more points than there is fuel for
    iterations, [solveODE] runs as above. *)
Lemma solveODEOn_enough_room host fuel system config :
  (Z.of_nat fuel < host.(room))%Z → (Z.of_nat fuel < arrayLimit)%Z →
  solveODEOn host fuel system config = Completed <$> solveODE fuel system config.
Proof.
  intros Hroom Hlimit. unfold solveODEOn, solveODE.
  destruct (validateSolverConfig config system); [done|].
  destruct (hasInvalidValues _); [done|].
  rewrite push_first. destruct (Z.leb_spec (room host) 0); [lia|].
  rewrite whileOn_enough_room by (simpl; lia).
  unfold initialVars.
  by destruct (while _ _ _ _ _) as [[v|e]|].
Qed.

Lemma solveODESafeOn_enough_room host fuel system config :
  (Z.of_nat fuel < host.(room))%Z → (Z.of_nat fuel < arrayLimit)%Z →
  solveODESafeOn host fuel system config
  = Completed <$> solveODESafe fuel system config.
Proof.
  intros Hroom Hlimit. unfold solveODESafeOn, solveODESafe.
  rewrite solveODEOn_enough_room by done.
  by destruct (solveODE fuel system config) as [r|].
Qed.

Lemma solveODEOn_more_fuel host fuel system config r :
  solveODEOn host fuel system config = Some r →
  ∀ fuel', fuel ≤ fuel' → solveODEOn host fuel' system config = Some r.
Proof.
  unfold solveODEOn. intros Hrun fuel' Hle.
  destruct (validateSolverConfig config system); [done|].
  destruct (hasInvalidValues _); [done|].
  destruct (push host [] _) as [[points|e]|]; [|done..].
  destruct (whileOn _ _ _ _ fuel _) as [w|] eqn:Hw; [|done].
  by rewrite (whileOn_more_fuel _ _ _ _ _ _ _ Hw fuel' Hle).
Qed.

(** A trajectory returned on a host is one the solver returns with room
    for every point. *)
Lemma solveODEOn_returned host fuel system config trajectory :
  solveODEOn host fuel system config = Some (Completed (Ok trajectory)) →
  solveODE fuel system config = Some (Ok trajectory).
Proof.
  unfold solveODEOn, solveODE.
  destruct (validateSolverConfig config system); [done|].
  destruct (hasInvalidValues _); [done|].
  rewrite push_first. destruct (room host <=? 0)%Z; [done|].
  destruct (whileOn _ _ _ _ _ _) as [[[v|e]|]|] eqn:Hw; [|done..].
  apply whileOn_returns_while in Hw. unfold initialVars. rewrite Hw.
  congruence.
Qed.

(** Every run on a host ends. *)
Lemma solveODEOn_ends host system config :
  ∃ r, solveODEOn host (Z.to_nat arrayLimit) system config = Some r.
Proof.
  unfold solveODEOn.
  destruct (validateSolverConfig config system); [by eexists|].
  destruct (hasInvalidValues _); [by eexists|].
  rewrite push_first. destruct (room host <=? 0)%Z; [by eexists|].
  destruct (whileOn_ends host system config (maxStepsOf config)
              (Z.to_nat arrayLimit)
              {| t := 0; state := config.(initialConditions); stepCount := 0;
                 pts := [{| pt_t := 0; pt_state := config.(initialConditions) |}] |})
    as [r ->].
  - cbn [pts length]. pose proof arrayLimit_positive. lia.
  - cbn [pts length]. pose proof arrayLimit_positive. lia.
  - destruct r as [[v|e]|]; by eexists.
Qed.

(** ** Counting the iterations *)

Section CountOrder.
Local Open Scope Z_scope.

(** The counter after [n] increments, up to [2^53]. *)
Lemma iter_is_count (n : nat) :
  Z.of_nat n <= 2 ^ 53 →
  is_count (Z.of_nat n) (Nat.iter n (λ c, (c + 1)%float) 0%float).
Proof.
  induction n as [|n IH]; intros Hn; [by left|].
  rewrite Nat2Z.inj_succ. unfold Z.succ. simpl.
  apply is_count_succ; [apply IH; lia|lia].
Qed.

(** The comparison of two counters is the comparison of what they
    count. *)
Lemma is_count_lt n k x y :
  is_count n x → is_count k y → (x <? y)%float = true → n < k.
Proof.
  intros [[-> ->]|[Hn Hx]] [[-> ->]|[Hk Hy]]; [done|lia| |].
  - rewrite FloatAxioms.ltb_spec, prim_zero.
    destruct Hx as (m & e & -> & _). done.
  - rewrite FloatAxioms.ltb_spec.
    pose proof Hx as (mx & ex & Ex & _). pose proof Hy as (my & ey & Ey & _).
    rewrite Ex in Hx |- *. rewrite Ey in Hy |- *.
    apply int_sf_mantissa in Hx as (Hex & Hvx & Hmx).
    apply int_sf_mantissa in Hy as (Hey & Hvy & Hmy).
    unfold SFltb. cbn [SFcompare].
    pose proof (pow2_pos (ex + 52) ltac:(lia)) as Hpx.
    pose proof (pow2_pos (ey + 52) ltac:(lia)) as Hpy.
    destruct (Z.compare_spec ex ey) as [->|Hlt|Hgt]; [| |done].
    + intros Hm.
      assert (Z.pos mx < Z.pos my) as Hlt; [|nia].
      rewrite Pos.compare_cont_spec in Hm.
      destruct (mx ?= my)%positive eqn:Hc; simpl in Hm; done.
    + intros _.
      assert (2 ^ (ey + 52) = 2 ^ (ey - ex) * 2 ^ (ex + 52)) as Hsplit.
      { rewrite <- Z.pow_add_r by lia. f_equal. lia. }
      pose proof (pow2_le_mono 1 (ey - ex) ltac:(lia)) as Hge.
      change (2 ^ 1) with 2 in Hge.
      assert (n * 2 ^ 52 < k * 2 ^ 52); [|lia].
      rewrite <- Hvx, <- Hvy, Hsplit. nia.
Qed.
End CountOrder.

(** ** How a run on a host can end *)

(** The loop is in its [n+1]st iteration only when [n] is below the step
    budget. *)
Lemma steps_within_budget system config n w budget :
  steps system config (maxStepsOf config) n (initialVars config) w →
  loopCondition config (maxStepsOf config) w = true →
  is_count budget (maxStepsOf config) →
  (Z.of_nat n <= 2 ^ 53)%Z →
  (Z.of_nat n < budget)%Z.
Proof.
  intros Hsteps Hcond Hbudget Hn.
  destruct (steps_vars _ _ _ _ _ _ Hsteps) as (_ & Hcount & _).
  cbn [initialVars stepCount] in Hcount.
  apply andb_prop in Hcond as [_ Hbelow]. rewrite Hcount in Hbelow.
  exact (is_count_lt _ _ _ _ (iter_is_count n Hn) Hbudget Hbelow).
Qed.

(** When the loop on a host ends in the body of an iteration, the array
    holds no more points than the step budget counts. *)
Lemma broken_loop_within_budget host system config fuel (r : ended Vars) :
  whileOn host system config (maxStepsOf config) fuel
    {| t := 0; state := config.(initialConditions); stepCount := 0;
       pts := [{| pt_t := 0; pt_state := config.(initialConditions) |}] |}
  = Some r →
  (∀ v', r ≠ Completed (Ok v')) →
  ∃ n w, (n < fuel)%nat
    ∧ steps system config (maxStepsOf config) n (initialVars config) w
    ∧ loopCondition config (maxStepsOf config) w = true
    ∧ loopBodyOn host system config w = r
    ∧ ∀ budget, is_count budget (maxStepsOf config) →
                (Z.of_nat (length w.(pts)) <= budget)%Z.
Proof.
  intros Hw Hr.
  destruct (whileOn_breaks _ _ _ _ _ _ _ Hw Hr) as (n & w & Hn & Hsteps & Hcond & Hbody & Hlimit).
  { cbn [pts length]. pose proof arrayLimit_positive. lia. }
  exists n, w. split; [done|]. split; [done|]. split; [done|]. split; [done|].
  intros budget Hbudget.
  destruct (steps_vars _ _ _ _ _ _ Hsteps) as (_ & _ & Hlen & _).
  cbn [initialVars pts length] in Hlen.
  assert (Z.of_nat n < budget)%Z; [|lia].
  apply (steps_within_budget system config n w); try done.
  unfold arrayLimit in *. lia.
Qed.

(** A run is ended by the host only when the configuration is valid and
    its step budget is not below the number of points the host has room
    for. *)
Lemma out_of_memory_needs_budget host fuel system config :
  solveODEOn host fuel system config = Some OutOfMemory →
  validateSolverConfig config system = None
  ∧ (host.(room) < arrayLimit)%Z
  ∧ ∀ budget, is_count budget (maxStepsOf config) → (host.(room) <= budget)%Z.
Proof.
  unfold solveODEOn.
  destruct (validateSolverConfig config system); [done|].
  destruct (hasInvalidValues _); [done|].
  rewrite push_first. destruct (Z.leb_spec (room host) 0) as [Hnone|Hsome].
  { intros _. split; [done|]. pose proof arrayLimit_positive.
    split; [lia|]. intros budget [[-> _]|[Hbudget _]]; lia. }
  destruct (whileOn _ _ _ _ _ _) as [[[v|e]|]|] eqn:Hw; [| |intros _|done].
  { unfold finish. by destruct (_ <=? _)%float. }
  { done. }
  destruct (broken_loop_within_budget _ _ _ _ _ Hw ltac:(done))
    as (n & w & _ & _ & _ & Hbody & Hbudget).
  apply loopBodyOn_out_of_memory in Hbody as (_ & Hroom & Hlimit).
  split; [done|]. split; [lia|]. intros budget Hcount.
  specialize (Hbudget budget Hcount). lia.
Qed.

(** What [solveODE] throws on a host it throws with room for every point,
    but for the [RangeError] of a full array, which takes a step budget
    of the length of such an array. *)
Lemma solveODEOn_thrown host fuel system config e :
  solveODEOn host fuel system config = Some (Completed (Throw e)) →
  solveODE fuel system config = Some (Throw e)
  ∨ (e = ErrorObj invalidArrayLength
     ∧ validateSolverConfig config system = None
     ∧ ∀ budget, is_count budget (maxStepsOf config) → (arrayLimit <= budget)%Z).
Proof.
  unfold solveODEOn, solveODE.
  destruct (validateSolverConfig config system) as [msg|];
    [intros [= <-]; by left|].
  destruct (hasInvalidValues _); [intros [= <-]; by left|].
  rewrite push_first. destruct (room host <=? 0)%Z; [done|].
  destruct (whileOn _ _ _ _ _ _) as [[[v|e']|]|] eqn:Hw; [| |done..].
  - intros Hfinish. left.
    apply whileOn_returns_while in Hw. unfold initialVars. rewrite Hw. congruence.
  - intros [= ->].
    destruct (broken_loop_within_budget _ _ _ _ _ Hw ltac:(done))
      as (n & w & Hn & Hsteps & Hcond & Hbody & Hbudget).
    apply loopBodyOn_throws in Hbody as [Hbody|((v' & Hbody) & -> & Hfull)].
    + left. replace fuel with (n + S (fuel - S n))%nat by lia.
      rewrite (while_steps _ _ _ _ _ _ _ Hsteps). cbn [while].
      by rewrite Hcond, Hbody.
    + right. split; [done|]. split; [done|]. intros budget Hcount.
      specialize (Hbudget budget Hcount). lia.
Qed.

(** What [solveODE] throws on a host when the derivative function does
    not throw: an [Error] of the solver's own, or the [RangeError] of a
    full array. *)
Lemma solveODEOn_throws host fuel system config e :
  neverThrows system.(equations) →
  solveODEOn host fuel system config = Some (Completed (Throw e)) →
  ∃ msg, e = ErrorObj msg ∧ (is_Some (kindOf msg) ∨ msg = invalidArrayLength).
Proof.
  intros Hf [Hbase|(-> & _)]%solveODEOn_thrown.
  - destruct (solveODE_throws _ _ _ _ Hf Hbase) as (msg & -> & Hkind).
    exists msg. split; [done|]. by left.
  - eexists. split; [done|]. by right.
Qed.

(** A thrown value the two [catch] blocks can put into a message: an
    [Error]; a value the template literal converts; or one it cannot
    convert, when what the conversion throws is an [Error] (as for a
    symbol) or a value [String] converts. *)
Definition reportable (e : thrown) : Prop :=
  match e with
  | ErrorObj _ => True
  | NonError (Renders _) _ => True
  | NonError (Raises (ErrorObj _)) _ => True
  | NonError (Raises (NonError _ (Renders _))) _ => True
  | NonError (Raises (NonError _ (Raises _))) _ => False
  end.

(** What escapes [solveODESafe] was thrown while a value that the
    derivative function threw was converted to a string: the value was not
    an [Error], the template literal of the loop's [catch] block could not
    convert it and threw a second value, not an [Error] either, and
    [String] could not convert that one. *)
Lemma escaped_exception fuel system config e :
  solveODESafe fuel system config = Some (Throw e) →
  ∃ s c c', system.(equations) s config.(cfg_parameters)
            = Throw (NonError (Raises (NonError c (Raises e))) c').
Proof.
  unfold solveODESafe.
  destruct (solveODE fuel system config) as [r|] eqn:Hrun; [|done].
  destruct r as [trajectory|[msg|c [text|e']]]; simpl; try done.
  intros [= ->]. revert Hrun. unfold solveODE.
  destruct (validateSolverConfig config system) as [msg|]; [done|].
  destruct (hasInvalidValues _); [done|].
  destruct (while _ _ _ _ _) as [[v|e']|] eqn:Hw; [| |done].
  { unfold finish. by destruct (_ <=? _)%float. }
  intros [= ->].
  destruct (while_throws _ _ _ _ _ _ Hw) as (n & w & _ & _ & _ & Hbody).
  apply loopBody_throws in Hbody as [[time [=]]|(x & Hstep & Hx)].
  apply rk4Step_throws_from in Hstep as [(la & lb & ->)|[s Hs]]; [done|].
  destruct x as [msg|[text|x'] c']; simpl in Hx; try done.
  subst x'. by exists s, c, c'.
Qed.

Lemma reportable_not_escaped system config :
  (∀ s e, system.(equations) s config.(cfg_parameters) = Throw e → reportable e) →
  ∀ fuel e, solveODESafe fuel system config ≠ Some (Throw e).
Proof.
  intros Hf fuel e (s & c & c' & Hs)%escaped_exception.
  exact (Hf _ _ Hs).
Qed.

(** ** A run that ends the process *)

(** One state variable that does not move. *)
Definition stillSystem : ODESystem :=
  {| sys_id := "still"; sys_name := "Still"; description := "";
     stateVariables := ["x"]%string; sys_parameters := [];
     defaultInitialConditions := [1%float];
     equations := λ _ _, Ok [0%float] |}.

(** Unit steps up to [2^60]: a valid configuration, with a budget of
    [2^60 + 1], which binary64 rounds to [2^60]. *)
Definition longHorizonConfig : SolverConfig :=
  {| dt := 1; tMax := 0x1p60; initialConditions := [1%float];
     cfg_parameters := ∅ |}.

(** On this run [t] and [stepCount] count together, and stay below
    [2^60]. *)
Definition counting (v : Vars) : Prop :=
  v.(state) = [1%float]
  ∧ (∃ n, (0 <= n <= 2 ^ 53)%Z ∧ is_count n v.(t))
  ∧ (∃ n, (0 <= n <= 2 ^ 53)%Z ∧ is_count n v.(stepCount)).

Lemma is_count_next n x :
  (0 <= n <= 2 ^ 53)%Z → is_count n x →
  ∃ n', (0 <= n' <= 2 ^ 53)%Z ∧ is_count n' (x + 1)%float.
Proof.
  intros Hn Hx. destruct (Z.eq_dec n (2 ^ 53)%Z) as [->|Hne].
  - exists (2 ^ 53)%Z. split; [lia|].
    rewrite (is_count_top _ Hx), increment_absorbed. right. split; [lia|].
    exists 4503599627370496%positive, 1%Z.
    split; [reflexivity|]. split; [lia|]. split; reflexivity.
  - exists (n + 1)%Z. split; [lia|]. apply is_count_succ; [done|lia].
Qed.

Lemma counting_step v :
  counting v →
  loopCondition longHorizonConfig (maxStepsOf longHorizonConfig) v = true
  ∧ ∃ v', loopBody stillSystem longHorizonConfig v = Ok v' ∧ counting v'.
Proof.
  intros (Hstate & (n & Hn & Ht) & (k & Hk & Hc)). split.
  - unfold loopCondition.
    change (maxStepsOf longHorizonConfig) with 0x1p60%float.
    change (tMax longHorizonConfig) with 0x1p60%float.
    by rewrite (is_count_below n), (is_count_below k).
  - unfold loopBody. rewrite Hstate.
    change (rk4Step _ _ _ _) with (@Ok (list float) [1%float]).
    change (hasInvalidValues [1%float]) with false. cbv iota.
    eexists. split; [reflexivity|].
    unfold counting. cbn [state t stepCount dt longHorizonConfig].
    split; [reflexivity|].
    split; [exact (is_count_next n _ Hn Ht)|exact (is_count_next k _ Hk Hc)].
Qed.

(** The loop goes on until the host has no room for the next point. *)
Lemma counting_exhausts_memory host (fuel : nat) v :
  counting v →
  (host.(room) < arrayLimit)%Z →
  (Z.of_nat (length v.(pts)) <= host.(room))%Z →
  (host.(room) < Z.of_nat (length v.(pts)) + Z.of_nat fuel)%Z →
  whileOn host stillSystem longHorizonConfig (maxStepsOf longHorizonConfig) fuel v
  = Some OutOfMemory.
Proof.
  intros Hv Hlimit. revert v Hv.
  induction fuel as [|fuel IH]; intros v Hv Hlen Hfuel; [lia|].
  destruct (counting_step v Hv) as (Hcond & v' & Hbody & Hv').
  cbn [whileOn]. rewrite Hcond, loopBodyOn_loopBody, Hbody.
  destruct (Z.leb_spec arrayLimit (Z.of_nat (length (pts v)))); [lia|].
  destruct (Z.leb_spec (room host) (Z.of_nat (length (pts v)))); [done|].
  destruct (loopBody_ok _ _ _ _ Hbody) as (_ & _ & _ & _ & Hpts).
  apply IH; [done|rewrite Hpts, length_app; simpl; lia..].
Qed.

(** C6 (counterexample).  Not every input gets an outcome: on
    [stillSystem] with unit steps up to [2^60] the configuration is valid
    and the derivative function does not throw, the loop stores a point
    at every step, and on every host whose memory holds fewer points than
    an array can have elements the run ends when the memory is
    exhausted: the process is ended and [solveODESafe] returns
    nothing. *)
Lemma solver_can_exhaust_memory :
  validateSolverConfig longHorizonConfig stillSystem = None
  ∧ neverThrows stillSystem.(equations)
  ∧ ∀ host, (host.(room) < arrayLimit)%Z →
      ∃ fuel, ∀ fuel', fuel ≤ fuel' →
        solveODESafeOn host fuel' stillSystem longHorizonConfig = Some OutOfMemory.
Proof.
  split; [reflexivity|]. split; [intros s p; by eexists|].
  intros host Hlimit. exists (Z.to_nat host.(room)). intros fuel' Hfuel.
  unfold solveODESafeOn, solveODEOn.
  change (validateSolverConfig longHorizonConfig stillSystem) with (@None Message).
  change (hasInvalidValues (initialConditions longHorizonConfig)) with false.
  cbv iota. rewrite push_first.
  destruct (Z.leb_spec (room host) 0) as [Hnone|Hsome]; [done|].
  rewrite counting_exhausts_memory; [done| |done| |].
  - split; [done|]. split; exists 0%Z; (split; [lia|by left]).
  - cbn [pts length]. lia.
  - cbn [pts length]. lia.
Qed.

(** On every host and every input the run of [solveODESafe] ends, in one
    of four ways: it returns a success, with the trajectory [solveODE]
    returns when there is room for every point; it returns a failure with
    the message of what [solveODE] threw; it lets an exception escape,
    which takes a value thrown by the derivative function that cannot be
    converted; or the host ends the process, which takes a valid
    configuration whose step budget is not below the room of the host. *)
Lemma run_on_host_ends host system config :
  ∃ fuel ending,
    (∀ fuel', fuel ≤ fuel' → solveODESafeOn host fuel' system config = Some ending)
    ∧ match ending with
      | Completed (Ok (Success trajectory)) =>
          solveODE fuel system config = Some (Ok trajectory)
      | Completed (Ok (Failure msg)) =>
          (solveODESafe fuel system config = Some (Ok (Failure msg))
           ∨ (msg = invalidArrayLength
              ∧ ∀ budget, is_count budget (maxStepsOf config) →
                          (arrayLimit <= budget)%Z))
          ∧ (neverThrows system.(equations) →
             is_Some (kindOf msg) ∨ msg = invalidArrayLength)
      | Completed (Throw e) =>
          solveODESafe fuel system config = Some (Throw e)
      | OutOfMemory =>
          validateSolverConfig config system = None
          ∧ (host.(room) < arrayLimit)%Z
          ∧ ∀ budget, is_count budget (maxStepsOf config) →
                      (host.(room) <= budget)%Z
      end.
Proof.
  destruct (solveODEOn_ends host system config) as [r Hrun].
  set (fuel := Z.to_nat arrayLimit) in *.
  assert (Hmore : ∀ fuel', fuel ≤ fuel' →
                    solveODEOn host fuel' system config = Some r)
    by (by apply solveODEOn_more_fuel).
  assert (Hsafe : ∀ ending,
            (match r with
             | Completed r' => Completed (caught r')
             | OutOfMemory => OutOfMemory
             end) = ending →
            ∀ fuel', fuel ≤ fuel' →
              solveODESafeOn host fuel' system config = Some ending).
  { intros ending <- fuel' Hle. unfold solveODESafeOn. rewrite (Hmore fuel' Hle).
    by destruct r. }
  destruct r as [[trajectory|e]|].
  - exists fuel, (Completed (Ok (Success trajectory))).
    split; [by apply Hsafe|]. by apply (solveODEOn_returned host).
  - pose proof (solveODEOn_thrown _ _ _ _ _ Hrun) as Hbase.
    destruct (caught (Throw e)) as [[trajectory|msg]|e'] eqn:Hcaught.
    + by destruct e as [msg|c [text|e']].
    + exists fuel, (Completed (Ok (Failure msg))). split; [by apply Hsafe|].
      split.
      * destruct Hbase as [Hbase|(-> & _ & Hbudget)].
        -- left. unfold solveODESafe. by rewrite Hbase, Hcaught.
        -- right. simpl in Hcaught. injection Hcaught as <-. done.
      * intros Hf.
        destruct (solveODEOn_throws _ _ _ _ _ Hf Hrun) as (msg' & -> & Hkind).
        simpl in Hcaught. injection Hcaught as ->. done.
    + exists fuel, (Completed (Throw e')). split; [by apply Hsafe|].
      destruct Hbase as [Hbase|(-> & _)]; [|done].
      unfold solveODESafe. by rewrite Hbase, Hcaught.
  - exists fuel, OutOfMemory. split; [by apply Hsafe|].
    by apply (out_of_memory_needs_budget host fuel).
Qed.

(** C6 (amended).  For every input whose derivative function throws
    nothing but what the [catch] blocks can put into a message, and whose
    step budget [ceil(tMax / dt) + 1] is below the number of points the
    host has room for and below the length an array can have, the run of
    [solveODESafe] ends and returns an outcome: [Success] with the
    trajectory [solveODE] returned, or [Failure] with the message of what
    [solveODE] threw.  The failure carries the message and no separate
    kind; when the derivative function does not throw, the message is one
    of the solver's own, which determines the kind. *)
Theorem solver_returns_structured_outcome :
  ∀ host system config budget,
    (∀ s e, system.(equations) s config.(cfg_parameters) = Throw e → reportable e) →
    (validateSolverConfig config system = None →
     is_count budget (maxStepsOf config)
     ∧ (budget < host.(room))%Z ∧ (budget < arrayLimit)%Z) →
    ∃ fuel outcome,
      (∀ fuel', fuel ≤ fuel' →
         solveODESafeOn host fuel' system config = Some (Completed (Ok outcome)))
      ∧ solveODESafe fuel system config = Some (Ok outcome)
      ∧ match outcome with
        | Success trajectory =>
            solveODE fuel system config = Some (Ok trajectory)
        | Failure msg =>
            (∃ e, solveODE fuel system config = Some (Throw e)
                  ∧ caught (Throw e) = Ok (Failure msg))
            ∧ (neverThrows system.(equations) →
               solveODE fuel system config = Some (Throw (ErrorObj msg))
               ∧ is_Some (kindOf msg))
        end.
Proof.
  intros host system config budget Hthrown Hbudget.
  destruct (run_on_host_ends host system config) as (fuel & ending & Hrun & Hending).
  destruct ending as [[[trajectory|msg]|e]|].
  - exists fuel, (Success trajectory). split; [done|].
    split; [by apply solveODESafe_success|done].
  - destruct Hending as [[Hbase|(-> & Hfull)] _].
    + exists fuel, (Failure msg). split; [done|]. split; [done|].
      unfold solveODESafe in Hbase.
      destruct (solveODE fuel system config) as [[trajectory|e]|] eqn:Hsolve;
        try done.
      injection Hbase as Hcaught. split; [by exists e|].
      intros Hf. destruct (solveODE_throws _ _ _ _ Hf Hsolve) as (msg' & -> & Hkind).
      simpl in Hcaught. by injection Hcaught as ->.
    + exfalso.
      destruct (validateSolverConfig config system) as [msg|] eqn:Hvalid.
      * specialize (Hrun fuel (Nat.le_refl _)).
        unfold solveODESafeOn, solveODEOn in Hrun. rewrite Hvalid in Hrun.
        injection Hrun as Hmsg. rewrite Hmsg in Hvalid.
        by destruct (validateSolverConfig_rule_defined _ _ _ Hvalid).
      * destruct (Hbudget eq_refl) as (Hcount & _ & Hlimit).
        specialize (Hfull budget Hcount). lia.
  - exfalso. by apply (reportable_not_escaped system config Hthrown fuel e).
  - exfalso. destruct Hending as (Hvalid & _ & Hroom).
    destruct (Hbudget Hvalid) as (Hcount & Hbelow & _).
    specialize (Hroom budget Hcount). lia.
Qed.

(** C6 (amended) on the quarter-step Lorenz run, whose budget is 5, on a
    host with room for a thousand points. *)
Lemma solver_returns_structured_outcome_witness :
  ∃ fuel outcome,
    solveODESafeOn {| room := 1000 |} fuel lorenzSystem lorenzQuarterSteps
    = Some (Completed (Ok outcome)).
Proof.
  destruct (solver_returns_structured_outcome {| room := 1000 |}
              lorenzSystem lorenzQuarterSteps 5)
    as (fuel & outcome & Hrun & _).
  - intros s e. discriminate.
  - intros _. split; [|split; reflexivity].
    right. split; [lia|].
    exists 5629499534213120%positive, (-50)%Z.
    split; [vm_compute; reflexivity|]. split; [lia|]. split; reflexivity.
  - exists fuel, outcome. apply Hrun. apply Nat.le_refl.
Defined.

(** On a host with room for a thousand points the quarter-step Lorenz
    run returns its five points; a derivative function that throws a
    symbol makes the run fail with the message of the [TypeError] of the
    template literal; one that throws an object that cannot be converted,
    twice over, makes [solveODESafe] throw. *)
Definition throwingSystem (e : thrown) : ODESystem :=
  {| sys_id := "throwing"; sys_name := "Throwing"; description := "";
     stateVariables := ["x"]%string; sys_parameters := [];
     defaultInitialConditions := [0%float];
     equations := λ _ _, Throw e |}.

Definition throwingConfig : SolverConfig :=
  {| dt := 0.25; tMax := 1; initialConditions := [0%float]; cfg_parameters := ∅ |}.

Lemma outcomes_on_a_host :
  let host := {| room := 1000 |} in
  (∃ trajectory,
     solveODESafeOn host 10 lorenzSystem lorenzQuarterSteps
     = Some (Completed (Ok (Success trajectory)))
     ∧ length trajectory.(points) = 5%nat)
  ∧ solveODESafeOn host 10 (throwingSystem (symbolValue "s")) throwingConfig
    = Some (Completed (Ok (Failure
              (ForeignMessage "Cannot convert a Symbol value to a string"))))
  ∧ solveODESafeOn host 10
      (throwingSystem (NonError (Raises opaqueValue) (Raises opaqueValue))) throwingConfig
    = Some (Completed (Throw
              (ErrorObj (ForeignMessage "Cannot convert object to primitive value")))).
Proof.
  split; [|split].
  - vm_compute. eexists. split; reflexivity.
  - vm_compute. reflexivity.
  - vm_compute. reflexivity.
Qed.

(** * Storage

    The solver over a heap of arrays and objects, to see what it shares
    with its caller.  A reference is the position of a cell; allocation
    adds a cell at the end.  The derivative function is taken to be pure:
    it reads its two arguments and returns a new array. *)

Inductive cell : Type :=
  | NumberArray (xs : list float)
  | ParameterObject (m : gmap string float).

Abbreviation heap := (list cell).
Abbreviation loc := nat.

Definition readArray (h : heap) (l : loc) : list float :=
  match h !! l with
  | Some (NumberArray xs) => xs
  | _ => []
  end.

Definition readObject (h : heap) (l : loc) : gmap string float :=
  match h !! l with
  | Some (ParameterObject m) => m
  | _ => ∅
  end.

Definition Heaped (A : Type) : Type := heap → result A * heap.

Definition hbind {A B} (m : Heaped A) (k : A → Heaped B) : Heaped B :=
  λ h, match m h with
       | (Ok a, h') => k a h'
       | (Throw e, h') => (Throw e, h')
       end.

Notation "x ⇐ m ; k" := (hbind m (λ x, k))
  (at level 20, m at level 100, k at level 200, only parsing).

(** Allocation puts the new cell at the end; its address is its position. *)
Definition alloc (xs : list float) (h : heap) : loc * heap :=
  (length h, h ++ [NumberArray xs]).

Definition newArray (xs : list float) : Heaped loc :=
  λ h, let '(l, h') := alloc xs h in (Ok l, h').

Definition getArray (l : loc) : Heaped (list float) := λ h, (Ok (readArray h l), h).
Definition getObject (l : loc) : Heaped (gmap string float) :=
  λ h, (Ok (readObject h l), h).

Definition liftResult (r : result (list float)) : Heaped loc :=
  match r with
  | Ok xs => newArray xs
  | Throw e => λ h, (Throw e, h)
  end.

Definition addAt (a b : loc) : Heaped loc :=
  xs ⇐ getArray a;
  ys ⇐ getArray b;
  liftResult (add xs ys).

Definition scaleAt (v : loc) (scalar : float) : Heaped loc :=
  xs ⇐ getArray v;
  newArray (scale xs scalar).

Definition callAt (f : list float → gmap string float → result (list float))
    (s params : loc) : Heaped loc :=
  xs ⇐ getArray s;
  m ⇐ getObject params;
  liftResult (f xs m).

Definition rk4StepAt (f : list float → gmap string float → result (list float))
    (state params : loc) (dt : float) : Heaped loc :=
  k1 ⇐ callAt f state params;
  h1 ⇐ scaleAt k1 (dt / 2)%float;
  s1 ⇐ addAt state h1;
  k2 ⇐ callAt f s1 params;
  h2 ⇐ scaleAt k2 (dt / 2)%float;
  s2 ⇐ addAt state h2;
  k3 ⇐ callAt f s2 params;
  h3 ⇐ scaleAt k3 dt;
  s3 ⇐ addAt state h3;
  k4 ⇐ callAt f s3 params;
  d2 ⇐ scaleAt k2 2%float;
  left ⇐ addAt k1 d2;
  d3 ⇐ scaleAt k3 2%float;
  right ⇐ addAt d3 k4;
  weightedSum ⇐ addAt left right;
  scaled ⇐ scaleAt weightedSum (dt / 6)%float;
  addAt state scaled.

Lemma read_old_array (h ext : heap) l :
  l < length h → readArray (h ++ ext) l = readArray h l.
Proof. intros Hl. unfold readArray. by rewrite lookup_app_l. Qed.

Lemma read_old_object (h ext : heap) l :
  l < length h → readObject (h ++ ext) l = readObject h l.
Proof. intros Hl. unfold readObject. by rewrite lookup_app_l. Qed.

Lemma read_new_array (h : heap) xs :
  readArray (h ++ [NumberArray xs]) (length h) = xs.
Proof. unfold readArray. by rewrite list_lookup_middle. Qed.

(** [stored h l xs]: [l] is an array of [h] holding [xs]. *)
Definition stored (h : heap) (l : loc) (xs : list float) : Prop :=
  l < length h ∧ readArray h l = xs.

Lemma stored_extend h ext l xs : stored h l xs → stored (h ++ ext) l xs.
Proof.
  intros [Hl Hx]. split; [rewrite length_app; lia|]. by rewrite read_old_array.
Qed.


Definition storedObject (h : heap) (l : loc) (m : gmap string float) : Prop :=
  l < length h ∧ readObject h l = m.

Lemma storedObject_extend h ext l m :
  storedObject h l m → storedObject (h ++ ext) l m.
Proof.
  intros [Hl Hx]. split; [rewrite length_app; lia|]. by rewrite read_old_object.
Qed.

(** [simulates m pure h]: run in [h], the heap computation [m] does what
    the computation on values [pure] does, adds cells at the end of [h] and
    changes nothing else; the array it returns is among the added cells. *)
Definition simulates (m : Heaped loc) (pure : result (list float)) (h : heap)
    : Prop :=
  ∃ ext,
    match pure with
    | Ok xs => ∃ l, m h = (Ok l, h ++ ext) ∧ length h ≤ l ∧ stored (h ++ ext) l xs
    | Throw e => m h = (Throw e, h ++ ext)
    end.

Lemma simulates_extend (m : Heaped loc) (k : loc → Heaped loc)
    (pure : result (list float)) (kp : list float → result (list float)) h :
  simulates m pure h →
  (∀ l xs ext, pure = Ok xs → length h ≤ l → stored (h ++ ext) l xs →
               simulates (k l) (kp xs) (h ++ ext)) →
  simulates (hbind m k) (pure ≫= kp) h.
Proof.
  intros [ext Hm] Hk. destruct pure as [xs|e].
  - destruct Hm as (l & Hrun & Hl & Hst).
    destruct (Hk l xs ext eq_refl Hl Hst) as [ext' Hk'].
    exists (ext ++ ext'). rewrite app_assoc. unfold hbind. rewrite Hrun.
    change (Ok xs ≫= kp) with (kp xs).
    destruct (kp xs) as [ys|e]; [|done].
    destruct Hk' as (l' & Hrun' & Hl' & Hst'). exists l'.
    split; [done|]. split; [|done]. rewrite length_app in Hl'. lia.
  - exists ext. unfold hbind. by rewrite Hm.
Qed.

Lemma liftResult_simulates (r : result (list float)) h :
  simulates (liftResult r) r h.
Proof.
  destruct r as [xs|e]; simpl.
  - exists [NumberArray xs], (length h). split; [done|]. split; [lia|].
    split; [rewrite length_app; simpl; lia|apply read_new_array].
  - exists []. by rewrite app_nil_r.
Qed.

Lemma simulates_run (m m' : Heaped loc) pure h :
  m h = m' h → simulates m' pure h → simulates m pure h.
Proof. unfold simulates. by intros ->. Qed.

Lemma addAt_simulates a b xs ys h :
  stored h a xs → stored h b ys → simulates (addAt a b) (add xs ys) h.
Proof.
  intros [_ Ha] [_ Hb].
  apply (simulates_run _ (liftResult (add xs ys))); [|apply liftResult_simulates].
  unfold addAt, hbind, getArray. by rewrite Ha, Hb.
Qed.

Lemma scaleAt_simulates v c xs h :
  stored h v xs → simulates (scaleAt v c) (Ok (scale xs c)) h.
Proof.
  intros [_ Hv].
  apply (simulates_run _ (liftResult (Ok (scale xs c)))); [|apply liftResult_simulates].
  unfold scaleAt, hbind, getArray. by rewrite Hv.
Qed.

Lemma callAt_simulates f s p xs m h :
  stored h s xs → storedObject h p m → simulates (callAt f s p) (f xs m) h.
Proof.
  intros [_ Hs] [_ Hp].
  apply (simulates_run _ (liftResult (f xs m))); [|apply liftResult_simulates].
  unfold callAt, hbind, getArray, getObject. by rewrite Hs, Hp.
Qed.

Lemma simulates_scale v c xs (k : loc → Heaped loc) pure h :
  stored h v xs →
  (∀ l ext, length h ≤ l → stored (h ++ ext) l (scale xs c) →
            simulates (k l) pure (h ++ ext)) →
  simulates (hbind (scaleAt v c) k) pure h.
Proof.
  intros Hv Hk.
  apply (simulates_extend (scaleAt v c) k (Ok (scale xs c)) (λ _, pure)).
  - by apply scaleAt_simulates.
  - intros l ys ext [= <-] Hl Hst. by apply Hk.
Qed.

(** Carry what is known about the heap over to its extension. *)
Ltac extend_stored ext :=
  repeat match goal with
         | H : stored ?h ?l ?xs |- context [?h ++ ext] =>
             lazymatch goal with
             | _ : stored (h ++ ext) l xs |- _ => fail
             | _ => pose proof (stored_extend h ext l xs H)
             end
         | H : storedObject ?h ?l ?m |- context [?h ++ ext] =>
             lazymatch goal with
             | _ : storedObject (h ++ ext) l m |- _ => fail
             | _ => pose proof (storedObject_extend h ext l m H)
             end
         end.

Lemma rk4StepAt_simulates f s p (h : float) xs m hp :
  stored hp s xs → storedObject hp p m →
  simulates (rk4StepAt f s p h) (rk4Step f xs m h) hp.
Proof.
  intros Hs Hp. unfold rk4StepAt, rk4Step.
  repeat first
    [ eapply (simulates_extend (callAt f _ p) _ (f _ m));
        [by eapply callAt_simulates|
         let ext := fresh "ext" in intros ? ? ext _ _ ?; extend_stored ext]
    | eapply simulates_scale;
        [eassumption|
         let ext := fresh "ext" in intros ? ext _ ?; extend_stored ext]
    | eapply (simulates_extend (addAt _ _) _ (add _ _));
        [by eapply addAt_simulates|
         let ext := fresh "ext" in intros ? ? ext _ _ ?; extend_stored ext] ].
  by eapply addAt_simulates.
Qed.

(** ** The solver over the heap *)

(** The loop variables, [state] being a reference, and the stored points
    [{ t, state }], each with the reference of its own array. *)
Record VarsAt := {
  t_at : float;
  state_at : loc;
  stepCount_at : float;
  pts_at : list (float * loc)
}.

Record ConfigAt := {
  dt_at : float;
  tMax_at : float;
  initialConditions_at : loc;
  parameters_at : loc
}.

Record TrajectoryAt := {
  points_at : list (float * loc);
  variables_at : list string
}.

(** What the references of a configuration, of the loop variables and of a
    trajectory hold in a heap. *)
Definition configOf (h : heap) (c : ConfigAt) : SolverConfig :=
  {| dt := c.(dt_at); tMax := c.(tMax_at);
     initialConditions := readArray h c.(initialConditions_at);
     cfg_parameters := readObject h c.(parameters_at) |}.

Definition pointOf (h : heap) (p : float * loc) : TrajectoryPoint :=
  {| pt_t := p.1; pt_state := readArray h p.2 |}.

Definition varsOf (h : heap) (v : VarsAt) : Vars :=
  {| t := v.(t_at); state := readArray h v.(state_at);
     stepCount := v.(stepCount_at); pts := map (pointOf h) v.(pts_at) |}.

Definition trajectoryOf (h : heap) (tr : TrajectoryAt) : Trajectory :=
  {| points := map (pointOf h) tr.(points_at); variables := tr.(variables_at) |}.

Definition loopConditionAt (c : ConfigAt) (maxSteps : float) (v : VarsAt) : bool :=
  (v.(t_at) <? c.(tMax_at))%float && (v.(stepCount_at) <? maxSteps)%float.

(** The loop body: [rk4Step] returns a new array, which becomes [state];
    the point pushed holds a copy of it, [[...state]]. *)
Definition loopBodyAt (system : ODESystem) (c : ConfigAt) (v : VarsAt)
    : Heaped VarsAt :=
  λ h,
    match rk4StepAt system.(equations) v.(state_at) c.(parameters_at) c.(dt_at) h with
    | (Ok state', h1) =>
        let t' := (v.(t_at) + c.(dt_at))%float in
        let stepCount' := (v.(stepCount_at) + 1)%float in
        if hasInvalidValues (readArray h1 state')
        then (Throw (ErrorObj (NumericalInstability t')), h1)
        else
          let '(copy, h2) := alloc (readArray h1 state') h1 in
          (Ok {| t_at := t'; state_at := state'; stepCount_at := stepCount';
                 pts_at := v.(pts_at) ++ [(t', copy)] |}, h2)
    | (Throw e, h1) => (Throw (rethrown v.(t_at) e), h1)
    end.

Fixpoint whileAt (system : ODESystem) (c : ConfigAt) (maxSteps : float)
    (fuel : nat) (v : VarsAt) (h : heap) : option (result VarsAt * heap) :=
  if loopConditionAt c maxSteps v then
    match fuel with
    | O => None
    | S fuel' =>
        match loopBodyAt system c v h with
        | (Ok v', h') => whileAt system c maxSteps fuel' v' h'
        | (Throw e, h') => Some (Throw e, h')
        end
    end
  else Some (Ok v, h).

(** [solveODE] over the heap, up to the end of the loop:
    [[...initialConditions]] and [[...state]] allocate copies; nothing
    writes to a cell that exists. *)
Definition integrateAt (fuel : nat) (system : ODESystem) (c : ConfigAt) (h : heap)
    : option (result VarsAt * heap) :=
  let config := configOf h c in
  match validateSolverConfig config system with
  | Some validationError => Some (Throw (ErrorObj validationError), h)
  | None =>
      let '(state0, h1) := alloc (readArray h c.(initialConditions_at)) h in
      if hasInvalidValues (readArray h1 state0)
      then Some (Throw (ErrorObj InitialInvalid), h1)
      else
        let '(copy, h2) := alloc (readArray h1 state0) h1 in
        whileAt system c (maxStepsOf config) fuel
          {| t_at := 0; state_at := state0; stepCount_at := 0;
             pts_at := [(0%float, copy)] |} h2
  end.

(** The step-budget check and the returned object. *)
Definition solveODEAt (fuel : nat) (system : ODESystem) (c : ConfigAt) (h : heap)
    : option (result TrajectoryAt * heap) :=
  match integrateAt fuel system c h with
  | None => None
  | Some (Throw e, h') => Some (Throw e, h')
  | Some (Ok v, h') =>
      if (maxStepsOf (configOf h c) <=? v.(stepCount_at))%float
      then Some (Throw (ErrorObj MaxStepsExceeded), h')
      else Some (Ok {| points_at := v.(pts_at);
                       variables_at := system.(stateVariables) |}, h')
  end.

(** ** The heap solver against the solver on values *)

(** The references the loop holds are arrays allocated since the call
    ([h0] is the heap at the call): the [state] array and one array per
    stored point, all different. *)
Definition ownsFresh (h0 h : heap) (v : VarsAt) : Prop :=
  length h0 ≤ v.(state_at) < length h
  ∧ NoDup (map snd v.(pts_at))
  ∧ (∀ l, l ∈ map snd v.(pts_at) → length h0 ≤ l < length h)
  ∧ v.(state_at) ∉ map snd v.(pts_at).

Lemma points_extend (h ext : heap) (ps : list (float * loc)) :
  (∀ l, l ∈ map snd ps → l < length h) →
  map (pointOf (h ++ ext)) ps = map (pointOf h) ps.
Proof.
  intros Hps. apply map_ext_in. intros [x l] Hin. unfold pointOf. simpl.
  rewrite read_old_array; [done|]. apply Hps.
  apply list_elem_of_In. by apply (in_map snd) in Hin.
Qed.

Lemma loopBodyAt_simulates system c (h0 ext0 : heap) v :
  c.(parameters_at) < length h0 →
  ownsFresh h0 (h0 ++ ext0) v →
  let h := h0 ++ ext0 in
  ∃ ext,
    snd (loopBodyAt system c v h) = h ++ ext
    ∧ match loopBody system (configOf h0 c) (varsOf h v) with
      | Ok v' => ∃ va, fst (loopBodyAt system c v h) = Ok va
                       ∧ varsOf (h ++ ext) va = v'
                       ∧ ownsFresh h0 (h ++ ext) va
      | Throw e => fst (loopBodyAt system c v h) = Throw e
      end.
Proof.
  intros Hparams (Hstate & Hnodup & Hrange & Hnotin) h. subst h.
  pose proof (length_app h0 ext0) as Hlen.
  destruct (rk4StepAt_simulates system.(equations) v.(state_at) c.(parameters_at)
              c.(dt_at) (readArray (h0 ++ ext0) v.(state_at))
              (readObject h0 c.(parameters_at)) (h0 ++ ext0))
    as [ext1 Hstep].
  { split; [lia|done]. }
  { split; [rewrite length_app; lia|]. by apply read_old_object. }
  unfold loopBody, loopBodyAt. cbn [varsOf state t stepCount pts configOf
    equations cfg_parameters dt].
  destruct (rk4Step _ _ _ _) as [next|e].
  - destruct Hstep as (l & -> & Hl & Hl' & Hnext). rewrite Hnext.
    destruct (hasInvalidValues next); [by exists ext1|].
    unfold alloc. exists (ext1 ++ [NumberArray next]). rewrite app_assoc.
    split; [done|]. eexists. split; [done|].
    rewrite length_app in Hl'. split.
    + unfold varsOf. cbn [t_at state_at stepCount_at pts_at]. f_equal.
      * rewrite read_old_array by (rewrite length_app; lia). done.
      * rewrite map_app. cbn [map]. f_equal.
        -- rewrite <- (app_assoc (h0 ++ ext0)). apply points_extend.
           intros r Hr. apply Hrange in Hr. lia.
        -- unfold pointOf. cbn [fst snd]. by rewrite read_new_array.
    + unfold ownsFresh. cbn [t_at state_at stepCount_at pts_at].
      rewrite map_app, !length_app. cbn [map snd length].
      split; [lia|]. split; [|split].
      * apply NoDup_app. split; [done|]. split; [|apply NoDup_singleton].
        intros r Hr ->%list_elem_of_singleton. apply Hrange in Hr. lia.
      * intros r [Hr| ->%list_elem_of_singleton]%elem_of_app;
          [apply Hrange in Hr; lia|lia].
      * intros [Hr| ->%list_elem_of_singleton]%elem_of_app;
          [apply Hrange in Hr; lia|lia].
  - rewrite Hstep. exists ext1. by destruct e.
Qed.

Lemma whileAt_simulates system c (h0 : heap) maxSteps fuel :
  c.(parameters_at) < length h0 →
  ∀ ext0 v,
    ownsFresh h0 (h0 ++ ext0) v →
    match whileAt system c maxSteps fuel v (h0 ++ ext0) with
    | None =>
        while system (configOf h0 c) maxSteps fuel (varsOf (h0 ++ ext0) v) = None
    | Some (r, h') =>
        ∃ ext, h' = h0 ++ ext
          ∧ match r with
            | Ok va =>
                while system (configOf h0 c) maxSteps fuel (varsOf (h0 ++ ext0) v)
                = Some (Ok (varsOf h' va))
                ∧ ownsFresh h0 h' va
            | Throw e =>
                while system (configOf h0 c) maxSteps fuel (varsOf (h0 ++ ext0) v)
                = Some (Throw e)
            end
    end.
Proof.
  intros Hparams. induction fuel as [|fuel IH]; intros ext0 v Hown; simpl.
  - change (loopCondition (configOf h0 c) maxSteps (varsOf (h0 ++ ext0) v))
      with (loopConditionAt c maxSteps v).
    destruct (loopConditionAt c maxSteps v); [done|]. by exists ext0.
  - change (loopCondition (configOf h0 c) maxSteps (varsOf (h0 ++ ext0) v))
      with (loopConditionAt c maxSteps v).
    destruct (loopConditionAt c maxSteps v); [|by exists ext0].
    destruct (loopBodyAt_simulates system c h0 ext0 v Hparams Hown) as (ext & Hheap & Hbody).
    cbv zeta in Hheap, Hbody.
    destruct (loopBodyAt system c v (h0 ++ ext0)) as [r h1]. simpl in Hheap, Hbody.
    subst h1. rewrite <- app_assoc in *.
    destruct (loopBody system (configOf h0 c) (varsOf (h0 ++ ext0) v)) as [v'|e].
    + destruct Hbody as (va & -> & <- & Hown'). by apply IH.
    + rewrite Hbody. by exists (ext0 ++ ext).
Qed.

Definition resultOf (h : heap) (out : result TrajectoryAt) : result Trajectory :=
  match out with
  | Ok tr => Ok (trajectoryOf h tr)
  | Throw e => Throw e
  end.

(** What the solver on values does before the step-budget check. *)
Definition integrate (fuel : nat) (system : ODESystem) (config : SolverConfig)
    : option (result Vars) :=
  match validateSolverConfig config system with
  | Some validationError => Some (Throw (ErrorObj validationError))
  | None =>
      if hasInvalidValues config.(initialConditions)
      then Some (Throw (ErrorObj InitialInvalid))
      else while system config (maxStepsOf config) fuel (initialVars config)
  end.

Lemma solveODE_integrate fuel system config :
  solveODE fuel system config
  = match integrate fuel system config with
    | None => None
    | Some (Throw e) => Some (Throw e)
    | Some (Ok v) => Some (finish system config v)
    end.
Proof.
  unfold solveODE, integrate.
  destruct (validateSolverConfig config system); [done|].
  by destruct (hasInvalidValues _).
Qed.

(** The heap solver does what the solver on values does and only adds
    cells; the arrays its loop variables refer to were all allocated
    during the call and are all different. *)
Lemma integrateAt_simulates fuel system c (h : heap) :
  c.(initialConditions_at) < length h →
  c.(parameters_at) < length h →
  match integrateAt fuel system c h with
  | None => integrate fuel system (configOf h c) = None
  | Some (r, h') =>
      ∃ ext, h' = h ++ ext
        ∧ match r with
          | Ok va => integrate fuel system (configOf h c) = Some (Ok (varsOf h' va))
                     ∧ ownsFresh h h' va
          | Throw e => integrate fuel system (configOf h c) = Some (Throw e)
          end
  end.
Proof.
  intros Hic Hparams. unfold integrateAt, integrate.
  destruct (validateSolverConfig (configOf h c) system) as [msg|].
  { exists []. by rewrite app_nil_r. }
  unfold alloc. rewrite read_new_array.
  change (initialConditions (configOf h c)) with (readArray h (initialConditions_at c)).
  set (xs := readArray h (initialConditions_at c)).
  destruct (hasInvalidValues xs).
  { by exists [NumberArray xs]. }
  rewrite <- app_assoc.
  set (v0 := {| t_at := 0; state_at := length h; stepCount_at := 0;
                pts_at := [(0%float, length (h ++ [NumberArray xs]))] |}).
  set (ext0 := [NumberArray xs] ++ [NumberArray xs]).
  assert (Hown : ownsFresh h (h ++ ext0) v0).
  { unfold ownsFresh, v0, ext0. cbn [state_at pts_at map snd].
    rewrite !length_app. cbn [length].
    split; [lia|]. split; [apply NoDup_singleton|]. split.
    - intros l ->%list_elem_of_singleton. lia.
    - intros ?%list_elem_of_singleton. lia. }
  assert (Hv0 : varsOf (h ++ ext0) v0 = initialVars (configOf h c)).
  { unfold varsOf, initialVars, v0, ext0. cbn [t_at state_at stepCount_at pts_at map].
    unfold pointOf. cbn [fst snd initialConditions configOf].
    rewrite (app_assoc h), read_new_array.
    rewrite read_old_array by (rewrite length_app; simpl; lia).
    by rewrite read_new_array. }
  pose proof (whileAt_simulates system c h (maxStepsOf (configOf h c)) fuel
                Hparams ext0 v0 Hown) as Hloop.
  by rewrite Hv0 in Hloop.
Qed.

Lemma read_array_insert_ne (h : heap) l l' cell' :
  l ≠ l' → readArray (<[l := cell']> h) l' = readArray h l'.
Proof. intros Hne. unfold readArray. by rewrite list_lookup_insert_ne. Qed.

Lemma read_object_insert_ne (h : heap) l l' cell' :
  l ≠ l' → readObject (<[l := cell']> h) l' = readObject h l'.
Proof. intros Hne. unfold readObject. by rewrite list_lookup_insert_ne. Qed.

(** C9.  Run in a heap [h] that holds the configuration's array and
    parameter object, the solver, whether it returns or throws, leaves
    every cell of [h] as it was (it only allocates), so the configuration
    reads the same afterwards, and it computes what the solver on values
    computes.  The arrays of a returned trajectory are cells allocated
    during the call, one per point, all different from each other, from
    every cell of the caller and from the array the solver's own [state]
    variable refers to; so overwriting a trajectory array leaves the
    configuration as it was, and overwriting any cell of the caller leaves
    the trajectory as it was. *)
Theorem solver_never_mutates_inputs :
  ∀ fuel system c (h : heap) out h',
    c.(initialConditions_at) < length h →
    c.(parameters_at) < length h →
    solveODEAt fuel system c h = Some (out, h') →
    (∀ l, l < length h → h' !! l = h !! l)
    ∧ configOf h' c = configOf h c
    ∧ solveODE fuel system (configOf h c) = Some (resultOf h' out)
    ∧ match out with
      | Ok tr =>
          NoDup (map snd tr.(points_at))
          ∧ (∀ l, l ∈ map snd tr.(points_at) → length h ≤ l < length h')
          ∧ (∃ va, integrateAt fuel system c h = Some (Ok va, h')
                   ∧ tr.(points_at) = va.(pts_at)
                   ∧ length h ≤ va.(state_at)
                   ∧ va.(state_at) ∉ map snd tr.(points_at))
          ∧ (∀ l cell', l ∈ map snd tr.(points_at) →
                        configOf (<[l := cell']> h') c = configOf h c)
          ∧ (∀ l cell', l < length h →
                        trajectoryOf (<[l := cell']> h') tr = trajectoryOf h' tr)
      | Throw _ => True
      end.
Proof.
  intros fuel system c h out h' Hic Hparams Hrun.
  pose proof (integrateAt_simulates fuel system c h Hic Hparams) as Hsim.
  unfold solveODEAt in Hrun. rewrite solveODE_integrate.
  destruct (integrateAt fuel system c h) as [[[va|e] h1]|] eqn:Hint; [| |done].
  - destruct Hsim as (ext & -> & Hpure & Hstate & Hnodup & Hrange & Hnotin).
    rewrite Hpure. unfold finish. cbn [varsOf stepCount pts] in *.
    assert (Hframe : ∀ l, l < length h → (h ++ ext) !! l = h !! l)
      by (intros l Hl; by apply lookup_app_l).
    assert (Hcfg : ∀ h2 : heap,
              (∀ l, l < length h → h2 !! l = h !! l) → configOf h2 c = configOf h c).
    { intros h2 Hh2. unfold configOf, readArray, readObject. by rewrite !Hh2. }
    destruct (_ <=? _)%float; injection Hrun as <- <-.
    + by rewrite Hcfg.
    + split; [done|]. split; [by apply Hcfg|]. split; [done|].
      cbn [points_at]. split; [done|]. split; [done|]. split.
      { exists va. split; [done|]. split; [done|]. split; [lia|done]. }
      split.
      * intros l cell' Hl. apply Hrange in Hl. apply Hcfg.
        intros r Hr. rewrite list_lookup_insert_ne by lia. by apply Hframe.
      * intros l cell' Hl. unfold trajectoryOf. cbn [points_at variables_at].
        f_equal. apply map_ext_in. intros [x r] Hin. unfold pointOf. cbn [fst snd].
        f_equal. apply read_array_insert_ne.
        apply (in_map snd), list_elem_of_In, Hrange in Hin. simpl in Hin. lia.
  - destruct Hsim as (ext & -> & Hpure). injection Hrun as <- <-.
    rewrite Hpure.
    assert (Hframe : ∀ l, l < length h → (h ++ ext) !! l = h !! l)
      by (intros l Hl; by apply lookup_app_l).
    split; [done|]. split; [|done].
    unfold configOf, readArray, readObject. by rewrite !Hframe.
Qed.

(** A caller's heap with the Lorenz initial conditions and parameters. *)
Definition lorenzHeap : heap :=
  [NumberArray [1; 1; 1]%float; ParameterObject (defaultParameters lorenzSystem)].

Definition lorenzConfigAt : ConfigAt :=
  {| dt_at := 0.25; tMax_at := 1; initialConditions_at := 0; parameters_at := 1 |}.

(** C9 on the quarter-step Lorenz run. *)
Lemma solver_never_mutates_inputs_witness :
  ∃ out h',
    solveODEAt 10 lorenzSystem lorenzConfigAt lorenzHeap = Some (out, h')
    ∧ configOf h' lorenzConfigAt = configOf lorenzHeap lorenzConfigAt
    ∧ solveODE 10 lorenzSystem (configOf lorenzHeap lorenzConfigAt)
      = Some (resultOf h' out).
Proof.
  assert (Hrun : ∃ out h',
            solveODEAt 10 lorenzSystem lorenzConfigAt lorenzHeap = Some (out, h'))
    by (vm_compute; do 2 eexists; reflexivity).
  destruct Hrun as (out & h' & Hrun).
  destruct (solver_never_mutates_inputs 10 lorenzSystem lorenzConfigAt lorenzHeap
              out h') as (_ & Hcfg & Hpure & _).
  - simpl. lia.
  - simpl. lia.
  - exact Hrun.
  - exists out, h'. split; [exact Hrun|]. split; [exact Hcfg|exact Hpure].
Defined.

(** * Further properties of the solver *)

(** ** What a returned trajectory holds *)

Lemma add_length (a b r : list float) : add a b = Ok r → length r = length a.
Proof.
  unfold add. destruct (negb _) eqn:Hlen; [done|]. intros [= <-].
  apply negb_false_iff, Nat.eqb_eq in Hlen. rewrite length_zip_with. lia.
Qed.

(** Whatever the derivative function returns, a step that returns gives a
    state as long as the one it started from: the last [add] checked it. *)
Lemma rk4Step_length f (s : list float) p h s' :
  rk4Step f s p h = Ok s' → length s' = length s.
Proof.
  unfold rk4Step. intros Hs.
  repeat match type of Hs with
  | (?m ≫= _) = Ok _ => destruct m eqn:?; simpl in Hs; [|done]
  end.
  by eapply add_length.
Qed.

Lemma hasInvalidValues_false (s : list float) :
  hasInvalidValues s = false ↔ ∀ x, x ∈ s → isFinite x = true.
Proof.
  unfold hasInvalidValues. rewrite existsb_not_forallb, negb_false_iff.
  rewrite forallb_forall. split; intros Hs x Hx; apply Hs.
  - by apply list_elem_of_In.
  - by apply list_elem_of_In.
Qed.

(** A validated configuration: what the checks on the two times and on
    the initial conditions leave. *)
Lemma validated_horizon system config :
  validateSolverConfig config system = None →
  isFinite config.(tMax) = true ∧ (0 <? config.(tMax))%float = true
  ∧ length config.(initialConditions) = length system.(stateVariables).
Proof.
  unfold validateSolverConfig.
  destruct (isFinite (dt config)); [|done]. cbn [negb].
  destruct (dt config <=? 0)%float; [done|].
  destruct (tMax config <? dt config)%float; [done|].
  destruct (isFinite (tMax config)) eqn:Hfin; [|done]. cbn [negb].
  destruct (tMax config <=? 0)%float eqn:Hpos; [done|].
  destruct (negb _) eqn:Hlen; [done|]. intros _.
  rewrite not_positive_iff in Hpos by done.
  apply negb_false_iff in Hpos. apply negb_false_iff, Nat.eqb_eq in Hlen. done.
Qed.

Section RunFacts.
Variable system : ODESystem.
Variable config : SolverConfig.
Variable maxSteps : float.

(** The loop keeps the dimension of the state, and stores only states
    that passed the instability check. *)
Definition wellShaped (d : nat) (v : Vars) : Prop :=
  length v.(state) = d
  ∧ ∀ p, p ∈ v.(pts) →
      length p.(pt_state) = d ∧ hasInvalidValues p.(pt_state) = false.

Lemma steps_wellShaped d n v v' :
  steps system config maxSteps n v v' → wellShaped d v → wellShaped d v'.
Proof.
  induction 1 as [v|n v w v' Hc Hb _ IH]; [done|]. intros [Hlen Hpts].
  apply IH. destruct (loopBody_ok _ _ _ _ Hb) as (Hstep & Hfin & _ & _ & Hsnoc).
  apply rk4Step_length in Hstep. split; [congruence|].
  intros p. rewrite Hsnoc, elem_of_app, list_elem_of_singleton.
  intros [Hp| ->]; [by apply Hpts|]. simpl. split; [congruence|done].
Qed.

(** The last stored point carries the current time. *)
Lemma steps_last_point n v v' :
  steps system config maxSteps n v v' →
  (∃ init p, v.(pts) = init ++ [p] ∧ p.(pt_t) = v.(t)) →
  ∃ init p, v'.(pts) = init ++ [p] ∧ p.(pt_t) = v'.(t).
Proof.
  induction 1 as [v|n v w v' Hc Hb _ IH]; [done|]. intros _.
  apply IH. destruct (loopBody_ok _ _ _ _ Hb) as (_ & _ & _ & _ & Hsnoc).
  by eexists _, _.
Qed.
End RunFacts.

(** What a successful run of [solveODE] went through. *)
Lemma solveODE_returns fuel system config trajectory :
  solveODE fuel system config = Some (Ok trajectory) →
  validateSolverConfig config system = None
  ∧ ∃ n v,
      steps system config (maxStepsOf config) n (initialVars config) v
      ∧ loopCondition config (maxStepsOf config) v = false
      ∧ (maxStepsOf config <=? v.(stepCount))%float = false
      ∧ trajectory = {| points := v.(pts); variables := system.(stateVariables) |}.
Proof.
  unfold solveODE.
  destruct (validateSolverConfig config system) eqn:Hvalid; [done|].
  destruct (hasInvalidValues _); [done|].
  destruct (while _ _ _ _ _) as [[v|e]|] eqn:Hw; try done.
  unfold finish.
  destruct (maxStepsOf config <=? stepCount v)%float eqn:Hbudget; [done|].
  intros [= <-]. split; [done|].
  destruct (while_returns _ _ _ _ _ _ Hw) as (n & _ & Hsteps & Hexit).
  by exists n, v.
Qed.

(** The states a returned trajectory holds. *)
Lemma returned_states fuel system config trajectory :
  solveODE fuel system config = Some (Ok trajectory) →
  trajectory.(variables) = system.(stateVariables)
  ∧ ∀ p, p ∈ trajectory.(points) →
      length p.(pt_state) = length system.(stateVariables)
      ∧ ∀ x, x ∈ p.(pt_state) → isFinite x = true.
Proof.
  intros Hrun.
  destruct (solveODE_returns _ _ _ _ Hrun) as (Hvalid & n & v & Hsteps & _ & _ & ->).
  split; [done|]. cbn [points variables].
  destruct (validated_horizon _ _ Hvalid) as (_ & _ & Hlen).
  pose proof (validated_initial_finite _ _ Hvalid) as Hfin.
  destruct (steps_wellShaped _ _ _ (length system.(stateVariables)) _ _ _ Hsteps)
    as [_ Hpts].
  { split; [done|]. intros p [->|[]%elem_of_nil]%elem_of_cons. done. }
  intros p Hp. destruct (Hpts p Hp) as [Hd Hok].
  split; [done|]. by apply hasInvalidValues_false.
Qed.

(** X1.  Every point of a returned trajectory holds a state with one
    element per state variable, all of them finite numbers, and the
    trajectory names the variables of the system. *)
Theorem trajectory_states_finite :
  ∀ fuel system config trajectory,
    solveODE fuel system config = Some (Ok trajectory) →
    trajectory.(variables) = system.(stateVariables)
    ∧ ∀ p, p ∈ trajectory.(points) →
        length p.(pt_state) = length trajectory.(variables)
        ∧ ∀ x, x ∈ p.(pt_state) → isFinite x = true.
Proof.
  intros fuel system config trajectory Hrun.
  destruct (returned_states _ _ _ _ Hrun) as [Hvars Hpts].
  split; [done|]. by rewrite Hvars.
Qed.

Lemma trajectory_states_finite_witness :
  ∃ trajectory,
    solveODE 10 lorenzSystem lorenzQuarterSteps = Some (Ok trajectory)
    ∧ ∀ p, p ∈ trajectory.(points) → length p.(pt_state) = 3.
Proof.
  assert (Hrun : ∃ trajectory,
            solveODE 10 lorenzSystem lorenzQuarterSteps = Some (Ok trajectory))
    by (vm_compute; eexists; reflexivity).
  destruct Hrun as [trajectory Hrun]. exists trajectory. split; [exact Hrun|].
  intros p Hp.
  destruct (trajectory_states_finite 10 lorenzSystem lorenzQuarterSteps trajectory Hrun)
    as [Hvars Hpts].
  destruct (Hpts p Hp) as [Hlen _]. rewrite Hlen, Hvars. reflexivity.
Defined.

(** * Signs in binary64 arithmetic *)

Section Signs.
Local Open Scope Z_scope.

Lemma shr_fexp_nonneg m e l :
  0 <= m → 0 <= shr_m (shr_fexp prec emax m e l).1.
Proof.
  intros Hm. unfold shr_fexp, shr.
  destruct (fexp prec emax (Zdigits2 m + e) - e) as [|p|p]; cbn [fst].
  - by rewrite shr_m_of_loc.
  - rewrite iter_pos_shr_m by (by rewrite shr_m_of_loc).
    rewrite shr_m_of_loc. apply Z.div_pos; [done|]. apply Z.pow_pos_nonneg; lia.
  - by rewrite shr_m_of_loc.
Qed.

(** Rounding a mantissa that is not negative, with the sign bit clear,
    gives a zero, a positive number or the positive infinity. *)
Lemma binary_round_aux_nonneg m e l :
  0 <= m → nonneg_sf (binary_round_aux prec emax false m e l).
Proof.
  intros Hm. unfold binary_round_aux.
  pose proof (shr_fexp_nonneg m e l Hm) as H1.
  destruct (shr_fexp prec emax m e l) as [mrs' e'] eqn:E1. cbn [fst] in H1.
  pose proof (round_nearest_even_bounds (shr_m mrs') (loc_of_shr_record mrs')) as Hr.
  pose proof (shr_fexp_nonneg
                (round_nearest_even (shr_m mrs') (loc_of_shr_record mrs')) e'
                loc_Exact ltac:(lia)) as H2.
  destruct (shr_fexp prec emax _ e' loc_Exact) as [mrs'' e''] eqn:E2. cbn [fst] in H2.
  destruct (shr_m mrs'') as [|p|p]; [done| |lia].
  by destruct (e'' <=? emax - prec).
Qed.

Lemma binary_normalize_nonneg m e : 0 <= m → nonneg_sf (binary_normalize prec emax m e false).
Proof.
  intros Hm. destruct m as [|p|p]; [done| |lia]. cbn [binary_normalize].
  unfold binary_round. destruct (shl_align _ _ _) as [mz ez].
  by apply binary_round_aux_nonneg.
Qed.

(** The quotient of two positive finite numbers. *)
Lemma SFdiv_nonneg mx ex my ey :
  nonneg_sf (SFdiv prec emax (S754_finite false mx ex) (S754_finite false my ey)).
Proof.
  cbn [SFdiv xorb]. unfold SFdiv_core_binary.
  set (e' := Z.min _ _). set (s := ex - ey - e').
  set (m' := match s with 0 => Z.pos mx | Z.pos _ => Z.shiftl (Z.pos mx) s | Z.neg _ => 0 end).
  assert (Hm' : 0 <= m').
  { subst m'. destruct s as [|p|p]; [lia| |lia]. apply Z.shiftl_nonneg. lia. }
  pose proof (Z.div_pos m' (Z.pos my) Hm' ltac:(lia)) as Hq.
  unfold Z.div in Hq.
  destruct (Z.div_eucl m' (Z.pos my)) as [q r]. cbn [fst] in Hq.
  by apply binary_round_aux_nonneg.
Qed.

(** The sum of two numbers that are not negative. *)
Lemma SFadd_nonneg x y :
  nonneg_sf x → nonneg_sf y → nonneg_sf (SFadd prec emax x y).
Proof.
  destruct x as [sx|[]| |[] mx ex], y as [sy|[]| |[] my ey]; try done.
  - intros _ _. by destruct sx, sy.
  - intros _ _. cbn [SFadd cond_Zopp]. apply binary_normalize_nonneg. lia.
Qed.

(** The square of a number. *)
Lemma SFmul_square_nonneg x : x ≠ S754_nan → nonneg_sf (SFmul prec emax x x).
Proof.
  destruct x as [s|s| |s m e]; try done; intros _; cbn [SFmul]; rewrite xorb_nilpotent;
    try done.
  by apply binary_round_aux_nonneg.
Qed.

(** The square root of a number that is not negative. *)
Lemma SFsqrt_nonneg x : nonneg_sf x → nonneg_sf (SFsqrt prec emax x).
Proof.
  destruct x as [s|[]| |[] m e]; try done. intros _. cbn [SFsqrt].
  unfold SFsqrt_core_binary.
  set (e' := Z.min _ _). set (s := e - 2 * e').
  set (m' := match s with 0 => Z.pos m | Z.pos _ => Z.shiftl (Z.pos m) s | Z.neg _ => 0 end).
  assert (Hm' : 0 <= m').
  { subst m'. destruct s as [|p|p]; [lia| |lia]. apply Z.shiftl_nonneg. lia. }
  pose proof (Z.sqrtrem_spec m' Hm') as Hq.
  destruct (Z.sqrtrem m') as [q r].
  apply binary_round_aux_nonneg. nia.
Qed.
End Signs.

Section Budget.
Local Open Scope Z_scope.

(** [Math.ceil] of a number that is not negative. *)
Lemma ceil_nonneg x : nonneg_sf (Prim2SF x) → nonneg_sf (Prim2SF (ceil x)).
Proof.
  intros Hx. unfold ceil.
  destruct (Prim2SF x) as [s|s| |s m e] eqn:Ex; try by rewrite Ex.
  destruct (0 <=? e); [by rewrite Ex|].
  destruct s; [done|].
  rewrite of_uint63_spec. apply binary_normalize_nonneg.
  apply Uint63.to_Z_bounded.
Qed.

(** Adding one to a number that is not negative gives a positive number. *)
Lemma succ_positive x :
  nonneg_sf (Prim2SF x) → (0 <? x + 1)%float = true.
Proof.
  intros Hx.
  destruct (add_positive_grows x 1%float Hx) as [Hr Hcmp].
  { by exists 4503599627370496%positive, (-52). }
  rewrite FloatAxioms.ltb_spec, prim_zero. unfold SFltb.
  destruct Hcmp as [Hlt| Heq].
  - rewrite FloatAxioms.ltb_spec in Hlt. unfold SFltb in Hlt.
    destruct (Prim2SF x) as [s|[]| |[] m e], (Prim2SF (x + 1)%float) as [s'|[]| |[] m' e'];
      try done.
  - rewrite Heq.
    destruct (Prim2SF x) as [s|[]| |[] m e] eqn:Ex; try done.
    exfalso. assert (Hone : Prim2SF (x + 1)%float = SF64one).
    { rewrite FloatAxioms.add_spec, Ex. reflexivity. }
    rewrite Heq, Ex in Hone. done.
Qed.

(** The step budget of a validated configuration is a positive number. *)
Lemma maxSteps_positive system config :
  validateSolverConfig config system = None →
  (0 <? maxStepsOf config)%float = true.
Proof.
  intros Hvalid. unfold maxStepsOf. apply succ_positive, ceil_nonneg.
  destruct (validated_time_step _ _ Hvalid) as (md & ed & Hdt).
  destruct (validated_horizon _ _ Hvalid) as (Hfin & Hpos & _).
  rewrite FloatAxioms.div_spec, Hdt.
  apply is_finite_spec in Hfin as (s & [Hz|(m & e & Hf)]).
  - rewrite FloatAxioms.ltb_spec, Hz in Hpos. by destruct s.
  - rewrite FloatAxioms.ltb_spec, Hf in Hpos. rewrite Hf.
    destruct s; [done|]. apply SFdiv_nonneg.
Qed.
End Budget.

(** A run of a validated configuration that left the loop and passed the
    step-budget check: the loop stopped because the time had reached
    [tMax], after at least one step. *)
Lemma returned_run_reached_horizon system config n v :
  validateSolverConfig config system = None →
  steps system config (maxStepsOf config) n (initialVars config) v →
  loopCondition config (maxStepsOf config) v = false →
  (maxStepsOf config <=? v.(stepCount))%float = false →
  (config.(tMax) <=? v.(t))%float = true ∧ 0 < n.
Proof.
  intros Hvalid Hsteps Hexit Hbudget.
  destruct (validated_horizon _ _ Hvalid) as (Hfin & Hpos & _).
  pose proof (validated_time_step _ _ Hvalid) as Hdt.
  pose proof (maxSteps_positive _ _ Hvalid) as Hmax.
  destruct (steps_vars _ _ _ _ _ _ Hsteps) as (Ht & Hcount & _).
  cbn [initialVars t stepCount] in Ht, Hcount.
  assert (Hcnt : (stepCount v <? maxStepsOf config)%float = true).
  { rewrite leb_negb_ltb in Hbudget.
    - by apply negb_false_iff in Hbudget.
    - by apply ltb_not_nan in Hmax as [_ ?].
    - rewrite Hcount. apply nonneg_sf_not_nan, iter_add_nonneg.
      by exists 4503599627370496%positive, (-52)%Z. }
  unfold loopCondition in Hexit. rewrite Hcnt, andb_true_r in Hexit.
  split.
  - rewrite leb_negb_ltb, Hexit; [done|by apply isFinite_not_nan|].
    rewrite Ht. by apply nonneg_sf_not_nan, iter_add_nonneg.
  - destruct n as [|n]; [|lia]. simpl in Ht. by rewrite Ht, Hpos in Hexit.
Qed.

(** X2.  A returned trajectory covers the whole horizon: its last point
    is at a time that is not below [tMax], every point before it is at a
    time below [tMax], and there is at least one point before it (the
    initial point, at time zero). *)
Theorem trajectory_reaches_horizon :
  ∀ fuel system config trajectory,
    solveODE fuel system config = Some (Ok trajectory) →
    ∃ init final,
      trajectory.(points) = init ++ [final]
      ∧ (config.(tMax) <=? final.(pt_t))%float = true
      ∧ (∀ p, p ∈ init → (p.(pt_t) <? config.(tMax))%float = true)
      ∧ init ≠ [].
Proof.
  intros fuel system config trajectory Hrun.
  destruct (solveODE_returns _ _ _ _ Hrun)
    as (Hvalid & n & v & Hsteps & Hexit & Hbudget & ->).
  cbn [points].
  destruct (returned_run_reached_horizon _ _ _ _ Hvalid Hsteps Hexit Hbudget)
    as [Hreached Hn].
  destruct (steps_vars _ _ _ _ _ _ Hsteps) as (_ & _ & Hlen & Hkeep).
  cbn [initialVars pts length] in Hlen, Hkeep.
  destruct (steps_last_point _ _ _ _ _ _ Hsteps) as (init & final & Hpts & Hlast).
  { by exists [], {| pt_t := 0; pt_state := config.(initialConditions) |}. }
  exists init, final. split; [done|]. split; [by rewrite Hlast|].
  assert (Hinit : length init = n).
  { rewrite Hpts, length_app in Hlen. simpl in Hlen. lia. }
  split; [|by destruct init; [simpl in Hinit; lia|]].
  intros p [i Hi]%list_elem_of_lookup.
  assert (i < n) as Hin by (apply lookup_lt_Some in Hi; lia).
  assert (Hp : pts v !! i = Some p) by (rewrite Hpts; by apply lookup_app_l_Some).
  destruct (steps_prefix _ _ _ _ _ _ i Hsteps Hin) as (w & Hw & Hcond).
  destruct (steps_vars _ _ _ _ _ _ Hw) as (Hwt & _).
  cbn [initialVars t] in Hwt.
  apply andb_prop in Hcond as [Htime _].
  replace (pt_t p) with (t w); [done|]. rewrite Hwt.
  destruct i as [|i].
  - rewrite Hkeep in Hp by lia. by injection Hp as <-.
  - symmetry. apply (steps_point_times _ _ _ _ _ _ Hsteps i p Hp).
Qed.

Lemma trajectory_reaches_horizon_witness :
  ∃ trajectory init final,
    solveODE 10 lorenzSystem lorenzQuarterSteps = Some (Ok trajectory)
    ∧ trajectory.(points) = init ++ [final]
    ∧ (1 <=? final.(pt_t))%float = true.
Proof.
  assert (Hrun : ∃ trajectory,
            solveODE 10 lorenzSystem lorenzQuarterSteps = Some (Ok trajectory))
    by (vm_compute; eexists; reflexivity).
  destruct Hrun as [trajectory Hrun].
  destruct (trajectory_reaches_horizon 10 lorenzSystem lorenzQuarterSteps trajectory Hrun)
    as (init & final & Hpts & Hlast & _).
  exists trajectory, init, final.
  split; [exact Hrun|]. split; [exact Hpts|exact Hlast].
Defined.

(** ** Failures *)

(** A system whose derivative function, given a state with one element per
    state variable, returns as many derivatives. *)
Definition respectsDimension (system : ODESystem) : Prop :=
  ∀ s p, length s = length system.(stateVariables) →
         ∃ k, system.(equations) s p = Ok k ∧ length k = length s.

Lemma add_returns (a b : list float) :
  length a = length b → ∃ r, add a b = Ok r ∧ length r = length a.
Proof.
  intros Hlen. exists (zip_with PrimFloat.add a b). split.
  - unfold add. by rewrite lengths_agree.
  - rewrite length_zip_with. lia.
Qed.

(** On such a function the seven calls of [add] pass their guard. *)
Lemma rk4Step_returns f (s : list float) p h :
  (∀ s', length s' = length s → ∃ k, f s' p = Ok k ∧ length k = length s) →
  ∃ s', rk4Step f s p h = Ok s'.
Proof.
  intros Hf. unfold rk4Step.
  destruct (Hf s eq_refl) as (k1 & -> & Hk1). simpl.
  destruct (add_returns s (scale k1 (h / 2)%float)) as (s1 & -> & Hs1);
    [by rewrite length_scale|]. simpl.
  destruct (Hf s1 Hs1) as (k2 & -> & Hk2). simpl.
  destruct (add_returns s (scale k2 (h / 2)%float)) as (s2 & -> & Hs2);
    [by rewrite length_scale|]. simpl.
  destruct (Hf s2 Hs2) as (k3 & -> & Hk3). simpl.
  destruct (add_returns s (scale k3 h)) as (s3 & -> & Hs3);
    [by rewrite length_scale|]. simpl.
  destruct (Hf s3 Hs3) as (k4 & -> & Hk4). simpl.
  destruct (add_returns k1 (scale k2 2%float)) as (l & -> & Hl);
    [rewrite length_scale; congruence|]. simpl.
  destruct (add_returns (scale k3 2%float) k4) as (r & -> & Hr);
    [rewrite length_scale; congruence|]. simpl.
  destruct (add_returns l r) as (w & -> & Hw);
    [rewrite Hl, Hr, length_scale; congruence|]. simpl.
  destruct (add_returns s (scale w (h / 6)%float)) as (s' & -> & _);
    [rewrite length_scale, Hw, Hl; congruence|].
  by exists s'.
Qed.

(** How a run on such a system can fail. *)
Lemma run_failures fuel system config msg :
  respectsDimension system →
  solveODESafe fuel system config = Some (Ok (Failure msg)) →
  validateSolverConfig config system = Some msg
  ∨ (validateSolverConfig config system = None
     ∧ ((∃ time, msg = NumericalInstability time) ∨ msg = MaxStepsExceeded)).
Proof.
  intros Hsys. unfold solveODESafe, solveODE.
  destruct (validateSolverConfig config system) as [m|] eqn:Hvalid.
  { intros [= <-]. by left. }
  rewrite (validated_initial_finite _ _ Hvalid). intros Hrun. right. split; [done|].
  destruct (while _ _ _ _ _) as [[v|e]|] eqn:Hw; [| |done].
  - unfold finish in Hrun. destruct (_ <=? _)%float; [|done].
    injection Hrun as <-. by right.
  - destruct (while_throws _ _ _ _ _ _ Hw) as (n & w & _ & Hsteps & _ & Hbody).
    destruct (validated_horizon _ _ Hvalid) as (_ & _ & Hlen).
    destruct (steps_wellShaped _ _ _ (length system.(stateVariables)) _ _ _ Hsteps)
      as [Hw_len _].
    { split; [done|]. intros p [->|[]%elem_of_nil]%elem_of_cons.
      split; [done|]. by apply (validated_initial_finite _ _ Hvalid). }
    destruct (rk4Step_returns system.(equations) w.(state) config.(cfg_parameters)
                config.(dt)) as [s' Hs'].
    { intros s Hs. destruct (Hsys s config.(cfg_parameters)) as (k & Hk & Hkl);
        [congruence|]. exists k. split; [done|congruence]. }
    unfold loopBody in Hbody. rewrite Hs' in Hbody.
    destruct (hasInvalidValues s'); [|done]. injection Hbody as <-.
    injection Hrun as <-. left. by eexists.
Qed.


Lemma lorenz_respects_dimension : respectsDimension lorenzSystem.
Proof. intros s p Hs. eexists. split; [reflexivity|]. by rewrite Hs. Qed.

Lemma lotkaVolterra_respects_dimension : respectsDimension lotkaVolterraSystem.
Proof. intros s p Hs. eexists. split; [reflexivity|]. by rewrite Hs. Qed.



(** ** The first step *)

(** A validated configuration enters the loop. *)
Lemma loop_entered system config :
  validateSolverConfig config system = None →
  loopCondition config (maxStepsOf config) (initialVars config) = true.
Proof.
  intros Hvalid. unfold loopCondition. cbn [initialVars t stepCount].
  destruct (validated_horizon _ _ Hvalid) as (_ & -> & _).
  by rewrite (maxSteps_positive _ _ Hvalid).
Qed.

(** What the first iteration throws is what the run throws. *)
Lemma first_step_throws fuel system config e :
  validateSolverConfig config system = None →
  loopBody system config (initialVars config) = Throw e →
  solveODE (S fuel) system config = Some (Throw e).
Proof.
  intros Hvalid Hbody. unfold solveODE.
  rewrite Hvalid, (validated_initial_finite _ _ Hvalid).
  cbn [while]. by rewrite (loop_entered _ _ Hvalid), Hbody.
Qed.

(** X4.  A derivative function that returns the wrong number of
    derivatives for the initial state makes every validated run fail at
    its first step, with the length mismatch of the first [add]: the
    length of the state and the length of what the function returned. *)
Theorem wrong_dimension_derivative_fails :
  ∀ fuel system config k1,
    validateSolverConfig config system = None →
    system.(equations) config.(initialConditions) config.(cfg_parameters) = Ok k1 →
    length k1 ≠ length config.(initialConditions) →
    solveODESafe (S fuel) system config
    = Some (Ok (Failure (VectorLengthMismatch (length config.(initialConditions))
                                              (length k1)))).
Proof.
  intros fuel system config k1 Hvalid Hk1 Hlen. unfold solveODESafe.
  rewrite (first_step_throws fuel system config
             (ErrorObj (VectorLengthMismatch (length config.(initialConditions))
                                             (length k1)))); [done|done|].
  unfold loopBody, rk4Step. cbn [initialVars state]. rewrite Hk1. simpl.
  unfold add. rewrite lengths_differ by (rewrite length_scale; congruence).
  simpl. by rewrite length_scale.
Qed.

(** A system with two state variables whose derivative function returns a
    single derivative. *)
Definition lopsidedSystem : ODESystem :=
  {| sys_id := "lopsided"; sys_name := "lopsided"; description := "";
     stateVariables := ["x"; "y"]%string; sys_parameters := [];
     defaultInitialConditions := [0; 0]%float;
     equations := λ s _, Ok [element s 0] |}.

Definition lopsidedConfig : SolverConfig :=
  {| dt := 0.25; tMax := 1; initialConditions := [0; 0]%float; cfg_parameters := ∅ |}.

Lemma wrong_dimension_derivative_fails_witness :
  solveODESafe 1 lopsidedSystem lopsidedConfig
  = Some (Ok (Failure (VectorLengthMismatch 2 1))).
Proof.
  apply (wrong_dimension_derivative_fails 0 lopsidedSystem lopsidedConfig [0%float]).
  - vm_compute. reflexivity.
  - reflexivity.
  - simpl. lia.
Defined.

(** X5.  When the derivative function throws on the initial state, every
    validated run ends at its first step, and what [solveODESafe] returns
    is what the two [catch] blocks make of the thrown value.  An [Error]
    is passed on with its message.  A value that is not an [Error] and
    that the template literal converts is wrapped into the message of an
    unexpected error at time zero, the time before the step.  When the
    template literal cannot convert the value (a symbol, an object without
    a usable [toString]), what the conversion throws takes its place: the
    message of its [TypeError] is reported, or the text [String] gives of
    it; and when [String] cannot convert that either, the exception
    leaves [solveODESafe]. *)
Theorem throwing_derivative_fails :
  ∀ fuel system config e,
    validateSolverConfig config system = None →
    system.(equations) config.(initialConditions) config.(cfg_parameters) = Throw e →
    solveODESafe (S fuel) system config
    = Some match e with
           | ErrorObj msg => Ok (Failure msg)
           | NonError (Renders text) _ => Ok (Failure (UnexpectedError 0 text))
           | NonError (Raises (ErrorObj msg)) _ => Ok (Failure msg)
           | NonError (Raises (NonError _ (Renders text))) _ =>
               Ok (Failure (ForeignMessage text))
           | NonError (Raises (NonError _ (Raises e'))) _ => Throw e'
           end.
Proof.
  intros fuel system config e Hvalid He. unfold solveODESafe.
  rewrite (first_step_throws fuel system config (rethrown 0 e)); [|done|].
  - by destruct e as [msg|[text|[msg|c [text|e']]] c'].
  - unfold loopBody, rk4Step. cbn [initialVars state t]. by rewrite He.
Qed.

(** A derivative function that throws a symbol: the run reports the
    [TypeError] of the template literal. *)
Lemma throwing_derivative_fails_witness :
  solveODESafe 1 (throwingSystem (symbolValue "unsolvable")) throwingConfig
  = Some (Ok (Failure (ForeignMessage "Cannot convert a Symbol value to a string"))).
Proof.
  apply (throwing_derivative_fails 0 (throwingSystem (symbolValue "unsolvable"))
           throwingConfig (symbolValue "unsolvable")).
  - vm_compute. reflexivity.
  - reflexivity.
Defined.

(** A derivative function that throws a string. *)
Lemma thrown_string_is_wrapped :
  solveODESafe 1 (throwingSystem (plainValue "no derivative")) throwingConfig
  = Some (Ok (Failure (UnexpectedError 0 "no derivative"))).
Proof. vm_compute. reflexivity. Qed.

(** * Vector arithmetic on doubles *)

(** Addition and multiplication of binary64 numbers do not depend on the
    order of their operands: the rounded result is computed from the sum
    or the product of the operands, and the special cases are
    symmetric. *)
Lemma float_add_comm (x y : float) : (x + y = y + x)%float.
Proof.
  apply Prim2SF_inj. rewrite !FloatAxioms.add_spec. unfold SF64add, SFadd.
  destruct (Prim2SF x) as [sx|sx| |sx mx ex], (Prim2SF y) as [sy|sy| |sy my ey];
    try reflexivity; try (by destruct sx, sy).
  cbv zeta. rewrite (Z.min_comm ex ey). f_equal. apply Z.add_comm.
Qed.

Lemma float_mul_comm (x y : float) : (x * y = y * x)%float.
Proof.
  apply Prim2SF_inj. rewrite !FloatAxioms.mul_spec. unfold SF64mul, SFmul.
  destruct (Prim2SF x) as [sx|sx| |sx mx ex], (Prim2SF y) as [sy|sy| |sy my ey];
    try reflexivity; try (by destruct sx, sy).
  by rewrite (xorb_comm sx sy), (Pos.mul_comm mx my), (Z.add_comm ex ey).
Qed.

(** X7.  On doubles [add] does not depend on the order of its arguments:
    for two vectors of one length, [add(a, b)] and [add(b, a)] are the
    same vector, bit for bit. *)
Theorem add_commutes_on_doubles :
  ∀ a b : list float, length a = length b → add a b = add b a.
Proof.
  intros a b Hlen. rewrite !add_ok by done. f_equal.
  revert b Hlen. induction a as [|x a IH]; intros [|y b] Hlen; try done.
  simpl in *. rewrite float_add_comm. f_equal. apply IH. congruence.
Qed.

Lemma add_commutes_on_doubles_witness :
  add [0x1.999999999999ap-4; 0x1p60]%float [0x1p60; 0.25]%float
  = add [0x1p60; 0.25]%float [0x1.999999999999ap-4; 0x1p60]%float.
Proof.
  apply (add_commutes_on_doubles [0x1.999999999999ap-4; 0x1p60]%float
           [0x1p60; 0.25]%float).
  reflexivity.
Defined.

(** On doubles [subtract] does not undo [add]: the sum of [0.1] and [2^60]
    is [2^60], and nothing of [0.1] is left after the subtraction; nor
    does the result of two additions stay the same when they are
    grouped the other way. *)
Lemma subtract_does_not_undo_add :
  (add [0x1.999999999999ap-4]%float [0x1p60]%float
     ≫= λ sum, subtract sum [0x1p60]%float)
  = Ok [0%float].
Proof. vm_compute. reflexivity. Qed.

Lemma add_is_not_associative :
  let a := [0x1.999999999999ap-4]%float in   (* 0.1 *)
  let b := [0x1.999999999999ap-3]%float in   (* 0.2 *)
  let c := [0x1.3333333333333p-2]%float in   (* 0.3 *)
  (add a b ≫= λ ab, add ab c) ≠ (add b c ≫= λ bc, add a bc).
Proof. vm_compute. intros [=]. Qed.

(** X8.  On doubles [dot] is symmetric: for two vectors of one length,
    [dot(a, b)] and [dot(b, a)] are the same number, bit for bit. *)
Theorem dot_symmetric_on_doubles :
  ∀ a b : list float, length a = length b → dot a b = dot b a.
Proof.
  intros a b Hlen. unfold dot.
  rewrite !lengths_agree by done. f_equal.
  generalize (num0 : float). revert b Hlen.
  induction a as [|x a IH]; intros [|y b] Hlen acc; try done.
  simpl in *. rewrite (float_mul_comm x y). apply IH. congruence.
Qed.

Lemma dot_symmetric_on_doubles_witness :
  dot [0x1.999999999999ap-4; 3]%float [7; 0.25]%float
  = dot [7; 0.25]%float [0x1.999999999999ap-4; 3]%float.
Proof.
  apply (dot_symmetric_on_doubles [0x1.999999999999ap-4; 3]%float [7; 0.25]%float).
  reflexivity.
Defined.

(** ** The magnitude of a vector of doubles *)

Section Magnitude.

(** The sum of squares [magnitude] accumulates, from [acc] on. *)
Definition sumOfSquares (acc : float) (v : list float) : float :=
  foldl (λ sum val, (sum + val * val)%float) acc v.

Lemma sumOfSquares_nonneg acc v :
  nonneg_sf (Prim2SF acc) →
  (∀ x, x ∈ v → is_nan x = false) →
  nonneg_sf (Prim2SF (sumOfSquares acc v)).
Proof.
  revert acc. induction v as [|x v IH]; intros acc Hacc Hv; [done|].
  apply IH; [|intros y Hy; apply Hv; by right].
  rewrite FloatAxioms.add_spec, FloatAxioms.mul_spec.
  apply SFadd_nonneg; [done|]. apply SFmul_square_nonneg.
  apply is_nan_false, Hv. by left.
Qed.

Lemma sumOfSquares_nan acc v :
  is_nan acc = true → is_nan (sumOfSquares acc v) = true.
Proof.
  revert acc. induction v as [|x v IH]; intros acc Hacc; [done|].
  apply IH. apply is_nan_spec. apply is_nan_spec in Hacc.
  by rewrite FloatAxioms.add_spec, Hacc.
Qed.

Lemma sumOfSquares_nan_element acc v x :
  x ∈ v → is_nan x = true → is_nan (sumOfSquares acc v) = true.
Proof.
  intros Hx Hnan. revert acc.
  induction Hx as [x v|x y v _ IH]; intros acc; [|by apply IH].
  apply (sumOfSquares_nan (acc + x * x)%float v).
  apply is_nan_spec. apply is_nan_spec in Hnan.
  rewrite FloatAxioms.add_spec, FloatAxioms.mul_spec, Hnan.
  by destruct (Prim2SF acc) as [?|?| |? ? ?].
Qed.
End Magnitude.

(** X10.  On doubles, [magnitude] returns NaN exactly when an element of
    the vector is NaN; in every other case, overflow included, it returns
    a number that is not below zero (possibly [+Infinity]). *)
Theorem magnitude_of_doubles :
  ∀ v : list float,
    (is_nan (magnitude v) = true ↔ ∃ x, x ∈ v ∧ is_nan x = true)
    ∧ (is_nan (magnitude v) = false → (0 <=? magnitude v)%float = true).
Proof.
  intros v.
  change (magnitude v) with (PrimFloat.sqrt (sumOfSquares 0 v)).
  destruct (existsb is_nan v) eqn:Hany.
  1: apply existsb_exists in Hany as (x & Hx%list_elem_of_In & Hnan).
  2: assert (Hnone : ∀ x, x ∈ v → is_nan x = false).
  2: { intros x Hx. destruct (is_nan x) eqn:Hnan; [|done].
       apply not_true_iff_false in Hany. exfalso. apply Hany, existsb_exists.
       exists x. split; [by apply list_elem_of_In|done]. }
  - assert (Hroot : is_nan (PrimFloat.sqrt (sumOfSquares 0 v)) = true).
    { pose proof (sumOfSquares_nan_element 0%float v x Hx Hnan) as Hsum.
      apply is_nan_spec. apply is_nan_spec in Hsum.
      by rewrite FloatAxioms.sqrt_spec, Hsum. }
    split; [split; [by exists x|done]|]. by rewrite Hroot.
  - assert (Hroot : nonneg_sf (Prim2SF (PrimFloat.sqrt (sumOfSquares 0 v)))).
    { rewrite FloatAxioms.sqrt_spec. apply SFsqrt_nonneg.
      by apply sumOfSquares_nonneg. }
    assert (Hnum : is_nan (PrimFloat.sqrt (sumOfSquares 0 v)) = false)
      by (by apply nonneg_sf_not_nan).
    split.
    { split; [by rewrite Hnum|]. intros (x & Hx & Hnan).
      by rewrite (Hnone x Hx) in Hnan. }
    intros _.
    rewrite FloatAxioms.leb_spec, prim_zero. unfold SFleb.
    by destruct (Prim2SF _) as [?|[]| |[] ? ?].
Qed.

(** * The registry of systems (src/lib/systems/index.ts) *)

Definition systems : list ODESystem := [lorenzSystem; lotkaVolterraSystem].

(** [systems.find((system) => system.id === id)] *)
Definition getSystemById (id : string) : option ODESystem :=
  List.find (λ system, String.eqb system.(sys_id) id) systems.

(** X11.  [getSystemById] finds every registered system under its own
    id, returns only a registered system whose id is the one asked for,
    and returns nothing exactly for the ids no registered system has. *)
Theorem getSystemById_lookup :
  (∀ system, system ∈ systems → getSystemById system.(sys_id) = Some system)
  ∧ (∀ id system, getSystemById id = Some system →
       system ∈ systems ∧ system.(sys_id) = id)
  ∧ (∀ id, getSystemById id = None
           ↔ ∀ system, system ∈ systems → system.(sys_id) ≠ id).
Proof.
  split; [|split].
  - intros system Hin. unfold systems in Hin.
    repeat (apply elem_of_cons in Hin as [->|Hin]); [done..|].
    by apply elem_of_nil in Hin.
  - intros id system Hfind. apply find_some in Hfind as [Hin Hid].
    split; [by apply list_elem_of_In|]. by apply String.eqb_eq.
  - intros id. split.
    + intros Hnone system Hin%list_elem_of_In.
      apply (find_none _ _ Hnone), String.eqb_neq in Hin. done.
    + intros Hall. unfold getSystemById.
      destruct (List.find _ systems) as [system|] eqn:Hfind; [|done].
      apply find_some in Hfind as [Hin Hid].
      apply String.eqb_eq in Hid. apply list_elem_of_In in Hin.
      by destruct (Hall system Hin).
Qed.

(** * Default values *)

(** An assignment to any other name than [__proto__] makes an own
    property. *)
Lemma assignProperty_insert (acc : gmap string float) name value :
  name ≠ "__proto__"%string → assignProperty acc name value = <[name := value]> acc.
Proof.
  intros Hname%String.eqb_neq. unfold assignProperty. by rewrite Hname.
Qed.

Lemma assignProperty_lookup_ne (acc : gmap string float) name value key :
  key ≠ name → assignProperty acc name value !! key = acc !! key.
Proof.
  intros Hkey. unfold assignProperty.
  destruct (_ && _); [done|]. by apply lookup_insert_ne.
Qed.

(** The object the [reduce] over the declared parameters builds holds a
    value for every declared name but [__proto__]: the default of the
    last parameter declared under that name. *)
Lemma foldl_defaults_other (ps : list ParameterDef) (acc : gmap string float) key :
  key ∉ map p_name ps →
  foldl (λ acc param, assignProperty acc param.(p_name) param.(p_default)) acc ps
  !! key
  = acc !! key.
Proof.
  revert acc. induction ps as [|q ps IH]; intros acc Hkey; [done|].
  simpl in *. apply not_elem_of_cons in Hkey as [Hq Hps].
  rewrite IH by done. by apply assignProperty_lookup_ne.
Qed.

Lemma foldl_defaults_present (ps : list ParameterDef) (acc : gmap string float) key :
  key ∈ map p_name ps → key ≠ "__proto__"%string →
  is_Some (foldl (λ acc param, assignProperty acc param.(p_name) param.(p_default))
                 acc ps
           !! key).
Proof.
  revert acc. induction ps as [|q ps IH]; intros acc Hin Hkey.
  { by apply elem_of_nil in Hin. }
  simpl in *. destruct (decide (key ∈ map p_name ps)) as [Hlater|Hlast].
  - by apply IH.
  - rewrite foldl_defaults_other by done.
    apply elem_of_cons in Hin as [->|Hin]; [|done].
    rewrite assignProperty_insert, lookup_insert_eq by done. by eexists.
Qed.

Lemma foldl_defaults_value (ps : list ParameterDef) (acc : gmap string float) param :
  NoDup (map p_name ps) → param ∈ ps → param.(p_name) ≠ "__proto__"%string →
  foldl (λ acc param, assignProperty acc param.(p_name) param.(p_default)) acc ps
  !! param.(p_name) = Some param.(p_default).
Proof.
  revert acc. induction ps as [|q ps IH]; intros acc Hnodup Hin Hname.
  { by apply elem_of_nil in Hin. }
  simpl in *. apply NoDup_cons in Hnodup as [Hq Hnodup].
  apply elem_of_cons in Hin as [->|Hin].
  - rewrite foldl_defaults_other by done.
    by rewrite assignProperty_insert, lookup_insert_eq.
  - by apply IH.
Qed.

(** The name [__proto__] gets no value: the object built for a system
    that declares it has no such property of its own, and the validator,
    which finds the inherited one, rejects the defaults. *)
Definition protoSystem : ODESystem := {|
  sys_id := "proto";
  sys_name := "Proto";
  description := "A decay whose rate is declared under the name __proto__";
  stateVariables := ["x"]%string;
  sys_parameters := [
    {| p_name := "__proto__"; p_label := "rate"; p_min := 0; p_max := 1;
       p_step := 0.5; p_default := 0.5 |} ]%float;
  defaultInitialConditions := [1]%float;
  equations := λ state params,
    Ok [(PrimFloat.opp (readParameter params "__proto__") * element state 0)%float]
|}.

Lemma proto_defaults_rejected :
  defaultParameters protoSystem = ∅
  ∧ validateSolverConfig
      {| dt := 0.25; tMax := 1;
         initialConditions := protoSystem.(defaultInitialConditions);
         cfg_parameters := defaultParameters protoSystem |} protoSystem
    = Some (ParameterNotFinite "__proto__").
Proof. split; vm_compute; reflexivity. Qed.

(** A system whose declaration is consistent: no two parameters share a
    name, none is named [__proto__], every default is a finite number
    within the bounds declared with it, and there is one finite default
    initial value per state variable. *)
Definition wellDeclared (system : ODESystem) : Prop :=
  NoDup (map p_name system.(sys_parameters))
  ∧ "__proto__"%string ∉ map p_name system.(sys_parameters)
  ∧ (∀ param, param ∈ system.(sys_parameters) →
       isFinite param.(p_default) = true
       ∧ withinBounds param.(p_default) param.(p_min) param.(p_max) = true)
  ∧ length system.(defaultInitialConditions) = length system.(stateVariables)
  ∧ (∀ x, x ∈ system.(defaultInitialConditions) → isFinite x = true).

(** X12.  For a system whose declaration is consistent, the default
    initial conditions together with the parameter object the dashboard
    builds from the defaults pass validation, whatever valid pair of
    times they are run with. *)
Theorem defaults_pass_validation :
  ∀ system step horizon,
    wellDeclared system →
    isFinite step = true → (0 <? step)%float = true →
    isFinite horizon = true → (horizon <? step)%float = false →
    validateSolverConfig
      {| dt := step; tMax := horizon;
         initialConditions := system.(defaultInitialConditions);
         cfg_parameters := defaultParameters system |} system = None.
Proof.
  intros system step horizon (Hnodup & Hproto & Hdefaults & Hlen & Hfinite)
    Hdt Hpos HtMax Hle.
  assert (Hnames : ∀ param, param ∈ system.(sys_parameters) →
                     param.(p_name) ≠ "__proto__"%string).
  { intros param Hp Hname. apply Hproto. rewrite <- Hname.
    by apply list_elem_of_fmap_2. }
  apply validateSolverConfig_accepts. intros r.
  destruct r; unfold holds; cbn [satisfies dt tMax initialConditions cfg_parameters].
  - by rewrite Hdt, Hpos.
  - rewrite HtMax. cbn [andb].
    (* 0 < dt <= tMax *)
    revert Hpos Hle. rewrite !FloatAxioms.ltb_spec, prim_zero. unfold SFltb.
    apply is_finite_spec in Hdt as (sd & [Hd|(md & ed & Hd)]);
      apply is_finite_spec in HtMax as (st & [Ht|(mt & et & Ht)]);
      rewrite Hd, Ht; destruct sd, st; simpl; try done.
  - by rewrite Hle.
  - by apply Nat.eqb_eq.
  - apply forallb_forall. intros x Hx%list_elem_of_In. by apply Hfinite.
  - apply forallb_forall. intros param Hp%list_elem_of_In.
    apply bool_decide_eq_true_2.
    apply foldl_defaults_present; [by apply list_elem_of_fmap_2|by apply Hnames].
  - apply forallb_forall. intros param Hp%list_elem_of_In. cbv zeta.
    unfold readParameter, defaultParameters.
    rewrite foldl_defaults_value by (try done; by apply Hnames). simpl.
    destruct (Hdefaults param Hp) as [-> ->]. done.
Qed.

Lemma lorenz_well_declared : wellDeclared lorenzSystem.
Proof.
  split; [|split; [|split; [|split]]].
  - apply (bool_decide_unpack _). vm_compute. reflexivity.
  - apply (bool_decide_unpack _). vm_compute. reflexivity.
  - intros param Hp. cbn [lorenzSystem sys_parameters] in Hp.
    repeat (apply elem_of_cons in Hp as [->|Hp]);
      [vm_compute; split; reflexivity..|by apply elem_of_nil in Hp].
  - reflexivity.
  - intros x Hx. cbn [lorenzSystem defaultInitialConditions] in Hx.
    repeat (apply elem_of_cons in Hx as [->|Hx]);
      [vm_compute; reflexivity..|by apply elem_of_nil in Hx].
Qed.

Lemma lotkaVolterra_well_declared : wellDeclared lotkaVolterraSystem.
Proof.
  split; [|split; [|split; [|split]]].
  - apply (bool_decide_unpack _). vm_compute. reflexivity.
  - apply (bool_decide_unpack _). vm_compute. reflexivity.
  - intros param Hp. cbn [lotkaVolterraSystem sys_parameters] in Hp.
    repeat (apply elem_of_cons in Hp as [->|Hp]);
      [vm_compute; split; reflexivity..|by apply elem_of_nil in Hp].
  - reflexivity.
  - intros x Hx. cbn [lotkaVolterraSystem defaultInitialConditions] in Hx.
    repeat (apply elem_of_cons in Hx as [->|Hx]);
      [vm_compute; reflexivity..|by apply elem_of_nil in Hx].
Qed.

Lemma defaults_pass_validation_witness :
  validateSolverConfig
    {| dt := oneHundredth; tMax := 30;
       initialConditions := lotkaVolterraSystem.(defaultInitialConditions);
       cfg_parameters := defaultParameters lotkaVolterraSystem |}
    lotkaVolterraSystem = None.
Proof.
  apply (defaults_pass_validation lotkaVolterraSystem oneHundredth 30%float
           lotkaVolterra_well_declared); vm_compute; reflexivity.
Defined.

(** * Changing one parameter *)

Lemma forallb_ext_in {X} (p q : X → bool) (l : list X) :
  (∀ x, x ∈ l → p x = q x) → forallb p l = forallb q l.
Proof.
  induction l as [|x l IH]; intros Hpq; [done|]. simpl.
  rewrite (Hpq x) by (by left). rewrite IH; [done|].
  intros y Hy. apply Hpq. by right.
Qed.

(** The same configuration with one more name in its parameter object. *)
Definition withParameter (config : SolverConfig) (name : string) (value : float)
    : SolverConfig :=
  {| dt := config.(dt); tMax := config.(tMax);
     initialConditions := config.(initialConditions);
     cfg_parameters := <[name := value]> config.(cfg_parameters) |}.

Lemma hasProperty_insert_ne (parameters : gmap string float) name value key :
  name ≠ key → hasProperty (<[name := value]> parameters) key = hasProperty parameters key.
Proof. intros Hne. unfold hasProperty. by rewrite lookup_insert_ne. Qed.

(** The validator reads the parameter object at the declared names only. *)
Lemma validation_ignores_undeclared system config name value :
  name ∉ map p_name system.(sys_parameters) →
  validateSolverConfig (withParameter config name value) system
  = validateSolverConfig config system.
Proof.
  intros Hname. unfold validateSolverConfig, withParameter.
  cbn [dt tMax initialConditions cfg_parameters].
  assert (Hmissing : missingParams system (<[name:=value]> config.(cfg_parameters))
                     = missingParams system config.(cfg_parameters)).
  { unfold missingParams. revert Hname.
    induction (sys_parameters system) as [|q ps IH]; intros Hname; [done|].
    simpl in *. apply not_elem_of_cons in Hname as [Hq Hps].
    rewrite !filter_cons, hasProperty_insert_ne, IH by done. done. }
  assert (Hvalues : validateParameterValues system.(sys_parameters)
                      (<[name:=value]> config.(cfg_parameters))
                    = validateParameterValues system.(sys_parameters)
                        config.(cfg_parameters)).
  { revert Hname.
    induction (sys_parameters system) as [|q ps IH]; intros Hname; [done|].
    simpl in *. apply not_elem_of_cons in Hname as [Hq Hps].
    unfold readParameter. rewrite lookup_insert_ne, IH by done. done. }
  by rewrite Hmissing, Hvalues.
Qed.

(** X13.  Replacing or adding the value of one name in the parameter
    object, as [{ ...prev, [name]: value }] does: when no parameter is
    declared under that name the validator answers as before, whatever
    it answered; and an accepted configuration stays accepted when the
    value is a finite number within the bounds of every parameter
    declared under that name. *)
Theorem parameter_change_validation :
  ∀ system config name value,
    (name ∉ map p_name system.(sys_parameters) →
     validateSolverConfig (withParameter config name value) system
     = validateSolverConfig config system)
    ∧ (validateSolverConfig config system = None →
       (∀ param, param ∈ system.(sys_parameters) → param.(p_name) = name →
          isFinite value = true
          ∧ withinBounds value param.(p_min) param.(p_max) = true) →
       validateSolverConfig (withParameter config name value) system = None).
Proof.
  intros system config name value. split.
  - apply validation_ignores_undeclared.
  - intros Hvalid Hvalue. apply validateSolverConfig_accepts. intros r.
    pose proof (proj1 (validateSolverConfig_accepts _ _) Hvalid) as Hall.
    specialize (Hall r). unfold withParameter.
    destruct r; unfold holds in *;
      cbn [satisfies dt tMax initialConditions cfg_parameters] in *; try done.
    + rewrite forallb_forall in *. intros param Hp.
      specialize (Hall param Hp). apply bool_decide_eq_true_1 in Hall.
      apply bool_decide_eq_true_2.
      destruct (decide (name = p_name param)) as [->|Hne].
      * rewrite lookup_insert_eq. by eexists.
      * by rewrite lookup_insert_ne.
    + rewrite forallb_forall in *. intros param Hp.
      specialize (Hall param Hp). cbv zeta in *. unfold readParameter in *.
      destruct (decide (name = p_name param)) as [->|Hne].
      * rewrite lookup_insert_eq. simpl.
        destruct (Hvalue param) as [-> ->]; [by apply list_elem_of_In|done|done].
      * by rewrite lookup_insert_ne.
Qed.

Lemma parameter_change_validation_witness :
  validateSolverConfig (withParameter lorenzQuarterSteps "rho" 14%float) lorenzSystem
  = None.
Proof.
  apply (parameter_change_validation lorenzSystem lorenzQuarterSteps "rho" 14%float).
  - vm_compute. reflexivity.
  - intros param Hp Hname. cbn [lorenzSystem sys_parameters] in Hp.
    repeat (apply elem_of_cons in Hp as [->|Hp]);
      [try discriminate Hname; vm_compute; split; reflexivity..
      |by apply elem_of_nil in Hp].
Defined.

(** * The dashboard (SimulationDashboard)

    The three pieces of state the component keeps, and its three
    handlers as functions from the state before an event to the state
    after it. *)

Record DashboardState := {
  selectedSystemId : string;
  parameters : gmap string float;
  conditions : list float     (* the state named [initialConditions] *)
}.

(** [getSystemById(selectedSystemId)] *)
Definition currentSystem (s : DashboardState) : option ODESystem :=
  getSystemById s.(selectedSystemId).

(** The initial values of the three [useState] calls. *)
Definition initialState : DashboardState :=
  let selected := "lorenz"%string in
  {| selectedSystemId := selected;
     parameters := match getSystemById selected with
                   | None => ∅
                   | Some system => defaultParameters system
                   end;
     conditions := match getSystemById selected with
                   | Some system => system.(defaultInitialConditions)
                   | None => []
                   end |}.

(** An unknown id changes nothing; a known one selects the system and
    resets the parameters and the initial conditions to its defaults. *)
Definition handleSystemChange (systemId : string) (s : DashboardState)
    : DashboardState :=
  match getSystemById systemId with
  | None => s
  | Some newSystem =>
      {| selectedSystemId := systemId;
         parameters := defaultParameters newSystem;
         conditions := newSystem.(defaultInitialConditions) |}
  end.

(** [setParameters(prev => ({ ...prev, [name]: value }))] *)
Definition handleParameterChange (name : string) (value : float)
    (s : DashboardState) : DashboardState :=
  {| selectedSystemId := s.(selectedSystemId);
     parameters := <[name := value]> s.(parameters);
     conditions := s.(conditions) |}.

(** [newConditions[index] = value] on a copy of the array: inside the
    array the element is replaced, at its end the array grows by one
    element; further out JavaScript leaves holes before the new element,
    which a list of numbers cannot hold: no result. *)
Definition assignElement (index : nat) (value : float) (copy : list float)
    : option (list float) :=
  if decide (index < length copy) then Some (<[index := value]> copy)
  else if decide (index = length copy) then Some (copy ++ [value])
  else None.

Definition handleInitialConditionChange (index : nat) (value : float)
    (s : DashboardState) : option DashboardState :=
  newConditions ← assignElement index value s.(conditions);
  Some {| selectedSystemId := s.(selectedSystemId);
          parameters := s.(parameters);
          conditions := newConditions |}.

(** The configuration the dashboard runs: [dt = 0.01], and [tMax = 50]
    for the Lorenz system, [30] otherwise. *)
Definition dashboardConfig (s : DashboardState) : SolverConfig :=
  {| dt := oneHundredth;
     tMax := if String.eqb s.(selectedSystemId) "lorenz" then 50%float else 30%float;
     initialConditions := s.(conditions);
     cfg_parameters := s.(parameters) |}.

(** What the user can do: pick a system, move the slider of a parameter,
    edit the input of an initial condition.  There is one input per state
    variable of the current system, so the index an edit carries is below
    their number. *)
Inductive Event : Type :=
  | SelectSystem (systemId : string)
  | MoveSlider (name : string) (value : float)
  | EditCondition (index : nat) (value : float).

Inductive handles : DashboardState → Event → DashboardState → Prop :=
  | handles_select s systemId :
      handles s (SelectSystem systemId) (handleSystemChange systemId s)
  | handles_slider s name value :
      handles s (MoveSlider name value) (handleParameterChange name value s)
  | handles_edit s system index value s' :
      currentSystem s = Some system →
      index < length system.(stateVariables) →
      handleInitialConditionChange index value s = Some s' →
      handles s (EditCondition index value) s'.

Inductive reachable : DashboardState → Prop :=
  | reachable_initial : reachable initialState
  | reachable_step s e s' : reachable s → handles s e s' → reachable s'.

(** Every declared parameter has a value of its own in the object. *)
Definition declaredPresent (system : ODESystem) (parameters : gmap string float)
    : Prop :=
  ∀ param, param ∈ system.(sys_parameters) →
           is_Some (parameters !! param.(p_name)).

(** What every state of the dashboard satisfies. *)
Definition consistent (s : DashboardState) : Prop :=
  ∃ system,
    currentSystem s = Some system
    ∧ length s.(conditions) = length system.(stateVariables)
    ∧ declaredPresent system s.(parameters).

Lemma declaredPresent_defaults system :
  "__proto__"%string ∉ map p_name system.(sys_parameters) →
  declaredPresent system (defaultParameters system).
Proof.
  intros Hproto param Hp.
  apply foldl_defaults_present; [by apply list_elem_of_fmap_2|].
  intros Hname. apply Hproto. rewrite <- Hname. by apply list_elem_of_fmap_2.
Qed.

Lemma declaredPresent_insert system parameters name value :
  declaredPresent system parameters →
  declaredPresent system (<[name := value]> parameters).
Proof.
  intros Hall param Hp. specialize (Hall param Hp).
  destruct (decide (name = p_name param)) as [->|Hne].
  - rewrite lookup_insert_eq. by eexists.
  - by rewrite lookup_insert_ne.
Qed.

(** No name is missing from an object that has every declared parameter
    as a property of its own. *)
Lemma declaredPresent_missingParams system parameters :
  declaredPresent system parameters → missingParams system parameters = [].
Proof.
  intros Hall. apply missingParams_nil, forallb_forall.
  intros param Hp%list_elem_of_In.
  apply ownProperty_hasProperty, bool_decide_eq_true_2. by apply Hall.
Qed.

Lemma registered_well_declared system : system ∈ systems → wellDeclared system.
Proof.
  intros Hin. unfold systems in Hin.
  repeat (apply elem_of_cons in Hin as [->|Hin]);
    [apply lorenz_well_declared|apply lotkaVolterra_well_declared|].
  by apply elem_of_nil in Hin.
Qed.

Lemma registered_default_conditions system :
  system ∈ systems →
  length system.(defaultInitialConditions) = length system.(stateVariables).
Proof.
  intros Hin. unfold systems in Hin.
  repeat (apply elem_of_cons in Hin as [->|Hin]); [done..|].
  by apply elem_of_nil in Hin.
Qed.

Lemma getSystemById_registered id system :
  getSystemById id = Some system → system ∈ systems ∧ system.(sys_id) = id.
Proof.
  intros Hfind. apply find_some in Hfind as [Hin Hid].
  split; [by apply list_elem_of_In|]. by apply String.eqb_eq.
Qed.

Lemma consistent_reset id system :
  getSystemById id = Some system →
  consistent {| selectedSystemId := id;
                parameters := defaultParameters system;
                conditions := system.(defaultInitialConditions) |}.
Proof.
  intros Hid. exists system. split; [done|].
  destruct (getSystemById_registered _ _ Hid) as [Hin _].
  split; [by apply registered_default_conditions|].
  apply declaredPresent_defaults.
  by destruct (registered_well_declared _ Hin) as (_ & ? & _).
Qed.

Lemma handles_consistent s e s' : consistent s → handles s e s' → consistent s'.
Proof.
  intros (system & Hcur & Hlen & Hmiss) Hstep.
  destruct Hstep as [s systemId|s name value|s system' index value s' Hcur' Hidx Hedit].
  - unfold handleSystemChange.
    destruct (getSystemById systemId) as [newSystem|] eqn:Hnew.
    + by apply consistent_reset.
    + by exists system.
  - exists system. split; [done|]. split; [done|]. by apply declaredPresent_insert.
  - unfold handleInitialConditionChange, assignElement in Hedit.
    assert (system' = system) as -> by congruence.
    destruct (decide (index < length (conditions s))) as [Hin|Hout]; [|lia].
    injection Hedit as <-. exists system. split; [done|]. split; [|done].
    cbn [conditions]. by rewrite length_insert.
Qed.

Lemma reachable_consistent s : reachable s → consistent s.
Proof.
  induction 1 as [|s e s' _ IH Hstep]; [|by eapply handles_consistent].
  by apply (consistent_reset "lorenz" lorenzSystem).
Qed.

(** The checks of the validator the dashboard's configuration always
    passes, and the ones it can fail. *)
Lemma dashboard_validation_messages s system msg :
  length s.(conditions) = length system.(stateVariables) →
  missingParams system s.(parameters) = [] →
  validateSolverConfig (dashboardConfig s) system = Some msg →
  msg = InitialNotFinite
  ∨ (∃ name, msg = ParameterNotFinite name)
  ∨ (∃ name value lo hi, msg = ParameterOutOfRange name value lo hi).
Proof.
  intros Hlen Hmiss. unfold validateSolverConfig.
  cbn [dashboardConfig dt tMax initialConditions cfg_parameters].
  rewrite Hlen, Nat.eqb_refl, Hmiss. cbn [negb length Nat.ltb Nat.leb]. cbv zeta.
  assert (Htimes : isFinite oneHundredth = true
                   ∧ (oneHundredth <=? 0)%float = false
                   ∧ ∀ b : bool,
                       let horizon := if b then 50%float else 30%float in
                       (horizon <? oneHundredth)%float = false
                       ∧ isFinite horizon = true
                       ∧ (horizon <=? 0)%float = false).
  { split; [reflexivity|]. split; [reflexivity|]. by intros []. }
  destruct Htimes as (-> & -> & Hhorizon). cbn [negb].
  destruct (Hhorizon (String.eqb (selectedSystemId s) "lorenz")) as (-> & -> & ->).
  cbn [negb].
  destruct (existsb _ (conditions s)); [intros [= <-]; by left|].
  generalize (sys_parameters system) as ps.
  induction ps as [|param ps IH]; [done|]. simpl.
  destruct (negb _); [intros [= <-]; right; left; by eexists|].
  destruct (_ || _); [intros [= <-]; right; right; by eexists _, _, _, _|].
  exact IH.
Qed.

(** X14.  In every state the dashboard can reach, a system is selected,
    there is one initial condition per state variable, and the parameter
    object holds a value of its own for every parameter the system
    declares, so that the validator finds none missing; every edit of an
    initial condition replaces an element of the array, which keeps its
    length.  So the validator never rejects the dashboard's configuration
    for its time step, its horizon, the number of initial conditions or
    a missing parameter: if it rejects it, the reason is a value that is
    not finite or a parameter out of its bounds. *)
Theorem dashboard_configuration_consistent :
  ∀ s, reachable s →
    ∃ system,
      currentSystem s = Some system
      ∧ system ∈ systems
      ∧ length s.(conditions) = length system.(stateVariables)
      ∧ declaredPresent system s.(parameters)
      ∧ missingParams system s.(parameters) = []
      ∧ (∀ index value, index < length system.(stateVariables) →
           ∃ s', handleInitialConditionChange index value s = Some s'
                 ∧ s'.(conditions) = <[index := value]> s.(conditions))
      ∧ (∀ msg, validateSolverConfig (dashboardConfig s) system = Some msg →
           msg = InitialNotFinite
           ∨ (∃ name, msg = ParameterNotFinite name)
           ∨ (∃ name value lo hi, msg = ParameterOutOfRange name value lo hi)).
Proof.
  intros s (system & Hcur & Hlen & Hown)%reachable_consistent.
  pose proof (declaredPresent_missingParams _ _ Hown) as Hmiss.
  exists system. split; [done|].
  split; [by apply (getSystemById_registered _ _ Hcur)|].
  split; [done|]. split; [done|]. split; [done|]. split.
  - intros index value Hidx. unfold handleInitialConditionChange, assignElement.
    destruct (decide (index < length (conditions s))) as [Hin|Hout]; [|lia].
    by eexists.
  - intros msg. by apply dashboard_validation_messages.
Qed.

Lemma dashboard_configuration_consistent_witness :
  ∃ s system,
    handles (handleParameterChange "alpha" 2%float
               (handleSystemChange "lotka-volterra" initialState))
            (EditCondition 1 7%float) s
    ∧ currentSystem s = Some system
    ∧ length s.(conditions) = length system.(stateVariables).
Proof.
  set (s1 := handleSystemChange "lotka-volterra" initialState).
  set (s2 := handleParameterChange "alpha" 2%float s1).
  assert (Hedit : ∃ s, handleInitialConditionChange 1 7%float s2 = Some s)
    by (vm_compute; eexists; reflexivity).
  destruct Hedit as [s Hedit].
  assert (Hstep : handles s2 (EditCondition 1 7%float) s).
  { apply (handles_edit s2 lotkaVolterraSystem); [reflexivity|simpl; lia|exact Hedit]. }
  assert (Hreach : reachable s).
  { apply (reachable_step s2 (EditCondition 1 7%float)); [|exact Hstep].
    apply (reachable_step s1 (MoveSlider "alpha" 2%float)); [|apply handles_slider].
    apply (reachable_step initialState (SelectSystem "lotka-volterra"));
      [apply reachable_initial|apply handles_select]. }
  destruct (dashboard_configuration_consistent s Hreach)
    as (system & Hcur & _ & Hlen & _).
  exists s, system. split; [exact Hstep|]. split; [exact Hcur|exact Hlen].
Defined.

(** * Type guards (src/types/simulation.ts)

    The guards take a value of type [unknown].  The values considered
    here are the ones built from [undefined], [null], booleans, numbers,
    strings, functions, arrays without holes and plain objects with data
    properties. *)

Unset Elimination Schemes.
Inductive JSValue : Type :=
  | JSUndefined
  | JSNull
  | JSBoolean (b : bool)
  | JSNumber (x : float)
  | JSString (s : string)
  | JSFunction (name : string)
  | JSArray (elements : list JSValue)
  | JSObject (properties : gmap string JSValue).
Set Elimination Schemes.

(** [typeof v] *)
Definition typeOf (v : JSValue) : string :=
  match v with
  | JSUndefined => "undefined"
  | JSBoolean _ => "boolean"
  | JSNumber _ => "number"
  | JSString _ => "string"
  | JSFunction _ => "function"
  | JSNull | JSArray _ | JSObject _ => "object"
  end.

(** [v === null] *)
Definition isNull (v : JSValue) : bool :=
  match v with JSNull => true | _ => false end.

(** [Array.isArray(v)] *)
Definition isArray (v : JSValue) : bool :=
  match v with JSArray _ => true | _ => false end.

Definition typeError (text : string) : thrown := ErrorObj (ForeignMessage text).

(** The property read [v.key], for the names the guards read ([t],
    [state], [points], [name], [equations], ...): none of them is a
    property of a prototype, except [name] on a function.  Reading from
    [undefined] or [null] throws a [TypeError]; an absent property reads
    as [undefined]. *)
Definition getProp (v : JSValue) (key : string) : result JSValue :=
  match v with
  | JSUndefined => Throw (typeError "Cannot read properties of undefined")
  | JSNull => Throw (typeError "Cannot read properties of null")
  | JSObject properties => Ok (default JSUndefined (properties !! key))
  | JSFunction name => Ok (if String.eqb key "name" then JSString name else JSUndefined)
  | _ => Ok JSUndefined
  end.

(** [xs.every(callback)] on the elements of an array: it stops at the
    first element the callback rejects. *)
Fixpoint everyElement (callback : JSValue → result bool) (xs : list JSValue)
    : result bool :=
  match xs with
  | [] => Ok true
  | x :: rest =>
      accepted ← callback x;
      if accepted : bool then everyElement callback rest else Ok false
  end.

(** The method call [v.every(callback)]: only an array has the method. *)
Definition every (v : JSValue) (callback : JSValue → result bool) : result bool :=
  match v with
  | JSArray xs => everyElement callback xs
  | JSUndefined => Throw (typeError "Cannot read properties of undefined")
  | JSNull => Throw (typeError "Cannot read properties of null")
  | _ => Throw (typeError "every is not a function")
  end.

(** [Object.values(v)] *)
Definition objectValues (v : JSValue) : result (list JSValue) :=
  match v with
  | JSUndefined | JSNull =>
      Throw (typeError "Cannot convert undefined or null to object")
  | JSObject properties => Ok (map snd (map_to_list properties))
  | JSArray xs => Ok xs
  | JSString s => Ok (map (λ c, JSString (String c EmptyString)) (String.list_ascii_of_string s))
  | _ => Ok []
  end.

(** [a && b]: [b] is evaluated only when [a] is true. *)
Definition andAlso (a b : result bool) : result bool :=
  accepted ← a; if accepted : bool then b else Ok false.
Infix "&&&" := andAlso (at level 40, left associativity).

(** [typeof v.key === type] *)
Definition propHasType (v : JSValue) (key type : string) : result bool :=
  p ← getProp v key; Ok (String.eqb (typeOf p) type).

(** [Array.isArray(v.key)] *)
Definition propIsArray (v : JSValue) (key : string) : result bool :=
  p ← getProp v key; Ok (isArray p).

(** [v.key.every(callback)] *)
Definition propEvery (v : JSValue) (key : string) (callback : JSValue → result bool)
    : result bool :=
  p ← getProp v key; every p callback.

Definition hasType (type : string) (v : JSValue) : result bool :=
  Ok (String.eqb (typeOf v) type).

(** [typeof obj !== 'object' || obj === null] *)
Definition notAnObject (obj : JSValue) : bool :=
  negb (String.eqb (typeOf obj) "object") || isNull obj.

Definition isTrajectoryPoint (obj : JSValue) : result bool :=
  if notAnObject obj then Ok false
  else propHasType obj "t" "number"
       &&& propIsArray obj "state"
       &&& propEvery obj "state" (hasType "number").

Definition isTrajectory (obj : JSValue) : result bool :=
  if notAnObject obj then Ok false
  else propIsArray obj "points"
       &&& propEvery obj "points" isTrajectoryPoint
       &&& propIsArray obj "variables"
       &&& propEvery obj "variables" (hasType "string").

Definition isParameter (obj : JSValue) : result bool :=
  if notAnObject obj then Ok false
  else propHasType obj "name" "string"
       &&& propHasType obj "label" "string"
       &&& propHasType obj "min" "number"
       &&& propHasType obj "max" "number"
       &&& propHasType obj "step" "number"
       &&& propHasType obj "default" "number".

Definition isSolverConfig (obj : JSValue) : result bool :=
  if notAnObject obj then Ok false
  else propHasType obj "dt" "number"
       &&& propHasType obj "tMax" "number"
       &&& propIsArray obj "initialConditions"
       &&& propEvery obj "initialConditions" (hasType "number")
       &&& propHasType obj "parameters" "object"
       &&& (p ← getProp obj "parameters"; Ok (negb (isNull p)))
       &&& (p ← getProp obj "parameters";
            values ← objectValues p;
            everyElement (hasType "number") values).

Definition isODESystem (obj : JSValue) : result bool :=
  if notAnObject obj then Ok false
  else propHasType obj "id" "string"
       &&& propHasType obj "name" "string"
       &&& propHasType obj "description" "string"
       &&& propIsArray obj "stateVariables"
       &&& propEvery obj "stateVariables" (hasType "string")
       &&& propIsArray obj "parameters"
       &&& propEvery obj "parameters" isParameter
       &&& propIsArray obj "defaultInitialConditions"
       &&& propEvery obj "defaultInitialConditions" (hasType "number")
       &&& propHasType obj "equations" "function".

(** ** The guards return on every value *)

Definition returns (r : result bool) : Prop := ∃ b, r = Ok b.

Lemma andAlso_returns a b : returns a → (a = Ok true → returns b) → returns (a &&& b).
Proof.
  intros [[] ->] Hb; unfold andAlso; simpl; [by apply Hb|by exists false].
Qed.

Lemma everyElement_returns callback xs :
  (∀ x, returns (callback x)) → returns (everyElement callback xs).
Proof.
  intros Hcb. induction xs as [|x xs IH]; [by exists true|]. simpl.
  destruct (Hcb x) as [[] ->]; simpl; [done|by exists false].
Qed.

(** An object that passed the first check is an array or a plain
    object: its properties can be read. *)
Lemma object_cases obj :
  notAnObject obj = false → (∃ xs, obj = JSArray xs) ∨ (∃ m, obj = JSObject m).
Proof. destruct obj; try done; eauto. Qed.

Lemma getProp_object obj key :
  notAnObject obj = false → ∃ p, getProp obj key = Ok p.
Proof. intros [[xs ->]|[m ->]]%object_cases; by eexists. Qed.

Lemma propHasType_returns obj key type :
  notAnObject obj = false → returns (propHasType obj key type).
Proof.
  intros Hobj. unfold propHasType.
  destruct (getProp_object obj key Hobj) as [p ->]. by eexists.
Qed.

Lemma propIsArray_returns obj key :
  notAnObject obj = false → returns (propIsArray obj key).
Proof.
  intros Hobj. unfold propIsArray.
  destruct (getProp_object obj key Hobj) as [p ->]. by eexists.
Qed.

(** After [Array.isArray(obj.key)] the call of [every] finds its method. *)
Lemma propEvery_returns obj key callback :
  propIsArray obj key = Ok true →
  (∀ x, returns (callback x)) →
  returns (propEvery obj key callback).
Proof.
  unfold propIsArray, propEvery. intros Harr Hcb.
  destruct (getProp obj key) as [p|e]; [|done]. simpl in *.
  destruct p; try done. simpl. by apply everyElement_returns.
Qed.

Lemma andAlso_true a b : a &&& b = Ok true → a = Ok true ∧ b = Ok true.
Proof. unfold andAlso. destruct a as [[]|e]; simpl; done. Qed.

Lemma hasType_returns type x : returns (hasType type x).
Proof. by eexists. Qed.

Lemma isTrajectoryPoint_returns obj : returns (isTrajectoryPoint obj).
Proof.
  unfold isTrajectoryPoint. destruct (notAnObject obj) eqn:Hobj; [by eexists|].
  apply andAlso_returns; [apply andAlso_returns|].
  - by apply propHasType_returns.
  - intros _. by apply propIsArray_returns.
  - intros [_ Harr]%andAlso_true.
    apply propEvery_returns; [done|apply hasType_returns].
Qed.

Lemma isParameter_returns obj : returns (isParameter obj).
Proof.
  unfold isParameter. destruct (notAnObject obj) eqn:Hobj; [by eexists|].
  repeat (apply andAlso_returns; [|intros _; by apply propHasType_returns]).
  by apply propHasType_returns.
Qed.

(** X18.  None of the five type guards throws: on every value each of
    them returns [true] or [false].  A property is read only from a value
    that is an object and not [null], and [every] is called only on what
    [Array.isArray] accepted. *)
Theorem type_guards_never_throw :
  ∀ obj,
    returns (isTrajectoryPoint obj)
    ∧ returns (isTrajectory obj)
    ∧ returns (isParameter obj)
    ∧ returns (isSolverConfig obj)
    ∧ returns (isODESystem obj).
Proof.
  intros obj. split; [apply isTrajectoryPoint_returns|].
  split; [|split; [apply isParameter_returns|split]].
  - unfold isTrajectory. destruct (notAnObject obj) eqn:Hobj; [by eexists|].
    apply andAlso_returns; [apply andAlso_returns; [apply andAlso_returns|]|].
    + by apply propIsArray_returns.
    + intros Harr. apply propEvery_returns; [done|apply isTrajectoryPoint_returns].
    + intros _. by apply propIsArray_returns.
    + intros [_ Harr]%andAlso_true.
      apply propEvery_returns; [done|apply hasType_returns].
  - unfold isSolverConfig. destruct (notAnObject obj) eqn:Hobj; [by eexists|].
    destruct (getProp_object obj "parameters" Hobj) as [p Hp].
    repeat apply andAlso_returns.
    + by apply propHasType_returns.
    + intros _. by apply propHasType_returns.
    + intros _. by apply propIsArray_returns.
    + intros [_ Harr]%andAlso_true.
      apply propEvery_returns; [done|apply hasType_returns].
    + intros _. by apply propHasType_returns.
    + intros _. rewrite Hp. by eexists.
    + intros [[_ Htype]%andAlso_true Hnull]%andAlso_true.
      unfold propHasType in Htype. rewrite Hp in *. simpl in *.
      injection Htype as Htype. injection Hnull as Hnull.
      destruct p; try done; simpl; apply everyElement_returns, hasType_returns.
  - unfold isODESystem. destruct (notAnObject obj) eqn:Hobj; [by eexists|].
    repeat apply andAlso_returns;
      try (intros _; by apply propHasType_returns);
      try (intros _; by apply propIsArray_returns);
      try (by apply propHasType_returns).
    + intros [_ Harr]%andAlso_true.
      apply propEvery_returns; [done|apply hasType_returns].
    + intros [_ Harr]%andAlso_true.
      apply propEvery_returns; [done|apply isParameter_returns].
    + intros [_ Harr]%andAlso_true.
      apply propEvery_returns; [done|apply hasType_returns].
Qed.

(** ** The values of the data model as JavaScript values *)

Definition jsNumbers (xs : list float) : JSValue := JSArray (JSNumber <$> xs).
Definition jsStrings (xs : list string) : JSValue := JSArray (JSString <$> xs).

Definition jsTrajectoryPoint (p : TrajectoryPoint) : JSValue :=
  JSObject (<["t" := JSNumber p.(pt_t)]>
            (<["state" := jsNumbers p.(pt_state)]> ∅)).

Definition jsTrajectory (tr : Trajectory) : JSValue :=
  JSObject (<["points" := JSArray (jsTrajectoryPoint <$> tr.(points))]>
            (<["variables" := jsStrings tr.(variables)]> ∅)).

Definition jsParameter (p : ParameterDef) : JSValue :=
  JSObject (<["name" := JSString p.(p_name)]>
            (<["label" := JSString p.(p_label)]>
            (<["min" := JSNumber p.(p_min)]>
            (<["max" := JSNumber p.(p_max)]>
            (<["step" := JSNumber p.(p_step)]>
            (<["default" := JSNumber p.(p_default)]> ∅)))))).

Definition jsSolverConfig (c : SolverConfig) : JSValue :=
  JSObject (<["dt" := JSNumber c.(dt)]>
            (<["tMax" := JSNumber c.(tMax)]>
            (<["initialConditions" := jsNumbers c.(initialConditions)]>
            (<["parameters" := JSObject (JSNumber <$> c.(cfg_parameters))]> ∅)))).

Definition jsODESystem (s : ODESystem) : JSValue :=
  JSObject (<["id" := JSString s.(sys_id)]>
            (<["name" := JSString s.(sys_name)]>
            (<["description" := JSString s.(description)]>
            (<["stateVariables" := jsStrings s.(stateVariables)]>
            (<["parameters" := JSArray (jsParameter <$> s.(sys_parameters))]>
            (<["defaultInitialConditions" := jsNumbers s.(defaultInitialConditions)]>
            (<["equations" := JSFunction "equations"]> ∅))))))).

Lemma everyElement_true callback xs :
  everyElement callback xs = Ok true ↔ Forall (λ x, callback x = Ok true) xs.
Proof.
  induction xs as [|x xs IH]; simpl.
  - split; [by constructor|done].
  - rewrite Forall_cons, <- IH.
    destruct (callback x) as [[]|e]; simpl; split; try done; try tauto;
      by intros [? _].
Qed.

Lemma everyElement_fmap {X} callback (f : X → JSValue) (xs : list X) :
  (∀ x, callback (f x) = Ok true) → everyElement callback (f <$> xs) = Ok true.
Proof.
  intros Hf. apply everyElement_true, Forall_fmap, Forall_forall. intros x _. apply Hf.
Qed.

(** Reading a property of a plain object. *)
Ltac read_properties :=
  unfold propHasType, propIsArray, propEvery, andAlso;
  cbn [getProp mbind result_bind];
  repeat (first [rewrite lookup_insert_eq | rewrite lookup_insert_ne by done]);
  simpl.

Lemma isTrajectoryPoint_accepts p : isTrajectoryPoint (jsTrajectoryPoint p) = Ok true.
Proof.
  unfold isTrajectoryPoint, jsTrajectoryPoint.
  change (notAnObject (JSObject ?m)) with false. cbn match. read_properties.
  by apply everyElement_fmap.
Qed.

Lemma isParameter_accepts p : isParameter (jsParameter p) = Ok true.
Proof.
  unfold isParameter, jsParameter.
  change (notAnObject (JSObject ?m)) with false. cbn match. by read_properties.
Qed.

(** X19.  Every value of the data model passes the guard of its type:
    the guards look at the types of the fields only, so they also accept
    a trajectory that holds NaN or a configuration the validator
    rejects. *)
Theorem type_guards_accept_typed_values :
  (∀ p, isTrajectoryPoint (jsTrajectoryPoint p) = Ok true)
  ∧ (∀ tr, isTrajectory (jsTrajectory tr) = Ok true)
  ∧ (∀ p, isParameter (jsParameter p) = Ok true)
  ∧ (∀ c, isSolverConfig (jsSolverConfig c) = Ok true)
  ∧ (∀ s, isODESystem (jsODESystem s) = Ok true).
Proof.
  split; [apply isTrajectoryPoint_accepts|].
  split; [|split; [apply isParameter_accepts|split]].
  - intros tr. unfold isTrajectory, jsTrajectory.
    change (notAnObject (JSObject ?m)) with false. cbn match. read_properties.
    rewrite (everyElement_fmap isTrajectoryPoint jsTrajectoryPoint)
      by apply isTrajectoryPoint_accepts.
    simpl. apply (everyElement_fmap (hasType "string") JSString). intros x. reflexivity.
  - intros c. unfold isSolverConfig, jsSolverConfig.
    change (notAnObject (JSObject ?m)) with false. cbn match. read_properties.
    rewrite (everyElement_fmap (hasType "number") JSNumber) by (intros; reflexivity).
    simpl.
    apply everyElement_true, Forall_forall.
    intros v [[key v'] [-> Hkv]]%list_elem_of_fmap.
    apply elem_of_map_to_list in Hkv. rewrite lookup_fmap in Hkv.
    destruct (cfg_parameters c !! key) as [x|]; simpl in Hkv; [|done].
    injection Hkv as <-. reflexivity.
  - intros s. unfold isODESystem, jsODESystem.
    change (notAnObject (JSObject ?m)) with false. cbn match. read_properties.
    rewrite (everyElement_fmap (hasType "string") JSString) by (intros; reflexivity).
    simpl.
    rewrite (everyElement_fmap isParameter jsParameter) by apply isParameter_accepts.
    simpl.
    by rewrite (everyElement_fmap (hasType "number") JSNumber) by (intros; reflexivity).
Qed.

(** ** What an accepted value holds *)

(** Reading a value as a value of the data model: a field has to be
    there and to hold a value of the type the interface gives it. *)
Definition asNumber (v : JSValue) : option float :=
  match v with JSNumber x => Some x | _ => None end.

Definition asString (v : JSValue) : option string :=
  match v with JSString s => Some s | _ => None end.

Definition field (v : JSValue) (key : string) : option JSValue :=
  match v with JSObject properties => properties !! key | _ => None end.

Definition fieldNumber (v : JSValue) (key : string) : option float :=
  match field v key with Some p => asNumber p | None => None end.

Definition fieldArray {X} (v : JSValue) (key : string) (read : JSValue → option X)
    : option (list X) :=
  match field v key with
  | Some (JSArray xs) => mapM (M := option) read xs
  | _ => None
  end.

Definition readTrajectoryPoint (v : JSValue) : option TrajectoryPoint :=
  match fieldNumber v "t", fieldArray v "state" asNumber with
  | Some time, Some values => Some {| pt_t := time; pt_state := values |}
  | _, _ => None
  end.

Definition readTrajectory (v : JSValue) : option Trajectory :=
  match fieldArray v "points" readTrajectoryPoint, fieldArray v "variables" asString with
  | Some stored, Some names => Some {| points := stored; variables := names |}
  | _, _ => None
  end.

Lemma hasType_number x : hasType "number" x = Ok true ↔ is_Some (asNumber x).
Proof.
  destruct x; split; intros H; try (by inversion H); try (by destruct H);
    try (by eexists); reflexivity.
Qed.

Lemma hasType_string x : hasType "string" x = Ok true ↔ is_Some (asString x).
Proof.
  destruct x; split; intros H; try (by inversion H); try (by destruct H);
    try (by eexists); reflexivity.
Qed.

Lemma everyElement_reads {X} callback (read : JSValue → option X) xs :
  (∀ x, callback x = Ok true ↔ is_Some (read x)) →
  everyElement callback xs = Ok true ↔ is_Some (mapM (M := option) read xs).
Proof.
  intros Hcb. rewrite everyElement_true, mapM_is_Some.
  apply Forall_proper; [|done]. intros x. apply Hcb.
Qed.

Lemma andAlso_true_iff a b : a &&& b = Ok true ↔ a = Ok true ∧ b = Ok true.
Proof.
  split; [apply andAlso_true|]. intros [-> ->]. reflexivity.
Qed.

(** [Array.isArray(obj.key) && obj.key.every(callback)] on a plain
    object. *)
Lemma array_field_accepted {X} m key callback (read : JSValue → option X) :
  (∀ x, callback x = Ok true ↔ is_Some (read x)) →
  propIsArray (JSObject m) key = Ok true
  ∧ propEvery (JSObject m) key callback = Ok true
  ↔ is_Some (fieldArray (JSObject m) key read).
Proof.
  intros Hcb. unfold propIsArray, propEvery, fieldArray.
  cbn [getProp field mbind result_bind].
  destruct (m !! key) as [[]|]; simpl;
    try (split; [intros [H _]; by inversion H|intros H; by destruct H]).
  rewrite (everyElement_reads _ read) by done. tauto.
Qed.

Lemma number_field_accepted m key :
  propHasType (JSObject m) key "number" = Ok true
  ↔ is_Some (fieldNumber (JSObject m) key).
Proof.
  unfold propHasType, fieldNumber. cbn [getProp field mbind result_bind].
  destruct (m !! key) as [x|]; simpl.
  - apply hasType_number.
  - split; intros H; [by inversion H|by destruct H].
Qed.

Lemma isTrajectoryPoint_reads v :
  isTrajectoryPoint v = Ok true ↔ is_Some (readTrajectoryPoint v).
Proof.
  unfold isTrajectoryPoint, readTrajectoryPoint.
  destruct v as [| | | | | |xs|m];
    try (split; intros H; [by inversion H|by destruct H]).
  change (notAnObject (JSObject m)) with false. cbn match.
  rewrite !andAlso_true_iff.
  pose proof (array_field_accepted m "state" _ asNumber hasType_number) as Hstate.
  pose proof (number_field_accepted m "t") as Htime.
  split.
  - intros [[Ht Harr] Hevery].
    destruct (proj1 Htime Ht) as [time ->].
    destruct (proj1 Hstate (conj Harr Hevery)) as [values ->]. by eexists.
  - intros Hread.
    destruct (fieldNumber _ _) as [time|]; [|by destruct Hread].
    destruct (fieldArray _ _ _) as [values|]; [|by destruct Hread].
    destruct (proj2 Hstate) as [Harr Hevery]; [by eexists|].
    split; [split; [|done]|done]. apply Htime. by eexists.
Qed.

Lemma mapM_fmap_Some {X Y} (read : Y → option X) (write : X → Y) (xs : list X) :
  (∀ x, read (write x) = Some x) → mapM (M := option) read (write <$> xs) = Some xs.
Proof.
  intros Hrw. apply mapM_Some, Forall2_fmap_l, Forall_Forall2_diag, Forall_forall.
  intros x _. apply Hrw.
Qed.

Lemma readTrajectoryPoint_written p : readTrajectoryPoint (jsTrajectoryPoint p) = Some p.
Proof.
  unfold readTrajectoryPoint, jsTrajectoryPoint, jsNumbers, fieldNumber, fieldArray.
  cbn [field].
  rewrite lookup_insert_eq, lookup_insert_ne, lookup_insert_eq by done.
  cbn [asNumber].
  rewrite (mapM_fmap_Some asNumber JSNumber) by done. by destruct p.
Qed.

(** X20.  [isTrajectory] accepts exactly the values that can be read as
    a trajectory: an object whose [points] is an array of objects, each
    with a number [t] and an array of numbers [state], and whose
    [variables] is an array of strings.  A trajectory written as such an
    object is read back as it was. *)
Theorem isTrajectory_reads :
  (∀ v, isTrajectory v = Ok true ↔ is_Some (readTrajectory v))
  ∧ (∀ tr, readTrajectory (jsTrajectory tr) = Some tr).
Proof.
  split.
  - intros v. unfold isTrajectory, readTrajectory.
    destruct v as [| | | | | |xs|m];
      try (split; intros H; [by inversion H|by destruct H]).
    change (notAnObject (JSObject m)) with false. cbn match.
    rewrite !andAlso_true_iff.
    pose proof (array_field_accepted m "points" _ readTrajectoryPoint
                  isTrajectoryPoint_reads) as Hpoints.
    pose proof (array_field_accepted m "variables" _ asString hasType_string)
      as Hnames.
    split.
    + intros [[[Hp Hpe] Hv] Hve].
      destruct (proj1 Hpoints (conj Hp Hpe)) as [stored ->].
      destruct (proj1 Hnames (conj Hv Hve)) as [names ->]. by eexists.
    + intros Hread.
      destruct (fieldArray _ "points" _) as [stored|]; [|by destruct Hread].
      destruct (fieldArray _ "variables" _) as [names|]; [|by destruct Hread].
      destruct (proj2 Hpoints) as [Hp Hpe]; [by eexists|].
      destruct (proj2 Hnames) as [Hv Hve]; [by eexists|]. done.
  - intros tr. unfold readTrajectory, jsTrajectory, jsStrings, fieldArray. cbn [field].
    rewrite lookup_insert_eq, lookup_insert_ne, lookup_insert_eq by done.
    rewrite (mapM_fmap_Some readTrajectoryPoint jsTrajectoryPoint)
      by apply readTrajectoryPoint_written.
    rewrite (mapM_fmap_Some asString JSString) by done. by destruct tr.
Qed.

(** * The plots (TimeSeriesPlot, PhaseSpacePlot)

    A component is represented by what it computes from the trajectory:
    the placeholder it shows when there is no point, or the data it hands
    to the plotting library.  The constant fields of the traces, the
    layout and the configuration are left out. *)

Inductive Rendered (A : Type) : Type :=
  | NoData            (* 'No trajectory data available' *)
  | Plotted (data : A)
  | Nothing.          (* null *)
Arguments NoData {A}.
Arguments Plotted {A} data.
Arguments Nothing {A}.

(** ** Time series *)

Definition colors : list string :=
  ["#1f77b4"; "#ff7f0e"; "#2ca02c"; "#d62728"; "#9467bd"; "#8c564b"]%string.

(** A trace: [x], [y], [name] and [line.color].  An element [state[index]]
    that does not exist is [undefined], here [None], and so is a colour
    that does not exist. *)
Record Trace := {
  trace_x : list float;
  trace_y : list (option float);
  trace_name : string;
  trace_color : option string
}.

Definition TimeSeriesPlot (trajectory : Trajectory) : Rendered (list Trace) :=
  let points := trajectory.(points) in
  if (length points =? 0)%nat then NoData
  else
    let timeData := map pt_t points in
    Plotted (imap (λ index varName,
                     let varData := map (λ p, p.(pt_state) !! index) points in
                     {| trace_x := timeData;
                        trace_y := varData;
                        trace_name := varName;
                        trace_color := colors !! (index `mod` length colors) |})
                  trajectory.(variables)).

(** ** Phase space *)

(** [trajectory.variables[i] || fallback]: the fallback stands in for a
    missing name and for the empty name. *)
Definition axisTitle (names : list string) (i : nat) (fallback : string) : string :=
  match names !! i with
  | Some name => if String.eqb name "" then fallback else name
  | None => fallback
  end.

(** The coordinates, the colour index of each point and the axis titles. *)
Record PhaseTrace := {
  phase_x : list (option float);
  phase_y : list (option float);
  phase_z : option (list (option float));   (* the 3D plot only *)
  phase_color : list nat;
  phase_titles : list string
}.

Definition PhaseSpacePlot (trajectory : Trajectory) (systemType : string)
    : Rendered PhaseTrace :=
  let points := trajectory.(points) in
  if (length points =? 0)%nat then NoData
  else
    let coordinate i := map (λ p, p.(pt_state) !! i) points in
    let color := imap (λ i _, i) points in
    if String.eqb systemType "3d" then
      Plotted {| phase_x := coordinate 0; phase_y := coordinate 1;
                 phase_z := Some (coordinate 2);
                 phase_color := color;
                 phase_titles := [axisTitle trajectory.(variables) 0 "x";
                                  axisTitle trajectory.(variables) 1 "y";
                                  axisTitle trajectory.(variables) 2 "z"] |}
    else if String.eqb systemType "2d" then
      Plotted {| phase_x := coordinate 0; phase_y := coordinate 1;
                 phase_z := None;
                 phase_color := color;
                 phase_titles := [axisTitle trajectory.(variables) 0 "x";
                                  axisTitle trajectory.(variables) 1 "y"] |}
    else Nothing.

(** The dashboard's choice:
    [currentSystem.stateVariables.length === 3 ? '3d' : '2d']. *)
Definition systemTypeOf (system : ODESystem) : string :=
  if (length system.(stateVariables) =? 3)%nat then "3d" else "2d".

(** ** The plots of a trajectory the solver returned *)

(** One coordinate of every point of a returned trajectory. *)
Lemma returned_coordinate fuel system config trajectory index :
  solveODE fuel system config = Some (Ok trajectory) →
  index < length system.(stateVariables) →
  ∀ y, y ∈ map (λ p, p.(pt_state) !! index) trajectory.(points) →
       ∃ value, y = Some value ∧ isFinite value = true.
Proof.
  intros Hrun Hindex y (p & -> & Hp)%list_elem_of_fmap.
  destruct (returned_states _ _ _ _ Hrun) as [_ Hpts].
  destruct (Hpts p Hp) as [Hlen Hfin].
  destruct (lookup_lt_is_Some_2 p.(pt_state) index) as [value Hvalue]; [lia|].
  exists value. split; [done|]. apply Hfin. by eapply list_elem_of_lookup_2.
Qed.

Lemma returned_points_nonempty fuel system config trajectory :
  solveODE fuel system config = Some (Ok trajectory) →
  (length trajectory.(points) =? 0)%nat = false.
Proof.
  intros Hrun.
  destruct (solveODE_returns _ _ _ _ Hrun) as (_ & n & v & Hsteps & _ & _ & ->).
  destruct (steps_vars _ _ _ _ _ _ Hsteps) as (_ & _ & Hlen & _).
  cbn [points]. rewrite Hlen. by apply Nat.eqb_neq.
Qed.

(** X16.  For a trajectory the solver returned, the time-series plot is
    drawn, with one trace per state variable, in their order and under
    their names; every trace has the times of the points as [x] and as
    many [y] values, each of them a finite number (none is [undefined]);
    every trace has a colour, and two traces have the same colour exactly
    when their positions differ by a multiple of six. *)
Theorem time_series_of_returned_trajectory :
  ∀ fuel system config trajectory,
    solveODE fuel system config = Some (Ok trajectory) →
    ∃ traces,
      TimeSeriesPlot trajectory = Plotted traces
      ∧ length traces = length system.(stateVariables)
      ∧ ∀ index trace, traces !! index = Some trace →
          system.(stateVariables) !! index = Some trace.(trace_name)
          ∧ trace.(trace_x) = map pt_t trajectory.(points)
          ∧ length trace.(trace_y) = length trace.(trace_x)
          ∧ (∀ y, y ∈ trace.(trace_y) → ∃ value, y = Some value ∧ isFinite value = true)
          ∧ is_Some trace.(trace_color)
          ∧ ∀ index' trace', traces !! index' = Some trace' →
              (trace.(trace_color) = trace'.(trace_color)
               ↔ index `mod` 6 = index' `mod` 6).
Proof.
  intros fuel system config trajectory Hrun.
  unfold TimeSeriesPlot. rewrite (returned_points_nonempty _ _ _ _ Hrun).
  destruct (returned_states _ _ _ _ Hrun) as [Hvars _].
  eexists. split; [reflexivity|]. rewrite length_imap, Hvars. split; [done|].
  intros index trace Htrace. rewrite list_lookup_imap in Htrace.
  destruct (stateVariables system !! index) as [name|] eqn:Hname; [|done].
  injection Htrace as <-. cbn [trace_x trace_y trace_name trace_color].
  assert (Hindex : index < length system.(stateVariables))
    by (by eapply lookup_lt_Some).
  assert (Hcolor : ∀ i, i < 6 → is_Some (colors !! i))
    by (intros i Hi; by apply lookup_lt_is_Some_2).
  split; [done|]. split; [done|]. split; [by rewrite !length_map|].
  split; [by apply (returned_coordinate _ _ _ _ _ Hrun)|].
  pose proof (Nat.mod_upper_bound index 6 ltac:(lia)) as Hi.
  split; [exact (Hcolor (index `mod` 6) Hi)|].
  intros index' trace' Htrace'. rewrite list_lookup_imap in Htrace'.
  destruct (stateVariables system !! index') as [name'|]; [|done].
  injection Htrace' as <-. cbn [trace_color].
  pose proof (Nat.mod_upper_bound index' 6 ltac:(lia)) as Hi'.
  change (colors !! (index `mod` 6) = colors !! (index' `mod` 6)
          ↔ index `mod` 6 = index' `mod` 6).
  split; [|by intros ->].
  assert (Hdistinct : NoDup colors) by (apply (bool_decide_unpack _); by vm_compute).
  destruct (Hcolor _ Hi) as [c Hc]. rewrite Hc. intros Hc'. symmetry in Hc'.
  by eapply NoDup_lookup.
Qed.

Lemma time_series_of_returned_trajectory_witness :
  ∃ trajectory traces,
    solveODE 10 lorenzSystem lorenzQuarterSteps = Some (Ok trajectory)
    ∧ TimeSeriesPlot trajectory = Plotted traces
    ∧ length traces = 3.
Proof.
  assert (Hrun : ∃ trajectory,
            solveODE 10 lorenzSystem lorenzQuarterSteps = Some (Ok trajectory))
    by (vm_compute; eexists; reflexivity).
  destruct Hrun as [trajectory Hrun].
  destruct (time_series_of_returned_trajectory 10 lorenzSystem lorenzQuarterSteps
              trajectory Hrun) as (traces & Hplot & Hlen & _).
  exists trajectory, traces. split; [exact Hrun|]. split; [exact Hplot|exact Hlen].
Defined.

Lemma imap_positions {X} (g : nat → nat) (l : list X) :
  imap (λ i _, g i) l = g <$> seq 0 (length l).
Proof.
  revert g. induction l as [|x l IH]; intros g; [done|].
  cbn [imap length seq fmap list_fmap]. f_equal.
  rewrite <- fmap_S_seq, <- list_fmap_compose. apply (IH (g ∘ S)).
Qed.

(** X17.  For a trajectory the solver returned and the plot type the
    dashboard picks for the system, the phase-space plot is drawn with
    one coordinate triple or pair per point.  With three state variables
    it is the 3D plot and every coordinate is a finite number; with two,
    or with more than three, it is the 2D plot of the first two variables
    and every coordinate is a finite number; with fewer than two it is the
    2D plot and every [y] is [undefined]. *)
Theorem phase_space_of_returned_trajectory :
  ∀ fuel system config trajectory,
    solveODE fuel system config = Some (Ok trajectory) →
    ∃ trace,
      PhaseSpacePlot trajectory (systemTypeOf system) = Plotted trace
      ∧ length trace.(phase_x) = length trajectory.(points)
      ∧ length trace.(phase_y) = length trajectory.(points)
      ∧ trace.(phase_color) = seq 0 (length trajectory.(points))
      ∧ (is_Some trace.(phase_z) ↔ length system.(stateVariables) = 3)
      ∧ (2 ≤ length system.(stateVariables) →
         ∀ c, c ∈ trace.(phase_x) ++ trace.(phase_y) ++ default [] trace.(phase_z) →
              ∃ value, c = Some value ∧ isFinite value = true)
      ∧ (length system.(stateVariables) < 2 →
         ∀ c, c ∈ trace.(phase_y) → c = None).
Proof.
  intros fuel system config trajectory Hrun.
  unfold PhaseSpacePlot. rewrite (returned_points_nonempty _ _ _ _ Hrun).
  assert (Hcolor : imap (λ i (_ : TrajectoryPoint), i) trajectory.(points)
                   = seq 0 (length trajectory.(points))).
  { rewrite (imap_positions (λ i, i)). apply list_fmap_id. }
  pose proof (returned_coordinate _ _ _ _ 0 Hrun) as Hx.
  pose proof (returned_coordinate _ _ _ _ 1 Hrun) as Hy.
  pose proof (returned_coordinate _ _ _ _ 2 Hrun) as Hz.
  destruct (returned_states _ _ _ _ Hrun) as [_ Hpts].
  unfold systemTypeOf.
  destruct (length (stateVariables system) =? 3)%nat eqn:Hthree.
  - apply Nat.eqb_eq in Hthree. change (String.eqb "3d" "3d") with true. cbn match.
    eexists. split; [reflexivity|].
    cbn [phase_x phase_y phase_z phase_color]. rewrite !length_map.
    split; [done|]. split; [done|]. split; [done|]. split; [by split; [|eexists]|].
    split; [|lia]. intros _ c. cbn [default]. rewrite !elem_of_app.
    intros [Hc|[Hc|Hc]]; [apply Hx|apply Hy|apply Hz]; first [lia|done].
  - apply Nat.eqb_neq in Hthree. change (String.eqb "2d" "3d") with false.
    change (String.eqb "2d" "2d") with true. cbn match.
    eexists. split; [reflexivity|].
    cbn [phase_x phase_y phase_z phase_color]. rewrite !length_map.
    split; [done|]. split; [done|]. split; [done|].
    split; [split; [by intros []|done]|].
    split.
    + intros Htwo c. cbn [default]. rewrite app_nil_r, elem_of_app.
      intros [Hc|Hc]; [apply Hx|apply Hy]; first [lia|done].
    + intros Hfew c (p & -> & Hp)%list_elem_of_fmap.
      destruct (Hpts p Hp) as [Hlen _]. apply lookup_ge_None_2. lia.
Qed.

Lemma phase_space_of_returned_trajectory_witness :
  ∃ trajectory trace,
    solveODE 10 lorenzSystem lorenzQuarterSteps = Some (Ok trajectory)
    ∧ PhaseSpacePlot trajectory "3d" = Plotted trace
    ∧ length trace.(phase_x) = length trajectory.(points).
Proof.
  assert (Hrun : ∃ trajectory,
            solveODE 10 lorenzSystem lorenzQuarterSteps = Some (Ok trajectory))
    by (vm_compute; eexists; reflexivity).
  destruct Hrun as [trajectory Hrun].
  destruct (phase_space_of_returned_trajectory 10 lorenzSystem lorenzQuarterSteps
              trajectory Hrun) as (trace & Hplot & Hlen & _).
  exists trajectory, trace. split; [exact Hrun|]. split; [exact Hplot|exact Hlen].
Defined.

(** ** What the dashboard computes *)

(** The [useMemo] that runs the solver: the trajectory, or the message of
    the [Error] that was caught, or ['Unknown error occurred'] for
    anything else that was thrown.  Without a current system the call
    [solveODE(undefined, ...)] throws a [TypeError] when the validator
    reads [system.stateVariables] (its message is the engine's). *)
Definition trajectoryResult (fuel : nat) (s : DashboardState) : option SolverResult :=
  match currentSystem s with
  | None =>
      Some (Failure (ForeignMessage
                       "Cannot read properties of undefined (reading 'stateVariables')"))
  | Some system =>
      match solveODE fuel system (dashboardConfig s) with
      | None => None
      | Some (Ok trajectory) => Some (Success trajectory)
      | Some (Throw (ErrorObj msg)) => Some (Failure msg)
      | Some (Throw (NonError _ _)) =>
          Some (Failure (ForeignMessage "Unknown error occurred"))
      end
  end.

Lemma registered_respects_dimension system :
  system ∈ systems → respectsDimension system.
Proof.
  intros Hin. unfold systems in Hin.
  repeat (apply elem_of_cons in Hin as [->|Hin]);
    [apply lorenz_respects_dimension|apply lotkaVolterra_respects_dimension|].
  by apply elem_of_nil in Hin.
Qed.

Lemma registered_never_throws system :
  system ∈ systems → neverThrows system.(equations).
Proof.
  intros Hin. unfold systems in Hin.
  repeat (apply elem_of_cons in Hin as [->|Hin]);
    [intros s p; by eexists..|].
  by apply elem_of_nil in Hin.
Qed.

(** The step budget of the dashboard's runs: 5001 or 3001 steps. *)
Lemma dashboard_budget s : (maxStepsOf (dashboardConfig s) <=? 0x1p53)%float = true.
Proof.
  unfold maxStepsOf, dashboardConfig. cbn [dt tMax].
  by destruct (String.eqb _ _); vm_compute.
Qed.

(** X15.  In every state the dashboard can reach, the computation of the
    trajectory comes to an end, and what it shows is a trajectory the
    solver returned or one of five errors: an initial condition that is
    not finite, a parameter that is not finite or out of its bounds, a
    numerical instability, or the exhausted step budget.  It never shows
    the error of a missing system, a length mismatch, or the text for an
    unknown error. *)
Theorem dashboard_run_outcomes :
  ∀ s, reachable s →
    ∃ system fuel outcome,
      currentSystem s = Some system
      ∧ (∀ fuel', fuel ≤ fuel' → trajectoryResult fuel' s = Some outcome)
      ∧ match outcome with
        | Success trajectory =>
            solveODE fuel system (dashboardConfig s) = Some (Ok trajectory)
        | Failure msg =>
            msg = InitialNotFinite
            ∨ (∃ name, msg = ParameterNotFinite name)
            ∨ (∃ name value lo hi, msg = ParameterOutOfRange name value lo hi)
            ∨ (∃ time, msg = NumericalInstability time)
            ∨ msg = MaxStepsExceeded
        end.
Proof.
  intros s (system & Hcur & Hlen & Hown)%reachable_consistent.
  pose proof (declaredPresent_missingParams _ _ Hown) as Hmiss.
  pose proof (proj1 (getSystemById_registered _ _ Hcur)) as Hregistered.
  destruct (solveODE_terminates system (dashboardConfig s)) as (fuel & r & Hrun).
  { intros _. apply dashboard_budget. }
  assert (Hmore : ∀ fuel', fuel ≤ fuel' →
                    solveODE fuel' system (dashboardConfig s) = Some r)
    by (by apply solveODE_more_fuel).
  destruct r as [trajectory|e].
  - exists system, fuel, (Success trajectory). split; [done|]. split; [|done].
    intros fuel' Hle. unfold trajectoryResult. by rewrite Hcur, Hmore.
  - destruct (solveODE_throws _ _ _ _ (registered_never_throws _ Hregistered) Hrun)
      as (msg & -> & _).
    exists system, fuel, (Failure msg). split; [done|]. split.
    { intros fuel' Hle. unfold trajectoryResult. by rewrite Hcur, Hmore. }
    destruct (run_failures fuel system (dashboardConfig s) msg) as [Hv|[_ Hloop]].
    + by apply registered_respects_dimension.
    + unfold solveODESafe. by rewrite Hrun.
    + destruct (dashboard_validation_messages _ _ _ Hlen Hmiss Hv) as [?|[?|?]];
        auto.
    + destruct Hloop; auto.
Qed.

Lemma dashboard_run_outcomes_witness :
  ∃ system fuel outcome,
    currentSystem initialState = Some system
    ∧ trajectoryResult fuel initialState = Some outcome.
Proof.
  destruct (dashboard_run_outcomes initialState reachable_initial)
    as (system & fuel & outcome & Hcur & Hrun & _).
  exists system, fuel, outcome. split; [exact Hcur|]. apply Hrun. apply Nat.le_refl.
Defined.

(** ** What [isSolverConfig] accepts *)

Lemma number_read (p : JSValue) (value : float) :
  asNumber p = Some value → p = JSNumber value.
Proof. destruct p; intros H; inversion H. reflexivity. Qed.

Lemma numbers_read (xs : list JSValue) (values : list float) :
  mapM (M := option) asNumber xs = Some values → xs = JSNumber <$> values.
Proof.
  intros Hread%mapM_Some. induction Hread as [|x y xs ys Hx _ IH]; [done|].
  rewrite fmap_cons. f_equal; [by apply number_read|done].
Qed.

(** An object all of whose values are numbers. *)
Lemma object_of_numbers (properties : gmap string JSValue) :
  everyElement (hasType "number") (map snd (map_to_list properties)) = Ok true →
  ∃ numbers : gmap string float, properties = JSNumber <$> numbers.
Proof.
  rewrite everyElement_true, Forall_fmap. intros Hall.
  exists (omap asNumber properties). apply map_eq. intros key.
  rewrite lookup_fmap, lookup_omap.
  destruct (properties !! key) as [p|] eqn:Hp; [|done]. simpl.
  apply elem_of_map_to_list in Hp.
  rewrite Forall_forall in Hall. specialize (Hall _ Hp). simpl in Hall.
  apply hasType_number in Hall as [value Hvalue].
  rewrite Hvalue. simpl. f_equal. by apply number_read.
Qed.

(** X22.  [isSolverConfig] accepts exactly the plain objects whose [dt]
    and [tMax] are numbers, whose [initialConditions] is an array of
    numbers, and whose [parameters] is either a plain object with numbers
    for values or an array of numbers: an array passes for the parameter
    object. *)
Theorem isSolverConfig_reads :
  ∀ v,
    isSolverConfig v = Ok true
    ↔ ∃ properties step horizon values,
        v = JSObject properties
        ∧ properties !! "dt" = Some (JSNumber step)
        ∧ properties !! "tMax" = Some (JSNumber horizon)
        ∧ properties !! "initialConditions" = Some (JSArray (JSNumber <$> values))
        ∧ ((∃ numbers : gmap string float,
              properties !! "parameters" = Some (JSObject (JSNumber <$> numbers)))
           ∨ (∃ numbers : list float,
                properties !! "parameters" = Some (JSArray (JSNumber <$> numbers)))).
Proof.
  intros v. split.
  - unfold isSolverConfig.
    destruct v as [| | | | | |xs|m]; try (by intros H; inversion H).
    change (notAnObject (JSObject m)) with false. cbn match.
    rewrite !andAlso_true_iff.
    intros [[[[[[Hdt HtMax] Harr] Hevery] Htype] Hnull] Hvalues].
    apply number_field_accepted in Hdt as [step Hdt].
    apply number_field_accepted in HtMax as [horizon HtMax].
    destruct (proj1 (array_field_accepted m "initialConditions" _ asNumber
                       hasType_number) (conj Harr Hevery)) as [values Hconds].
    unfold fieldNumber, fieldArray in *. cbn [field] in *.
    destruct (m !! "dt") as [pdt|] eqn:Edt; [|done].
    destruct (m !! "tMax") as [ptMax|] eqn:EtMax; [|done].
    destruct (m !! "initialConditions") as [[| | | | | |xs|]|] eqn:Econds; try done.
    apply number_read in Hdt as ->. apply number_read in HtMax as ->.
    apply numbers_read in Hconds as ->.
    exists m, step, horizon, values. split; [done|]. split; [done|].
    split; [done|]. split; [done|].
    unfold propHasType in Htype. cbn [getProp mbind result_bind] in *.
    destruct (m !! "parameters") as [[| | | | | |ps|pm]|] eqn:Eparams;
      try (by inversion Htype); try (by inversion Hnull).
    + right. cbn [default objectValues mbind result_bind] in Hvalues. simpl in Hvalues.
      apply (everyElement_reads _ asNumber _ hasType_number) in Hvalues as [numbers Hn].
      exists numbers. f_equal. f_equal. by apply numbers_read.
    + left. simpl in Hvalues.
      destruct (object_of_numbers pm Hvalues) as [numbers ->]. by exists numbers.
  - intros (m & step & horizon & values & -> & Hdt & HtMax & Hconds & Hparams).
    unfold isSolverConfig.
    change (notAnObject (JSObject m)) with false. cbn match.
    unfold propHasType, propIsArray, propEvery, andAlso.
    cbn [getProp mbind result_bind]. rewrite Hdt, HtMax, Hconds. simpl.
    rewrite (everyElement_fmap (hasType "number") JSNumber) by (intros; reflexivity).
    simpl.
    destruct Hparams as [[numbers ->]|[numbers ->]]; simpl.
    + apply everyElement_true, Forall_forall.
      intros p [[key p'] [-> Hkp]]%list_elem_of_fmap.
      apply elem_of_map_to_list in Hkp. rewrite lookup_fmap in Hkp.
      destruct (numbers !! key) as [x|]; simpl in Hkp; [|done].
      injection Hkp as <-. reflexivity.
    + by apply everyElement_fmap.
Qed.

(** * The derivative functions on incomplete inputs *)

Section NaN.

(** NaN goes through the multiplication and the subtraction. *)
Lemma mul_nan_l x y : is_nan x = true → is_nan (x * y)%float = true.
Proof.
  rewrite !is_nan_spec, FloatAxioms.mul_spec. by intros ->.
Qed.

Lemma mul_nan_r x y : is_nan y = true → is_nan (x * y)%float = true.
Proof.
  rewrite !is_nan_spec, FloatAxioms.mul_spec. intros ->.
  by destruct (Prim2SF x).
Qed.

Lemma sub_nan_l x y : is_nan x = true → is_nan (x - y)%float = true.
Proof.
  rewrite !is_nan_spec, FloatAxioms.sub_spec. by intros ->.
Qed.

Lemma sub_nan_r x y : is_nan y = true → is_nan (x - y)%float = true.
Proof.
  rewrite !is_nan_spec, FloatAxioms.sub_spec. intros ->.
  by destruct (Prim2SF x).
Qed.

(** A property that is missing and an element that is missing both read
    as [undefined], which the arithmetic takes for NaN. *)
Lemma readParameter_missing params key :
  params !! key = None → is_nan (readParameter params key) = true.
Proof. intros Hkey. unfold readParameter. by rewrite Hkey. Qed.

Lemma element_missing (state : list float) i :
  length state ≤ i → is_nan (element state i) = true.
Proof. intros Hi. unfold element. by rewrite nth_overflow. Qed.
End NaN.

Create HintDb nan.
#[local] Hint Resolve mul_nan_l mul_nan_r sub_nan_l sub_nan_r
  readParameter_missing element_missing : nan.

(** X21.  The derivative functions of the two built-in systems return
    three and two derivatives for every state and every parameter object,
    and never throw.  A parameter that is missing, or a state that is too
    short, is not an error to them: every derivative whose formula uses
    the missing value is NaN. *)
Theorem equations_on_incomplete_inputs :
  (∀ state params, ∃ dx dy dz,
     lorenzSystem.(equations) state params = Ok [dx; dy; dz]
     ∧ (params !! "sigma" = None → is_nan dx = true)
     ∧ (params !! "rho" = None → is_nan dy = true)
     ∧ (params !! "beta" = None → is_nan dz = true)
     ∧ (length state < 3 → is_nan dy = true ∧ is_nan dz = true)
     ∧ (length state < 2 → is_nan dx = true))
  ∧ (∀ state params, ∃ dPrey dPredator,
       lotkaVolterraSystem.(equations) state params = Ok [dPrey; dPredator]
       ∧ (params !! "alpha" = None ∨ params !! "beta" = None → is_nan dPrey = true)
       ∧ (params !! "delta" = None ∨ params !! "gamma" = None →
          is_nan dPredator = true)
       ∧ (length state < 2 → is_nan dPrey = true ∧ is_nan dPredator = true)).
Proof.
  split; intros state params; do 2 eexists; [eexists|];
    (split; [reflexivity|]).
  - repeat split; intros; auto 6 with nan lia.
  - repeat split; try intros [|]; intros; auto 6 with nan lia.
Qed.

(** * Parameters that are not declared *)

(** A derivative function that reads the parameters the system declares
    and no other property of the parameter object. *)
Definition readsDeclaredOnly (system : ODESystem) : Prop :=
  ∀ s p name value,
    name ∉ map p_name system.(sys_parameters) →
    system.(equations) s (<[name := value]> p) = system.(equations) s p.

(** The stepper hands the parameter object to the derivative function
    and does nothing else with it. *)
Lemma rk4Step_parameters f (s : list float) (p1 p2 : gmap string float) h :
  (∀ s', f s' p1 = f s' p2) → rk4Step f s p1 h = rk4Step f s p2 h.
Proof.
  intros Hf. unfold rk4Step. rewrite Hf.
  destruct (f s p2) as [k1|]; simpl; [|done].
  destruct (add s _) as [s1|]; simpl; [|done]. rewrite Hf.
  destruct (f s1 p2) as [k2|]; simpl; [|done].
  destruct (add s _) as [s2|]; simpl; [|done]. rewrite Hf.
  destruct (f s2 p2) as [k3|]; simpl; [|done].
  destruct (add s _) as [s3|]; simpl; [|done]. by rewrite Hf.
Qed.

Lemma while_ignores_undeclared system config name value maxSteps fuel v :
  readsDeclaredOnly system →
  name ∉ map p_name system.(sys_parameters) →
  while system (withParameter config name value) maxSteps fuel v
  = while system config maxSteps fuel v.
Proof.
  intros Hreads Hname. revert v.
  induction fuel as [|fuel IH]; intros v; simpl; [done|].
  change (loopCondition (withParameter config name value) maxSteps v)
    with (loopCondition config maxSteps v).
  destruct (loopCondition config maxSteps v); [|done].
  unfold loopBody. cbn [withParameter dt cfg_parameters].
  rewrite (rk4Step_parameters _ _ (<[name:=value]> config.(cfg_parameters))
             config.(cfg_parameters)) by (intros s'; by apply Hreads).
  destruct (rk4Step _ _ _ _) as [s'|[msg|e]]; [|done..].
  destruct (hasInvalidValues s'); [done|]. apply IH.
Qed.

(** X23.  On a system whose derivative function reads the declared
    parameters only, a property of the parameter object under a name that
    is not declared has no effect at all: with or without it, and
    whatever its value, the run has the same outcome. *)
Theorem undeclared_parameter_ignored :
  ∀ fuel system config name value,
    readsDeclaredOnly system →
    name ∉ map p_name system.(sys_parameters) →
    solveODESafe fuel system (withParameter config name value)
    = solveODESafe fuel system config.
Proof.
  intros fuel system config name value Hreads Hname.
  unfold solveODESafe, solveODE.
  rewrite validation_ignores_undeclared by done.
  change (maxStepsOf (withParameter config name value)) with (maxStepsOf config).
  change (initialVars (withParameter config name value)) with (initialVars config).
  change (initialConditions (withParameter config name value))
    with (initialConditions config).
  by rewrite while_ignores_undeclared.
Qed.

Lemma builtin_systems_read_declared_only system :
  system ∈ systems → readsDeclaredOnly system.
Proof.
  intros Hin. unfold systems in Hin.
  repeat (apply elem_of_cons in Hin as [->|Hin]); [| |by apply elem_of_nil in Hin].
  - intros s p name value Hname. cbn [lorenzSystem sys_parameters map p_name] in Hname.
    repeat (apply not_elem_of_cons in Hname as [? Hname]).
    cbn [lorenzSystem equations]. unfold readParameter.
    by rewrite !lookup_insert_ne.
  - intros s p name value Hname.
    cbn [lotkaVolterraSystem sys_parameters map p_name] in Hname.
    repeat (apply not_elem_of_cons in Hname as [? Hname]).
    cbn [lotkaVolterraSystem equations]. unfold readParameter.
    by rewrite !lookup_insert_ne.
Qed.

Lemma undeclared_parameter_ignored_witness :
  solveODESafe 10 lorenzSystem (withParameter lorenzQuarterSteps "gamma" 3%float)
  = solveODESafe 10 lorenzSystem lorenzQuarterSteps.
Proof.
  apply (undeclared_parameter_ignored 10 lorenzSystem lorenzQuarterSteps "gamma" 3%float).
  - apply builtin_systems_read_declared_only. left.
  - cbn [lorenzSystem sys_parameters map p_name].
    intros Hin. repeat (apply elem_of_cons in Hin as [Hin|Hin]; [discriminate Hin|]).
    by apply elem_of_nil in Hin.
Defined.
